(** * Surround360 colour calibration: a shallow embedding of
    [surround360_render/source/calibration/ColorCalibration.cpp]

    The development follows the C++ source function by function.

    - C++ [float]/[double] values are rationals ([Q]).  The thresholds the
      code compares integers with, or converts to [int], are computed as
      the code computes them: every constant and every operation is
      rounded to binary32 ([fl32]) or binary64 ([fl64]), to nearest with
      ties to even.  Values that are only measured, stored and returned
      (medians, the fitted response, the error vectors) are kept exact:
      there rounding, infinities and NaN are abstracted away.  The only
      irrational primitive, the square root inside [cv::norm], is a
      parameter [sqrtQ] of the functions that use it.
    - [std::vector::operator[]] and [cv::Mat::at] have no defined result out
      of range; the model makes that outcome explicit ([Undefined]) instead
      of inventing a value.  A thrown [VrCamException] is [Throw], a loop
      that never exits is [Diverges].
    - OpenCV and the camera ISP are outside the repository: their
      primitives are fields of the records [OpenCV] and [CameraIsp].
    - Debug-image output ([saveDebugImages]) and logging do not feed back
      into any result and are left out: the model is the one of a run with
      [saveDebugImages = false] and readable configuration files.
    - Division is [Qdiv], which is total ([x / 0 = 0]); a float quotient by
      zero is infinite or NaN.  Where the code converts such a quotient to
      [int] the model says [Undefined]; elsewhere the two agree on every
      comparison the code makes with it, or the value is only stored. *)

From Stdlib Require Import ZArith QArith Qround Qabs Qminmax Qpower Lia Lqa String List Sorted.
From stdpp Require Import base option list gmap sorting.
Import ListNotations.
Local Open Scope Z_scope.

(** ** Outcomes of a call *)

Inductive result (A : Type) : Type :=
| Ok (a : A)
| Throw (what : string)
| Undefined
| Diverges.
Arguments Ok {A} a.
Arguments Throw {A} what.
Arguments Undefined {A}.
Arguments Diverges {A}.

#[global] Instance result_ret : MRet result := fun _ a => Ok a.
#[global] Instance result_bind : MBind result := fun _ _ f m =>
  match m with
  | Ok a => f a
  | Throw w => Throw w
  | Undefined => Undefined
  | Diverges => Diverges
  end.

(** [v[i]] for a [std::vector] and a signed index. *)
Definition vec_at {A} (v : list A) (i : Z) : result A :=
  if i <? 0 then Undefined
  else match v !! Z.to_nat i with
       | Some a => Ok a
       | None => Undefined
       end.

(** [v[i] = a] *)
Definition vec_set {A} (v : list A) (i : nat) (a : A) : result (list A) :=
  if (i <? length v)%nat then Ok (<[i := a]> v) else Undefined.

(** Monadic left fold: the body of a [for] loop over a container. *)
Fixpoint foldlM {A B} (f : B -> A -> result B) (l : list A) (acc : B) : result B :=
  match l with
  | [] => Ok acc
  | a :: l' => acc' ← f acc a; foldlM f l' acc'
  end.

Fixpoint mapMr {A B} (f : A -> result B) (l : list A) : result (list B) :=
  match l with
  | [] => Ok []
  | a :: l' => b ← f a; bs ← mapMr f l'; Ok (b :: bs)
  end.

(** [for (int i = hi; i >= lo; --i)]: the indices visited, in order. *)
Definition downto (hi lo : Z) : list Z :=
  map (fun k => hi - Z.of_nat k) (seq 0 (Z.to_nat (hi - lo + 1))).

(** ** Floating point *)

Definition Qltb (x y : Q) : bool := negb (Qle_bool y x).

(** [std::max(a, b)] is [(a < b) ? b : a]; [std::min(a, b)] is
    [(b < a) ? b : a]. *)
Definition fmaxf (a b : Q) : Q := if Qltb a b then b else a.
Definition fminf (a b : Q) : Q := if Qltb b a then b else a.

(** Conversion of a float to [int]: truncation toward zero. *)
Definition truncToInt (q : Q) : Z := Z.quot (Qnum q) (Zpos (Qden q)).

(** [cvRound]: to the nearest integer, ties to even. *)
Definition cvRound (q : Q) : Z :=
  let f := Qfloor q in
  let r := (q - inject_Z f)%Q in
  if Qltb r (1 # 2) then f
  else if Qltb (1 # 2) r then f + 1
  else if Z.even f then f else f + 1.

(** The exponent of the binade of [x]: [2^e <= |x| < 2^(e+1)]. *)
Definition binade (x : Q) : Z :=
  let e0 := Z.log2 (Z.abs (Qnum x)) - Z.log2 (Zpos (Qden x)) in
  if Qle_bool (2 ^ e0) (Qabs x) then e0 else e0 - 1.

(** Rounding to a significand of [p] bits, to nearest with ties to even.
    The exponent is not bounded: the products of image sizes and fractions
    that are rounded here neither overflow nor reach the subnormal range. *)
Definition roundTo (p : Z) (x : Q) : Q :=
  let ulp := (2 ^ (binade x - (p - 1)))%Q in
  (inject_Z (cvRound (x / ulp)) * ulp)%Q.

(** [float] and [double] *)
Definition fl32 (x : Q) : Q := roundTo 24 x.
Definition fl64 (x : Q) : Q := roundTo 53 x.

(** The [float] operations, and the conversion of an [int] to [float]. *)
Definition fadd (a b : Q) : Q := fl32 (a + b).
Definition fsub (a b : Q) : Q := fl32 (a - b).
Definition fmul (a b : Q) : Q := fl32 (a * b).
Definition fdiv (a b : Q) : Q := fl32 (a / b).
Definition float_of_int (n : Z) : Q := fl32 (inject_Z n).

Definition FLT_MAX : Q := inject_Z (2 ^ 128 - 2 ^ 104).
Definition DBL_MAX : Q := inject_Z (2 ^ 1024 - 2 ^ 971).
Definition M_PI : Q := 3.14159265358979323846%Q.

Fixpoint insert_sorted {A} (lt : A -> A -> bool) (x : A) (l : list A) : list A :=
  match l with
  | [] => [x]
  | y :: l' => if lt y x then y :: insert_sorted lt x l' else x :: y :: l'
  end.

(** [std::sort(begin, end, lt)] as an insertion sort: [x] moves past the
    elements that are below it and stops at the first that is not, so
    elements that [lt] does not separate keep their relative order.  The
    C++ standard leaves that order open; the insertion sort libstdc++ runs
    on vectors of up to 16 elements keeps it. *)
Definition std_sort {A} (lt : A -> A -> bool) (l : list A) : list A :=
  foldr (insert_sorted lt) [] l.

(** ** OpenCV value types *)

Module cv.

Record Point2f := mkPoint2f { x : Q; y : Q }.
Record Point := mkPoint { xi : Z; yi : Z }.
Record Vec3f := mkVec3f { c0 : Q; c1 : Q; c2 : Q }.
Record Vec4f := mkVec4f { e0 : Q; e1 : Q; e2 : Q; e3 : Q }.
Record Rect := mkRect { rx : Z; ry : Z; rwidth : Z; rheight : Z }.

(** [Point2f] to [Point]: OpenCV's [saturate_cast<int>], that is [cvRound]. *)
Definition toPoint (p : Point2f) : Point := mkPoint (cvRound (x p)) (cvRound (y p)).

Definition sub2f (p q : Point2f) : Point2f :=
  mkPoint2f (x p - x q)%Q (y p - y q)%Q.

(** [v[ch]] for ch in 0..2; other indices are outside the vector. *)
Definition at3 (v : Vec3f) (ch : nat) : Q :=
  match ch with
  | O => c0 v
  | 1%nat => c1 v
  | _ => c2 v
  end.

(** A [Vec3f] filled by a [for (ch = 0; ch < 3; ++ch)] loop whose
    iterations are independent. *)
Definition init3 (f : nat -> Q) : Vec3f := mkVec3f (f 0%nat) (f 1%nat) (f 2%nat).

Definition sub3 (a b : Vec3f) : Vec3f :=
  mkVec3f (c0 a - c0 b)%Q (c1 a - c1 b)%Q (c2 a - c2 b)%Q.
Definition scale3 (a : Vec3f) (s : Q) : Vec3f :=
  mkVec3f (c0 a * s)%Q (c1 a * s)%Q (c2 a * s)%Q.
Definition add3 (a b : Vec3f) : Vec3f :=
  mkVec3f (c0 a + c0 b)%Q (c1 a + c1 b)%Q (c2 a + c2 b)%Q.

Definition at4 (v : Vec4f) (k : nat) : Q :=
  match k with
  | O => e0 v
  | 1%nat => e1 v
  | 2%nat => e2 v
  | _ => e3 v
  end.

(** A matrix is its list of rows. *)
Definition Mat (A : Type) : Type := list (list A).

Definition rows {A} (m : Mat A) : Z := Z.of_nat (length m).
Definition cols {A} (m : Mat A) : Z :=
  match m with
  | [] => 0
  | r :: _ => Z.of_nat (length r)
  end.

(** [m.at<A>(row, col)] *)
Definition at_ {A} (m : Mat A) (row col : Z) : result A :=
  r ← vec_at m row; vec_at r col.

(** [m.at<A>(Point p)] is [m.at<A>(p.y, p.x)]. *)
Definition atPoint {A} (m : Mat A) (p : Point) : result A := at_ m (yi p) (xi p).

(** [Mat(size, type, Scalar(v))] *)
Definition filled {A} (nrows ncols : Z) (v : A) : Mat A :=
  replicate (Z.to_nat nrows) (replicate (Z.to_nat ncols) v).

Definition mapMat {A B} (f : A -> B) (m : Mat A) : Mat B := map (map f) m.

(** [findNonZero(mask, locs)]: the non-zero positions, row by row. *)
Definition findNonZero (mask : Mat Z) : list Point :=
  concat (imap (fun r row =>
    omap (fun '(c, v) => if v =? 0 then None else Some (mkPoint (Z.of_nat c) (Z.of_nat r)))
         (imap (fun c v => (c, v)) row)) mask).

(** [m(rect).setTo(v)] on a matrix [m]. *)
Definition setRect {A} (m : Mat A) (rc : Rect) (v : A) : Mat A :=
  imap (fun r row =>
    imap (fun c old =>
      if (ry rc <=? Z.of_nat r) && (Z.of_nat r <? ry rc + rheight rc)
         && (rx rc <=? Z.of_nat c) && (Z.of_nat c <? rx rc + rwidth rc)
      then v else old) row) m.

(** [divide(a, b, dst)] on two [Vec3f]: the per-element quotient.  For a
    zero divisor OpenCV stores 0 before version 4 and the IEEE quotient from
    version 4 on; [Qdiv] gives 0. *)
Definition divide3 (a b : Vec3f) : Vec3f :=
  mkVec3f (c0 a / c0 b)%Q (c1 a / c1 b)%Q (c2 a / c2 b)%Q.

End cv.

(** An image as the calibration reads it: [at<float>] on a one-channel
    image, [at<Vec3f>] on a three-channel one.  Reading with the other
    element type has no defined result. *)
Inductive Image : Type :=
| Gray (m : cv.Mat Q)
| Rgb (m : cv.Mat cv.Vec3f).

Definition at_float (im : Image) (p : cv.Point) : result Q :=
  match im with
  | Gray m => cv.atPoint m p
  | Rgb _ => Undefined
  end.

Definition at_Vec3f (im : Image) (p : cv.Point) : result cv.Vec3f :=
  match im with
  | Rgb m => cv.atPoint m p
  | Gray _ => Undefined
  end.

(** The part of [CameraIsp] the calibration calls: the mosaic
    classification of a pixel (row, col), the normalised raw image returned
    by [loadImage] followed by [getRawImage], and the clamp stage. *)
Record CameraIsp := {
  redPixel : Z -> Z -> bool;
  greenPixel : Z -> Z -> bool;
  loadedRawImage : cv.Mat Z -> cv.Mat Q;
  ispClampAndStretch : cv.Vec3f -> cv.Vec3f -> Image -> Image -> Image
}.

(** ** The OpenCV primitives the calibration calls *)

Definition Contour : Type := list cv.Point.

Record RotatedRect := mkRotatedRect {
  center : cv.Point2f;
  size_width : Q;
  size_height : Q
}.

(** One row of the [stats] matrix of [connectedComponentsWithStats]. *)
Record CCStats := mkCCStats {
  CC_STAT_LEFT : Z;
  CC_STAT_TOP : Z;
  CC_STAT_WIDTH : Z;
  CC_STAT_HEIGHT : Z;
  CC_STAT_AREA : Z
}.

Inductive MorphShape : Type := MORPH_RECT | MORPH_CROSS.

(** The element depth of a [cv::Mat]. *)
Inductive Depth : Type := CV_8U | CV_16U | CV_32F.

(** [labels] and [hist] are only ever read inside their extent, so they are
    given by their read functions: [labels.at<int>(y, x)] and
    [hist.at<float>(h)]. *)
Record OpenCV := {
  scaleSaturate : Q -> cv.Mat Z -> cv.Mat Z;
  GaussianBlur : cv.Mat Z -> cv.Mat Z;
  adaptiveThreshold : cv.Mat Z -> cv.Mat Z;
  morphologyClose : cv.Mat Z -> MorphShape -> Z -> cv.Mat Z;
  dilate : cv.Mat Z -> MorphShape -> Z -> cv.Mat Z;
  connectedComponentsWithStats : cv.Mat Z -> Z -> (Z -> Z -> Z) * list CCStats;
  cvFindContours : cv.Mat Z -> list Contour;
  arcLength : Contour -> Q;
  approxPolyDP : Contour -> Q -> Contour;
  contourArea : Contour -> Q;
  minEnclosingCircle : Contour -> cv.Point2f * Q;
  drawContourFilled : cv.Mat Z -> list Contour -> nat -> cv.Mat Z;
  minAreaRect : Contour -> RotatedRect;
  moments_m00 : Contour -> Q;
  isContourConvex : Contour -> bool;
  boundingRect : Contour -> cv.Rect;
  calcHist : cv.Mat Q -> Z -> Q -> Q -> Z -> Q
}.

(** ** The calibration functions *)

Module color_calibration.

Record ColorPatch := mkColorPatch {
  centroid : cv.Point2f;
  mask : cv.Mat Z;
  rgbMedian : cv.Vec3f
}.

Record ColorResponse := mkColorResponse {
  rgbSlope : cv.Vec3f;
  rgbInterceptY : cv.Vec3f;
  rgbInterceptXMin : cv.Vec3f;
  rgbInterceptXMax : cv.Vec3f
}.

(** The pixel buffers that [cv::Mat] headers share, by buffer identity. *)
Abbreviation Store := (gmap nat (cv.Mat cv.Vec3f)).

Definition zero3 : cv.Vec3f := cv.mkVec3f 0 0 0.
Definition zero4 : cv.Vec4f := cv.mkVec4f 0 0 0 0.

Definition kNumGrayPatches : Z := 5.
Definition kBrightIdx : Z := 4.
Definition kDarkIdx : Z := 1.
Definition kScale : Q := 255.

Section Calibration.

(** The reference chart table is declared in [ColorCalibration.h]. *)
Variable rgbLinearMacbeth : list (list Z).
Variable cameraIsp : CameraIsp.
Variable ocv : OpenCV.
(** The square root behind [cv::norm]. *)
Variable sqrtQ : Q -> Q.

(** [norm(p)] for a [Point2f] and [norm(v)] for a [Vec3f] (L2). *)
Definition norm2 (p : cv.Point2f) : Q :=
  sqrtQ (cv.x p * cv.x p + cv.y p * cv.y p)%Q.
Definition norm3 (v : cv.Vec3f) : Q :=
  sqrtQ (cv.c0 v * cv.c0 v + cv.c1 v * cv.c1 v + cv.c2 v * cv.c2 v)%Q.

(** From darkest to brightest *)
Definition getMacBethGrays : result (list Z) :=
  let iStart := Z.of_nat (length rgbLinearMacbeth) - 1 in
  foldlM (fun macBethGrayValues i =>
            row ← vec_at rgbLinearMacbeth i;
            v ← vec_at row 0;
            Ok (macBethGrayValues ++ [v]))
         (downto iStart (iStart - kNumGrayPatches)) [].

Definition channelOf (p : cv.Point) : nat :=
  if redPixel cameraIsp (cv.yi p) (cv.xi p) then 0%nat
  else if greenPixel cameraIsp (cv.yi p) (cv.xi p) then 1%nat else 2%nat.

(** [std::nth_element(begin, begin + n, end)] leaves at position [n] the
    element a full sort would put there; the sorted vector is one such
    arrangement, and the only position read afterwards is [n]. *)
Definition nth_element (bucket : list Q) : list Q := std_sort Qltb bucket.

(** One round of the median loop: [RGBs[ch][RGBs[ch].size() / 2]] after the
    partial sort. *)
Definition medianOfChannel (RGBs : list (list Q)) (ch : nat) : result Q :=
  bucket ← vec_at RGBs (Z.of_nat ch);
  vec_at (nth_element bucket) (Z.of_nat (length bucket) / 2).

(** The three buckets [RGBs] once the masked pixels are distributed. *)
Definition collectChannels (image : Image) (mask : cv.Mat Z) (isRaw : bool)
  : result (list (list Q)) :=
  foldlM (fun RGBs p =>
            if isRaw then
              valRaw ← at_float image p;
              Ok (alter (fun channel => channel ++ [valRaw]) (channelOf p) RGBs)
            else
              val ← at_Vec3f image p;
              Ok (imap (fun ch channel => channel ++ [cv.at3 val ch]) RGBs))
         (cv.findNonZero mask) [[]; []; []].

Definition getRgbMedianMask (image : Image) (mask : cv.Mat Z) (isRaw : bool)
  : result cv.Vec3f :=
  RGBs ← collectChannels image mask isRaw;
  m0 ← medianOfChannel RGBs 0;
  m1 ← medianOfChannel RGBs 1;
  m2 ← medianOfChannel RGBs 2;
  Ok (cv.mkVec3f m0 m1 m2).

Definition computeRGBMedians (colorPatches : list ColorPatch) (image : Image)
    (isRaw : bool) : result (list ColorPatch) :=
  mapMr (fun cp =>
           m ← getRgbMedianMask image (mask cp) isRaw;
           Ok (mkColorPatch (centroid cp) (mask cp) m))
        colorPatches.

(** Returns the patches with their refreshed medians (the C++ updates them
    through the reference) and the fitted response. *)
Definition computeRGBResponse (raw : Image) (isRaw : bool)
    (colorPatches : list ColorPatch) : result (list ColorPatch * ColorResponse) :=
  colorPatches ← computeRGBMedians colorPatches raw isRaw;
  macBethGrayValues ← getMacBethGrays;
  let iStart := Z.of_nat (length colorPatches) - 1 in
  gDark ← vec_at macBethGrayValues kDarkIdx;
  let xDark := (inject_Z gDark / 255)%Q in
  gBright ← vec_at macBethGrayValues kBrightIdx;
  let xBright := (inject_Z gBright / 255)%Q in
  pDark ← vec_at colorPatches (iStart - kDarkIdx);
  let yDark := rgbMedian pDark in
  pBright ← vec_at colorPatches (iStart - kBrightIdx);
  let yBright := rgbMedian pBright in
  let slope := cv.init3 (fun ch =>
    ((cv.at3 yBright ch - cv.at3 yDark ch) / (xBright - xDark))%Q) in
  let interceptY := cv.init3 (fun ch =>
    (- cv.at3 slope ch * xDark + cv.at3 yDark ch)%Q) in
  let interceptXMin := cv.init3 (fun ch =>
    (- cv.at3 interceptY ch / cv.at3 slope ch)%Q) in
  let interceptXMax := cv.init3 (fun ch =>
    ((1 - cv.at3 interceptY ch) / cv.at3 slope ch)%Q) in
  Ok (colorPatches, mkColorResponse slope interceptY interceptXMin interceptXMax).

(** Returns the clamped image and the two in/out clamp vectors. *)
Definition clampAndStretch (rawRef raw : Image) (colorResponse : ColorResponse)
    (rgbClampMin rgbClampMax : cv.Vec3f) : Image * cv.Vec3f * cv.Vec3f :=
  let m := rgbSlope colorResponse in
  let b := rgbInterceptY colorResponse in
  let xMin := cv.at3 rgbClampMin 0 in
  let xMax := cv.at3 rgbClampMax 0 in
  let rgbClampMin := cv.add3 (cv.scale3 m xMin) b in
  let rgbClampMax := cv.add3 (cv.scale3 m xMax) b in
  let rgbClampMin := cv.init3 (fun ch => fmaxf 0 (cv.at3 rgbClampMin ch)) in
  let rgbClampMax := cv.init3 (fun ch => fminf 1 (cv.at3 rgbClampMax ch)) in
  (ispClampAndStretch cameraIsp rgbClampMin rgbClampMax rawRef raw,
   rgbClampMin, rgbClampMax).

Definition scaleMat (s : Q) (m : cv.Mat cv.Vec3f) : cv.Mat cv.Vec3f :=
  cv.mapMat (fun v => cv.scale3 v s) m.

(** [im *= s]: the buffer behind the header is rewritten in place. *)
Definition scaleInPlace (s : Q) (im : nat) (σ : Store) : result Store :=
  match σ !! im with
  | Some m => Ok (<[im := scaleMat s m]> σ)
  | None => Undefined
  end.

Definition readImage (im : nat) (σ : Store) : result (cv.Mat cv.Vec3f) :=
  match σ !! im with
  | Some m => Ok m
  | None => Undefined
  end.

(** One patch of the error loop.  [medianBefore] is read and not used: the
    before difference is taken from the patch's stored median. *)
Definition patchErrorStep (before after : cv.Mat cv.Vec3f) (numPatches : Z)
    (errs : cv.Vec4f * cv.Vec4f) (icp : nat * ColorPatch)
  : result (cv.Vec4f * cv.Vec4f) :=
  let '(errBefore, errAfter) := errs in
  let '(i, cp) := icp in
  medianBefore ← cv.atPoint before (cv.toPoint (centroid cp));
  medianAfter ← cv.atPoint after (cv.toPoint (centroid cp));
  row ← vec_at rgbLinearMacbeth (Z.of_nat i);
  m0 ← vec_at row 0;
  m1 ← vec_at row 1;
  m2 ← vec_at row 2;
  let macbethPatchVal := cv.mkVec3f (inject_Z m0) (inject_Z m1) (inject_Z m2) in
  let diffBefore := cv.sub3 (rgbMedian cp) macbethPatchVal in
  let diffAfter := cv.sub3 medianAfter macbethPatchVal in
  let n := inject_Z numPatches in
  let step (err : cv.Vec4f) (diff : cv.Vec3f) :=
    cv.mkVec4f (cv.e0 err + norm3 diff / n)%Q
               (cv.e1 err + Qabs (cv.c0 diff) / n)%Q
               (cv.e2 err + Qabs (cv.c1 diff) / n)%Q
               (cv.e3 err + Qabs (cv.c2 diff) / n)%Q in
  Ok (step errBefore diffBefore, step errAfter diffAfter).

(** [imBefore] and [imAfter] name the buffers of the two images; the
    result carries the store after the call. *)
Definition computeColorPatchErrors (imBefore imAfter : nat)
    (colorPatches : list ColorPatch) (σ : Store)
  : result (Store * (cv.Vec4f * cv.Vec4f)) :=
  σ ← scaleInPlace kScale imBefore σ;
  σ ← scaleInPlace kScale imAfter σ;
  before ← readImage imBefore σ;
  after ← readImage imAfter σ;
  let numPatches := Z.of_nat (length colorPatches) in
  errs ← foldlM (patchErrorStep before after numPatches)
                (imap (fun i cp => (i, cp)) colorPatches) (zero4, zero4);
  Ok (σ, errs).

Definition getBitsPerPixel (depth : Depth) : Z :=
  match depth with
  | CV_8U => 8
  | _ => 16
  end.

(** [getRaw(ispConfigFile, image)] *)
Definition getRaw (image : cv.Mat Z) : cv.Mat Q := loadedRawImage cameraIsp image.

(** The repository's [findContours]: OpenCV's contours, each straightened
    with a tolerance proportional to its perimeter. *)
Definition findContours (image : cv.Mat Z) (straightenFactor : Q) : list Contour :=
  map (fun c => approxPolyDP ocv c (fl64 (straightenFactor * arcLength ocv c)))
      (cvFindContours ocv image).

(** [image] is a [CV_32F] matrix at the only call site. *)
Definition computeHistogram (image : cv.Mat Q) (depth : Depth) : Z -> Q :=
  let bitsPerPixel := getBitsPerPixel depth in
  let maxPixelValue := 2 ^ bitsPerPixel - 1 in
  let histSize := maxPixelValue + 1 in
  calcHist ocv image histSize 0 (inject_Z maxPixelValue).

Definition kNumPixelsMin : Z := 50.
Definition kMinNumVertices : Z := 10.
Definition kMaxRatioAreas : Q := fl32 0.5.

(** [raw16.at<uint16_t>(i, j)] for every pixel of the frame.  The element
    (i, j) is read at the bytes [2j] and [2j + 1] of row [i]: on a frame of
    8-bit samples the reads in the second half of the last row lie past the
    pixel buffer, so a non-empty 8-bit frame has no defined reading.  On the
    other depths [raw16] holds the samples that are read. *)
Definition pastBuffer (raw16 : cv.Mat Z) (depth : Depth) : bool :=
  match depth with
  | CV_8U => (0 <? cv.rows raw16) && (0 <? cv.cols raw16)
  | _ => false
  end.

Definition readSamples (raw16 : cv.Mat Z) (depth : Depth) : result (cv.Mat Z) :=
  if pastBuffer raw16 depth then Undefined else Ok raw16.

(** The channel plane [RGBs[ch]] of [findBlackLevel], from the samples
    read. *)
Definition channelPlane (raw16 : cv.Mat Z) (maxPixelValue : Z) (ch : nat) : cv.Mat Q :=
  imap (fun i row =>
    imap (fun j v =>
      if (channelOf (cv.mkPoint (Z.of_nat j) (Z.of_nat i)) =? ch)%nat
      then inject_Z v else inject_Z maxPixelValue) row) raw16.

(** [for (h = 0; h < maxPixelValue; h++) if (hist(h) > kNumPixelsMin) { ...; break; }]
    run on the bins [h .. h + n - 1]. *)
Fixpoint firstBinAbove (hist : Z -> Q) (h : Z) (n : nat) : option Z :=
  match n with
  | O => None
  | S n' => if Qltb (inject_Z kNumPixelsMin) (hist h) then Some h
            else firstBinAbove hist (h + 1) n'
  end.

(** [inRange(plane, 0.0f, threshold, mask)] *)
Definition inRange0 (plane : cv.Mat Q) (threshold : Q) : cv.Mat Z :=
  cv.mapMat (fun v => if Qle_bool 0 v && Qle_bool v threshold then 255 else 0) plane.

Definition orMat (a b : cv.Mat Z) : cv.Mat Z :=
  zip_with (zip_with Z.lor) a b.

(** The histogram loop: the threshold variable lives across the channels. *)
Definition blackHoleMaskOf (raw16 : cv.Mat Z) (maxPixelValue : Z) : cv.Mat Z :=
  snd (foldl (fun '(blackLevelThreshold, blackHoleMask) ch =>
          let plane := channelPlane raw16 maxPixelValue ch in
          let hist := computeHistogram plane CV_32F in
          let blackLevelThreshold :=
            match firstBinAbove hist 0 (Z.to_nat maxPixelValue) with
            | Some h => inject_Z h
            | None => blackLevelThreshold
            end in
          (blackLevelThreshold, orMat blackHoleMask (inRange0 plane blackLevelThreshold)))
        (0%Q, cv.filled (cv.rows raw16) (cv.cols raw16) 0) [0%nat; 1%nat; 2%nat]).

(** [M_PI * circleRadius * circleRadius], computed in [double] and stored
    in a [float]. *)
Definition circleAreaOf (cont : Contour) : Q :=
  let circleRadius := snd (minEnclosingCircle ocv cont) in
  fl32 (fl64 (fl64 (fl64 M_PI * circleRadius) * circleRadius)).

(** The test that keeps a contour in [contoursFiltered].  The ratio is only
    evaluated when [contArea >= kNumPixelsMin]; over a zero circle area it
    is then infinite, hence not below [kMaxRatioAreas]. *)
Definition keepsContour (cont : Contour) : bool :=
  let contArea := truncToInt (contourArea ocv cont) in
  let circleArea := circleAreaOf cont in
  negb ((contArea <? kNumPixelsMin)
        || (Z.of_nat (length cont) <? kMinNumVertices)
        || (negb (Qeq_bool circleArea 0)
            && Qltb (fdiv (float_of_int contArea) circleArea) kMaxRatioAreas)).

Definition contoursFilteredOf (raw16 : cv.Mat Z) (depth : Depth) : list Contour :=
  let maxPixelValue := 2 ^ getBitsPerPixel depth - 1 in
  let blackHoleMask := blackHoleMaskOf raw16 maxPixelValue in
  List.filter keepsContour (findContours blackHoleMask (fl32 0.01)).

(** The median of the filled contour [i], on the normalised raw image. *)
Definition blackLevelOfContour (raw16 : cv.Mat Z) (contoursFiltered : list Contour)
    (i : nat) : result cv.Vec3f :=
  let blackHoleMask :=
    drawContourFilled ocv (cv.filled (cv.rows raw16) (cv.cols raw16) 0)
                      contoursFiltered i in
  let rawNormalized := getRaw raw16 in
  getRgbMedianMask (Gray rawNormalized) blackHoleMask true.

(** One round of the selection loop, on [(blackLevels, minNorm, minNormIdx)]. *)
Definition blackLevelStep (raw16 : cv.Mat Z) (contoursFiltered : list Contour)
    (st : list cv.Vec3f * Q * nat) (i : nat) : result (list cv.Vec3f * Q * nat) :=
  let '(blackLevels, minNorm, minNormIdx) := st in
  m ← blackLevelOfContour raw16 contoursFiltered i;
  blackLevels ← vec_set blackLevels i m;
  let blackLevelNorm := norm3 m in
  if Qltb blackLevelNorm minNorm then Ok (blackLevels, blackLevelNorm, i)
  else Ok (blackLevels, minNorm, minNormIdx).

(** The selection loop, from [blackLevels(contoursFiltered.size())],
    [minNorm = DBL_MAX] and [minNormIdx = 0]. *)
Definition selectionLoop (raw16 : cv.Mat Z) (contoursFiltered : list Contour)
  : result (list cv.Vec3f * Q * nat) :=
  let n := length contoursFiltered in
  foldlM (blackLevelStep raw16 contoursFiltered) (seq 0 n)
         (replicate n zero3, DBL_MAX, 0%nat).

(** [depth] is the depth of the frame, which [getBitsPerPixel] sees; the
    channel planes are filled from the [uint16_t] reads of the frame. *)
Definition findBlackLevel (raw16 : cv.Mat Z) (depth : Depth) : result cv.Vec3f :=
  samples ← readSamples raw16 depth;
  let contoursFiltered := contoursFilteredOf samples depth in
  st ← selectionLoop raw16 contoursFiltered;
  let '(blackLevels, _, minNormIdx) := st in
  vec_at blackLevels (Z.of_nat minNormIdx).

(** [minDistances[iPatch]] after the double loop. *)
Definition minDistanceOf (colorPatchList : list ColorPatch) (iPatch : nat)
    (pi : ColorPatch) : Q :=
  foldl (fun minDistance '(jPatch, pj) =>
           if (iPatch =? jPatch)%nat then minDistance
           else
             let distance := norm2 (cv.sub2f (centroid pi) (centroid pj)) in
             if Qltb distance minDistance then distance else minDistance)
        FLT_MAX (imap (fun j p => (j, p)) colorPatchList).

Definition minDistancesOf (colorPatchList : list ColorPatch) : list Q :=
  imap (minDistanceOf colorPatchList) colorPatchList.

Definition removeContourOutliers (colorPatchList : list ColorPatch)
  : result (list ColorPatch) :=
  let minDistances := minDistancesOf colorPatchList in
  let minDistancesSorted := std_sort Qltb minDistances in
  minDistanceMedian ←
    vec_at minDistancesSorted (Z.of_nat (length minDistancesSorted) / 2);
  let maxDistanceThreshold := (2 * minDistanceMedian)%Q in
  Ok (omap (fun '(p, d) => if Qltb d maxDistanceThreshold then Some p else None)
           (zip colorPatchList minDistances)).

Definition findTopLeft (points : list cv.Point2f) : cv.Point2f :=
  let kTopLeftRef := cv.mkPoint2f 0 0 in
  foldl (fun topLeft p =>
           if Qltb (norm2 (cv.sub2f kTopLeftRef p))
                   (norm2 (cv.sub2f kTopLeftRef topLeft))
           then p else topLeft)
        (cv.mkPoint2f FLT_MAX FLT_MAX) points.

Definition findTopRight (points : list cv.Point2f) (imageWidth : Z) : cv.Point2f :=
  let topRightRef := cv.mkPoint2f (inject_Z imageWidth) 0 in
  foldl (fun topRight p =>
           if Qltb (norm2 (cv.sub2f topRightRef p))
                   (norm2 (cv.sub2f topRightRef topRight))
           then p else topRight)
        (cv.mkPoint2f (-1) FLT_MAX) points.

Definition pointToLineDistance (p pLine1 pLine2 : cv.Point2f) : Q :=
  let n1 := ((cv.y pLine2 - cv.y pLine1) * cv.x p)%Q in
  let n2 := ((cv.x pLine2 - cv.x pLine1) * cv.y p)%Q in
  let n3 := (cv.x pLine2 * cv.y pLine1)%Q in
  let n4 := (cv.y pLine2 * cv.x pLine1)%Q in
  (Qabs (n1 - n2 + n3 - n4) / norm2 (cv.sub2f pLine1 pLine2))%Q.

(** The [while (centroids.size() > 0)] loop of [sortPatches], run for at
    most [fuel] rounds; [None] when the rounds do not suffice. *)
Fixpoint sortRows (fuel : nat) (numSquaresW imageWidth : Z)
    (centroids centroidsSorted : list cv.Point2f) : option (list cv.Point2f) :=
  match centroids with
  | [] => Some centroidsSorted
  | _ :: _ =>
    match fuel with
    | O => None
    | S fuel' =>
      let pLine1 := findTopLeft centroids in
      let pLine2 := findTopRight centroids imageWidth in
      let centroids :=
        std_sort (fun p1 p2 =>
                    Qltb (pointToLineDistance p1 pLine1 pLine2)
                         (pointToLineDistance p2 pLine1 pLine2)) centroids in
      let centroidsRow := take (Z.to_nat numSquaresW) centroids in
      let centroidsRow :=
        std_sort (fun pt1 pt2 => cv.xi (cv.toPoint pt1) <? cv.xi (cv.toPoint pt2))
                 centroidsRow in
      sortRows fuel' numSquaresW imageWidth
               (drop (length centroidsRow) centroids)
               (centroidsSorted ++ centroidsRow)
    end
  end.

(** [cp.centroid == c] *)
Definition eqPoint2f (p q : cv.Point2f) : bool :=
  Qeq_bool (cv.x p) (cv.x q) && Qeq_bool (cv.y p) (cv.y q).

(** Every round with [numSquaresW >= 1] removes a centroid, so as many
    rounds as there are centroids suffice; with [numSquaresW <= 0] no round
    removes anything and the loop never exits. *)
Definition sortPatches (colorPatchList : list ColorPatch) (numSquaresW : Z)
    (imageWidth : Z) : result (list ColorPatch) :=
  let centroids := map centroid colorPatchList in
  match sortRows (length centroids) numSquaresW imageWidth centroids [] with
  | None => Diverges
  | Some centroidsSorted =>
    Ok (omap (fun c => List.find (fun cp => eqPoint2f (centroid cp) c) colorPatchList)
             centroidsSorted)
  end.

Definition kMorphFrac : Q := fdiv (fl32 0.3) (fl32 100).

Definition createMorphRadius (imageSize : Z * Z) : Z :=
  truncToInt (fmul kMorphFrac (float_of_int (Z.min (fst imageSize) (snd imageSize)))).

Definition imageSizeOf {A} (m : cv.Mat A) : Z * Z := (cv.cols m, cv.rows m).

Definition fillGaps (imageBwIn : cv.Mat Z) : cv.Mat Z :=
  morphologyClose ocv imageBwIn MORPH_CROSS (createMorphRadius (imageSizeOf imageBwIn)).

Definition dilateGaps (imageBwIn : cv.Mat Z) : cv.Mat Z :=
  dilate ocv imageBwIn MORPH_RECT (createMorphRadius (imageSizeOf imageBwIn)).

Definition kMinAreaFrac : Q := fdiv (fl32 0.01) (fl32 100).

(** [kMinAreaFrac * imageBwIn.cols * imageBwIn.rows], converted to [int] *)
Definition smallObjectArea (imageBwIn : cv.Mat Z) : Z :=
  truncToInt (fmul (fmul kMinAreaFrac (float_of_int (cv.cols imageBwIn)))
                   (float_of_int (cv.rows imageBwIn))).

Definition removeSmallObjects (imageBwIn : cv.Mat Z) : cv.Mat Z :=
  let minArea := smallObjectArea imageBwIn in
  let '(labels, stats) := connectedComponentsWithStats ocv imageBwIn 8 in
  let labelsSmall : list Z :=
    omap (fun '(label, st) => if CC_STAT_AREA st <? minArea then Some (Z.of_nat label) else None)
         (imap (fun label st => (label, st)) stats) in
  imap (fun y row =>
    imap (fun x v =>
      if existsb (Z.eqb (labels (Z.of_nat y) (Z.of_nat x))) labelsSmall then 0 else v)
      row) imageBwIn.

(** An [int] compared with a [size_t] is first converted to [size_t]. *)
Definition toSizeT (n : Z) : Z := n mod 2 ^ 64.

Definition kFracErrorX : Q := fl32 0.10.
Definition kMaxAspectRatio : Q := fl32 1.2.
Definition kNumEdges : Z := 4.

(** The three geometric [continue] tests of the label loop, negated. *)
Definition labelPlausible (bw : cv.Mat Z) (st : CCStats) : bool :=
  let imSize := float_of_int (cv.cols bw * cv.rows bw) in
  let minNumPixels := fmul (fl32 0.01) imSize in
  let maxAreaChart := fmul (fl32 0.4) imSize in
  let centerX := cv.cols bw / 2 in
  let centerY := cv.rows bw / 2 in
  let numPixels := CC_STAT_AREA st in
  let top := CC_STAT_TOP st in
  let left := CC_STAT_LEFT st in
  let width := CC_STAT_WIDTH st in
  let height := CC_STAT_HEIGHT st in
  negb (Qltb (float_of_int numPixels) minNumPixels)
  && negb (Qltb (fmul (fadd 1 kFracErrorX) (float_of_int centerX)) (float_of_int left)
           || (centerY <? top)
           || Qltb (float_of_int (left + width))
                   (fmul (fsub 1 kFracErrorX) (float_of_int centerX))
           || (top + height <? centerY))
  && negb (Qltb maxAreaChart (float_of_int (width * height))).

(** [inRange(labels, label, label, bwLabel)] followed by [findContours]. *)
Definition contoursOfLabel (bw : cv.Mat Z) (labels : Z -> Z -> Z) (label : nat)
  : list Contour :=
  let bwLabel :=
    imap (fun y row =>
      imap (fun x (_ : Z) =>
        if labels (Z.of_nat y) (Z.of_nat x) =? Z.of_nat label then 255 else 0) row) bw in
  findContours bwLabel (fl32 0.08).

(** The label loop from [label] on: the contours of the first label that
    is accepted as the chart, [None] when [isChartFound] stays false. *)
Fixpoint findChart (bw : cv.Mat Z) (labels : Z -> Z -> Z)
    (numSquaresW numSquaresH : Z) (label : nat) (stats : list CCStats)
  : option (list Contour) :=
  match stats with
  | [] => None
  | st :: rest =>
    if labelPlausible bw st then
      let contours := contoursOfLabel bw labels label in
      if toSizeT (numSquaresW * numSquaresH) <=? Z.of_nat (length contours)
      then Some contours
      else findChart bw labels numSquaresW numSquaresH (S label) rest
    else findChart bw labels numSquaresW numSquaresH (S label) rest
  end.

(** [minArea] and [maxArea] of the patch filter:
    [0.01f / 100.0f * imSize] and [0.45f / 100.0f * imSize]. *)
Definition patchMinArea (bw : cv.Mat Z) : Q :=
  fmul (fdiv (fl32 0.01) (fl32 100)) (float_of_int (cv.cols bw * cv.rows bw)).
Definition patchMaxArea (bw : cv.Mat Z) : Q :=
  fmul (fdiv (fl32 0.45) (fl32 100)) (float_of_int (cv.cols bw * cv.rows bw)).

(** One round of the contour loop: [Ok None] for a discarded contour.
    The aspect ratio is a quotient of floats stored in an [int]; with a zero
    divisor the quotient is infinite or NaN and its conversion undefined. *)
Definition patchOfContour (bw : cv.Mat Z) (cont : Contour)
  : result (option ColorPatch) :=
  let minArea := patchMinArea bw in
  let maxArea := patchMaxArea bw in
  let boundingBox := minAreaRect ocv cont in
  let width := truncToInt (size_width boundingBox) in
  let height := truncToInt (size_height boundingBox) in
  let area := truncToInt (moments_m00 ocv cont) in
  if Z.min width height =? 0 then Undefined
  else
    let aspectRatio :=
      truncToInt (fdiv (fmul 1 (float_of_int (Z.max width height)))
                       (fmul 1 (float_of_int (Z.min width height)))) in
    if Qltb (float_of_int area) minArea || Qltb maxArea (float_of_int area)
       || negb (Z.of_nat (length cont) =? kNumEdges)
       || Qltb kMaxAspectRatio (float_of_int aspectRatio)
       || negb (isContourConvex ocv cont)
    then Ok None
    else
      let patchMask :=
        cv.setRect (cv.filled (cv.rows bw) (cv.cols bw) 0) (boundingRect ocv cont) 255 in
      Ok (Some (mkColorPatch (center boundingBox) patchMask zero3)).

Definition patchesOfContours (bw : cv.Mat Z) (contours : list Contour)
  : result (list ColorPatch) :=
  foldlM (fun colorPatchList cont =>
            o ← patchOfContour bw cont;
            Ok (match o with
                | Some colorPatch => colorPatchList ++ [colorPatch]
                | None => colorPatchList
                end))
         contours [].

(** The binary image the labelling runs on. *)
Definition binarize (image : cv.Mat Z) : cv.Mat Z :=
  let imageScaled := scaleSaturate ocv 2 image in
  let imageBlur := GaussianBlur ocv imageScaled in
  let bw := adaptiveThreshold ocv imageBlur in
  let bw := fillGaps bw in
  let bw := removeSmallObjects bw in
  dilateGaps bw.

Definition detectColorChart (image : cv.Mat Z) (numSquaresW numSquaresH : Z)
  : result (list ColorPatch) :=
  let bw := binarize image in
  let '(labels, stats) := connectedComponentsWithStats ocv bw 8 in
  match findChart bw labels numSquaresW numSquaresH 1 (drop 1 stats) with
  | None => Throw "No chart found"
  | Some contours =>
    colorPatchList ← patchesOfContours bw contours;
    if (length colorPatchList =? 0)%nat then Ok colorPatchList
    else
      colorPatchListClean ← removeContourOutliers colorPatchList;
      sortPatches colorPatchListClean numSquaresW (cv.cols image)
  end.

(** Every pixel of the 8-bit image that is neither 0 nor 255 becomes 128. *)
Definition findClampedPixels (image8 : cv.Mat Z) : cv.Mat Z :=
  cv.mapMat (fun pixelVal =>
               if (pixelVal =? 0) || (pixelVal =? 255) then pixelVal else 128)
            image8.

(** White balance is inverse of the RGB slopes (ground truth has slope = 1) *)
Definition computeWhiteBalanceGains (colorResponse : ColorResponse) : cv.Vec3f :=
  cv.divide3 (cv.mkVec3f 1 1 1) (rgbSlope colorResponse).

End Calibration.

End color_calibration.

(** * Vocabulary of the statements *)

(** [row[0]] of a chart row. *)
Definition firstComponent (row : list Z) : Z := default 0 (head row).

(** The reflectance of a gray value: [float(gray) / 255.0f]. *)
Definition reflectance (gray : Z) : Q := (inject_Z gray / 255)%Q.

(** [m] has rank [n / 2] in a bucket of [n] values: some arrangement of the
    bucket has [n / 2] values not above [m] before it and only values not
    below [m] after it. *)
Definition rankMedian (bucket : list Q) (m : Q) : Prop :=
  exists lo hi,
    bucket ≡ₚ lo ++ m :: hi
    /\ length lo = (length bucket / 2)%nat
    /\ Forall (fun x => (x <= m)%Q) lo
    /\ Forall (fun x => (m <= x)%Q) hi.

Definition Qsum (l : list Q) : Q := foldr Qplus 0%Q l.

(** Row [i] of the chart as a colour, [0] where the table has no entry. *)
Definition chartVec (table : list (list Z)) (i : nat) : cv.Vec3f :=
  let row := default [] (table !! i) in
  cv.mkVec3f (inject_Z (default 0 (row !! 0%nat)))
             (inject_Z (default 0 (row !! 1%nat)))
             (inject_Z (default 0 (row !! 2%nat))).

(** The pixel under a centroid, [0] outside the image. *)
Definition pixelAt (m : cv.Mat cv.Vec3f) (c : cv.Point2f) : cv.Vec3f :=
  match cv.atPoint m (cv.toPoint c) with
  | Ok v => v
  | _ => color_calibration.zero3
  end.



(** The sides of a contour's minimum-area rectangle and the contour's
    area, as the [int]s the patch filter stores them in. *)
Definition boxWidth (ocv : OpenCV) (cont : Contour) : Z :=
  truncToInt (size_width (minAreaRect ocv cont)).
Definition boxHeight (ocv : OpenCV) (cont : Contour) : Z :=
  truncToInt (size_height (minAreaRect ocv cont)).
Definition momentArea (ocv : OpenCV) (cont : Contour) : Z :=
  truncToInt (moments_m00 ocv cont).

(** [m.at(y, x)] as a partial map. *)
Definition pixel {A} (m : cv.Mat A) (y x : nat) : option A :=
  row ← m !! y; row !! x.

(** * Fixtures for concrete runs *)

(** A square root on [Q] that is exact on squares of rationals and rounds
    down to a multiple of the argument's denominator otherwise. *)
Definition Qsqrt (q : Q) : Q := Z.sqrt (Qnum q * Zpos (Qden q)) # Qden q.

(** A chart with the shape the header gives the table: 24 rows of three
    integers in 0..255, the last six rows a gray ramp from brightest to
    darkest. *)
Definition sampleChart : list (list Z) :=
  [ [115; 82; 68]; [194; 150; 130]; [98; 122; 157]; [87; 108; 67];
    [133; 128; 177]; [103; 189; 170]; [214; 126; 44]; [80; 91; 166];
    [193; 90; 99]; [94; 60; 108]; [157; 188; 64]; [224; 163; 46];
    [56; 61; 150]; [70; 148; 73]; [175; 54; 60]; [231; 199; 31];
    [187; 86; 149]; [8; 133; 161]; [243; 243; 242]; [204; 204; 204];
    [160; 160; 160]; [122; 122; 121]; [51; 51; 51]; [26; 26; 26] ].

(** A 2x2 mosaic: red at even row and even column, blue at odd row and odd
    column, green elsewhere; the raw image is normalised by 65535 and the
    clamp stage is the identity. *)
Definition sampleIsp : CameraIsp := {|
  redPixel := fun r c => Z.even r && Z.even c;
  greenPixel := fun r c => negb (Z.eqb (r mod 2) (c mod 2));
  loadedRawImage := cv.mapMat (fun v => (inject_Z v / 65535)%Q);
  ispClampAndStretch := fun _ _ _ raw => raw
|}.

(** A demosaiced strip of five gray pixels, brightest first, and one patch
    per pixel. *)
Definition grayRampValues : list Q := [0.75; 0.6; 0.5; 0.25; 0.1]%Q.

Definition grayRampImage : Image :=
  Rgb [map (fun v => cv.mkVec3f v v v) grayRampValues].

Definition onePixelMask (ncols j : nat) : cv.Mat Z :=
  [map (fun c => if (c =? j)%nat then 255 else 0) (seq 0 ncols)].

Definition patchAt (j : nat) (median : cv.Vec3f) : color_calibration.ColorPatch :=
  color_calibration.mkColorPatch (cv.mkPoint2f (inject_Z (Z.of_nat j)) 0)
                                 (onePixelMask 5 j) median.

Definition grayRampPatches : list color_calibration.ColorPatch :=
  imap (fun j (_ : Q) => patchAt j color_calibration.zero3) grayRampValues.

Definition grayRampMeasured : list color_calibration.ColorPatch :=
  imap (fun j v => patchAt j (cv.mkVec3f v v v)) grayRampValues.

(** The line y = 2 x + 0.5 on every channel. *)
Definition steepResponse : color_calibration.ColorResponse :=
  color_calibration.mkColorResponse
    (cv.mkVec3f 2 2 2) (cv.mkVec3f 0.5 0.5 0.5)
    color_calibration.zero3 color_calibration.zero3.

(** Two buffers holding the same one-pixel image, and the patch measured
    on that pixel. *)
Definition twoEqualImages : gmap nat (cv.Mat cv.Vec3f) :=
  <[1%nat := [[cv.mkVec3f 0.4 0.3 0.2]]]> {[0%nat := [[cv.mkVec3f 0.4 0.3 0.2]]]}.

Definition measuredPatch : color_calibration.ColorPatch :=
  color_calibration.mkColorPatch (cv.mkPoint2f 0 0) [[255]] (cv.mkVec3f 0.4 0.3 0.2).

(** The upright box around the points of a contour. *)
Definition boxOf (c : Contour) : cv.Rect :=
  match c with
  | [] => cv.mkRect 0 0 0 0
  | p :: _ =>
    let x0 := foldr Z.min (cv.xi p) (map cv.xi c) in
    let x1 := foldr Z.max (cv.xi p) (map cv.xi c) in
    let y0 := foldr Z.min (cv.yi p) (map cv.yi c) in
    let y1 := foldr Z.max (cv.yi p) (map cv.yi c) in
    cv.mkRect x0 y0 (x1 - x0 + 1) (y1 - y0 + 1)
  end.

Definition boxCenter (c : Contour) : cv.Point2f :=
  cv.mkPoint2f (inject_Z (2 * cv.rx (boxOf c) + cv.rwidth (boxOf c) - 1) / 2)
               (inject_Z (2 * cv.ry (boxOf c) + cv.rheight (boxOf c) - 1) / 2).

(** A stand-in for OpenCV that keeps images as they are, reports the given
    contours and component statistics whatever the image, finds every
    histogram bin empty and treats a contour as the upright box around its
    points. *)
Definition boxOcv (contours : list Contour) (stats : list CCStats) : OpenCV := {|
  scaleSaturate := fun _ m => m;
  GaussianBlur := fun m => m;
  adaptiveThreshold := fun m => m;
  morphologyClose := fun m _ _ => m;
  dilate := fun m _ _ => m;
  connectedComponentsWithStats := fun _ _ => (fun _ _ => 1, stats);
  cvFindContours := fun _ => contours;
  arcLength := fun _ => 0%Q;
  approxPolyDP := fun c _ => c;
  contourArea := fun c => inject_Z (cv.rwidth (boxOf c) * cv.rheight (boxOf c));
  minEnclosingCircle := fun c =>
    (boxCenter c,
     (0.71 * inject_Z (Z.max (cv.rwidth (boxOf c)) (cv.rheight (boxOf c))))%Q);
  drawContourFilled := fun canvas cs i =>
    match cs !! i with
    | Some c => cv.setRect canvas (boxOf c) 255
    | None => canvas
    end;
  minAreaRect := fun c =>
    mkRotatedRect (boxCenter c) (inject_Z (cv.rwidth (boxOf c)))
                  (inject_Z (cv.rheight (boxOf c)));
  moments_m00 := fun c => inject_Z (cv.rwidth (boxOf c) * cv.rheight (boxOf c));
  isContourConvex := fun _ => true;
  boundingRect := boxOf;
  calcHist := fun _ _ _ _ _ => 0%Q
|}.

(** A twelve-vertex blob inside the 8x8 block whose corner is (x0, y0). *)
Definition blobAt (x0 y0 : Z) : Contour :=
  map (fun '(dx, dy) => cv.mkPoint (x0 + dx) (y0 + dy))
      [(2, 0); (5, 0); (6, 1); (7, 2); (7, 5); (6, 6);
       (5, 7); (2, 7); (1, 6); (0, 5); (0, 2); (1, 1)].

(** A 16-bit raw frame of 8 rows and 16 columns: the left half reads 1000,
    the right half 200. *)
Definition twoBlobFrame : cv.Mat Z :=
  replicate 8 (replicate 8 1000 ++ replicate 8 200).


Definition twoBlobOcv : OpenCV := boxOcv [blobAt 0 0; blobAt 8 0] [].

(** The medians of the two blobs on the normalised frame. *)
Definition twoBlobMedians : list cv.Vec3f :=
  [cv.mkVec3f (1000 # 65535) (1000 # 65535) (1000 # 65535);
   cv.mkVec3f (200 # 65535) (200 # 65535) (200 # 65535)].

(** A 16-bit frame of 8 rows and 24 columns in three blocks that read
    1000, 200 and 200, with a blob in each. *)
Definition threeBlobFrame : cv.Mat Z :=
  replicate 8 (replicate 8 1000 ++ replicate 8 200 ++ replicate 8 200).

Definition threeBlobOcv : OpenCV := boxOcv [blobAt 0 0; blobAt 8 0; blobAt 16 0] [].

Definition threeBlobMedians : list cv.Vec3f :=
  [cv.mkVec3f (1000 # 65535) (1000 # 65535) (1000 # 65535);
   cv.mkVec3f (200 # 65535) (200 # 65535) (200 # 65535);
   cv.mkVec3f (200 # 65535) (200 # 65535) (200 # 65535)].

(** Four patches on a line, at x = 0, 1, 2 and 4. *)
Definition linePatches : list color_calibration.ColorPatch :=
  [patchAt 0 color_calibration.zero3; patchAt 1 color_calibration.zero3;
   patchAt 2 color_calibration.zero3; patchAt 4 color_calibration.zero3].

(** A 40x40 scene: one component around the image centre, in which OpenCV
    finds three 2x2 squares and one triangle. *)
Definition chartImage : cv.Mat Z := cv.filled 40 40 0.

Definition squareAt (x0 y0 : Z) : Contour :=
  [cv.mkPoint x0 y0; cv.mkPoint (x0 + 1) y0;
   cv.mkPoint (x0 + 1) (y0 + 1); cv.mkPoint x0 (y0 + 1)].

Definition triangleAt (x0 y0 : Z) : Contour :=
  [cv.mkPoint x0 y0; cv.mkPoint (x0 + 1) y0; cv.mkPoint x0 (y0 + 1)].

Definition chartStats : list CCStats :=
  [mkCCStats 0 0 40 40 1500; mkCCStats 8 8 16 16 100].

Definition threeSquaresOcv : OpenCV :=
  boxOcv [squareAt 10 10; squareAt 20 10; squareAt 10 20; triangleAt 20 20] chartStats.

Definition triangleOcv : OpenCV := boxOcv [triangleAt 20 20] chartStats.

(** An upright rectangle of four vertices, [w] pixels wide and [h] high. *)
Definition rectAt (x0 y0 w h : Z) : Contour :=
  [cv.mkPoint x0 y0; cv.mkPoint (x0 + w - 1) y0;
   cv.mkPoint (x0 + w - 1) (y0 + h - 1); cv.mkPoint x0 (y0 + h - 1)].

(** A dark 100x100 image and a lit 200x200 image. *)
Definition blankImage : cv.Mat Z := cv.filled 100 100 0.
Definition litImage : cv.Mat Z := cv.filled 200 200 255.

(** A 3x3 image with one lit pixel, which OpenCV reports as a component of
    area 1 beside a background of area 8. *)
Definition dotImage : cv.Mat Z := [[0; 0; 0]; [0; 255; 0]; [0; 0; 0]].
Definition dotOcv : OpenCV := boxOcv [] [mkCCStats 0 0 3 3 8; mkCCStats 1 1 1 1 1].

(** A 2x3 rectangle of four vertices. *)
Definition tallRectAt (x0 y0 : Z) : Contour :=
  [cv.mkPoint x0 y0; cv.mkPoint (x0 + 1) y0;
   cv.mkPoint (x0 + 1) (y0 + 2); cv.mkPoint x0 (y0 + 2)].

(** * Properties *)

Import color_calibration.

Lemma Qltb_lt (a b : Q) : Qltb a b = true <-> (a < b)%Q.
Proof.
  unfold Qltb. rewrite negb_true_iff.
  destruct (Qle_bool b a) eqn:E.
  - apply Qle_bool_iff in E. split; [discriminate | intros H; exfalso; lra].
  - split; [intros _ | reflexivity].
    destruct (Qlt_le_dec a b) as [H | H]; [exact H |].
    apply Qle_bool_iff in H. congruence.
Qed.

Lemma Qltb_ge (a b : Q) : Qltb a b = false <-> (b <= a)%Q.
Proof.
  unfold Qltb. rewrite negb_false_iff. apply Qle_bool_iff.
Qed.

(** ** Rounding *)

Lemma cvRound_cases (q : Q) :
  (cvRound q = Qfloor q /\ (q - inject_Z (Qfloor q) <= 1 # 2)%Q
   /\ ((q - inject_Z (Qfloor q) == 1 # 2)%Q -> Z.even (Qfloor q) = true))
  \/ (cvRound q = Qfloor q + 1 /\ (1 # 2 <= q - inject_Z (Qfloor q))%Q
      /\ ((q - inject_Z (Qfloor q) == 1 # 2)%Q -> Z.even (Qfloor q) = false)).
Proof.
  unfold cvRound. cbv zeta.
  destruct (Qltb (q - inject_Z (Qfloor q)) (1 # 2)) eqn:E1.
  - apply Qltb_lt in E1. left. split; [reflexivity |]. split; [lra |].
    intros H. lra.
  - apply Qltb_ge in E1.
    destruct (Qltb (1 # 2) (q - inject_Z (Qfloor q))) eqn:E2.
    + apply Qltb_lt in E2. right. split; [reflexivity |]. split; [lra |].
      intros H. lra.
    + apply Qltb_ge in E2. destruct (Z.even (Qfloor q)) eqn:E3.
      * left. split; [reflexivity |]. split; [lra | reflexivity].
      * right. split; [reflexivity |]. split; [lra | reflexivity].
Qed.

Lemma cvRound_near (q : Q) :
  (q - (1 # 2) <= inject_Z (cvRound q) <= q + (1 # 2))%Q.
Proof.
  pose proof (Qfloor_le q) as Hlo. pose proof (Qlt_floor q) as Hhi.
  rewrite inject_Z_plus in Hhi. change (inject_Z 1) with 1%Q in Hhi.
  destruct (cvRound_cases q) as [(-> & H & _) | (-> & H & _)].
  - split; lra.
  - rewrite inject_Z_plus. change (inject_Z 1) with 1%Q. split; lra.
Qed.

Lemma cvRound_mono (q q' : Q) : (q <= q')%Q -> cvRound q <= cvRound q'.
Proof.
  intros Hle. pose proof (Qfloor_resp_le _ _ Hle) as Hf.
  destruct (cvRound_cases q) as [(-> & Hr & Ht) | (-> & Hr & Ht)];
    destruct (cvRound_cases q') as [(-> & Hr' & Ht') | (-> & Hr' & Ht')];
    try lia.
  destruct (Z.eq_dec (Qfloor q) (Qfloor q')) as [E | E]; [| lia].
  exfalso. rewrite <- E in *.
  assert (H1 : (q - inject_Z (Qfloor q) == 1 # 2)%Q) by lra.
  assert (H2 : (q' - inject_Z (Qfloor q) == 1 # 2)%Q) by lra.
  rewrite (Ht H1) in Ht'. specialize (Ht' H2). discriminate.
Qed.

Lemma cvRound_comp (q q' : Q) : (q == q')%Q -> cvRound q = cvRound q'.
Proof.
  intros H. apply Z.le_antisymm; apply cvRound_mono; lra.
Qed.

Lemma cvRound_inject_Z (n : Z) : cvRound (inject_Z n) = n.
Proof.
  pose proof (cvRound_near (inject_Z n)) as [Hlo Hhi].
  set (m := cvRound (inject_Z n)) in *.
  assert (H1 : (inject_Z (n - 1) < inject_Z m)%Q).
  { unfold Z.sub. rewrite inject_Z_plus, inject_Z_opp.
    change (inject_Z 1) with 1%Q. lra. }
  assert (H2 : (inject_Z m < inject_Z (n + 1))%Q).
  { rewrite inject_Z_plus. change (inject_Z 1) with 1%Q. lra. }
  rewrite <- Zlt_Qlt in H1, H2. lia.
Qed.

Lemma Qpow2_pos (e : Z) : (0 < 2 ^ e)%Q.
Proof. apply Qpower_0_lt. reflexivity. Qed.

Lemma Qpow2_inject (n : Z) : 0 <= n -> (2 ^ n == inject_Z (2 ^ n))%Q.
Proof. intros H. rewrite Zpower_Qpower by exact H. reflexivity. Qed.

Lemma Qpow2_succ (e : Z) : (2 ^ (e + 1) == 2 * 2 ^ e)%Q.
Proof.
  rewrite Qpower_plus by discriminate. change (2 ^ 1)%Q with 2%Q. ring.
Qed.

(** [binade x] is the exponent of the binade of [x]. *)
Lemma binade_spec (x : Q) :
  (0 < x)%Q -> (2 ^ binade x <= x < 2 ^ (binade x + 1))%Q.
Proof.
  intros Hx. unfold binade. cbv zeta.
  rewrite (Qabs_pos x) by lra.
  destruct x as [a b]. cbn [Qnum Qden].
  assert (Ha : 0 < a) by (unfold Qlt in Hx; cbn in Hx; lia).
  rewrite (Z.abs_eq a) by lia.
  set (la := Z.log2 a). set (lb := Z.log2 (Z.pos b)).
  destruct (Z.log2_spec a Ha) as [Ha1 Ha2]. fold la in Ha1, Ha2.
  destruct (Z.log2_spec (Z.pos b) eq_refl) as [Hb1 Hb2]. fold lb in Hb1, Hb2.
  assert (Hla : 0 <= la) by apply Z.log2_nonneg.
  assert (Hlb : 0 <= lb) by apply Z.log2_nonneg.
  rewrite Z.pow_succ_r in Ha2, Hb2 by assumption.
  set (A := inject_Z a). set (B := inject_Z (Z.pos b)).
  set (PA := inject_Z (2 ^ la)). set (PB := inject_Z (2 ^ lb)).
  assert (HPA : (0 < PA)%Q).
  { unfold PA. change 0%Q with (inject_Z 0). rewrite <- Zlt_Qlt. lia. }
  assert (HPB : (0 < PB)%Q).
  { unfold PB. change 0%Q with (inject_Z 0). rewrite <- Zlt_Qlt. lia. }
  assert (HA1 : (PA <= A)%Q) by (unfold PA, A; rewrite <- Zle_Qle; exact Ha1).
  assert (HA2 : (A < 2 * PA)%Q).
  { unfold PA, A. change 2%Q with (inject_Z 2). rewrite <- inject_Z_mult, <- Zlt_Qlt.
    exact Ha2. }
  assert (HB1 : (PB <= B)%Q) by (unfold PB, B; rewrite <- Zle_Qle; exact Hb1).
  assert (HB2 : (B < 2 * PB)%Q).
  { unfold PB, B. change 2%Q with (inject_Z 2). rewrite <- inject_Z_mult, <- Zlt_Qlt.
    exact Hb2. }
  assert (Hx' : (a # b == A / B)%Q) by apply Qmake_Qdiv.
  assert (He0 : (2 ^ (la - lb) == PA / PB)%Q).
  { rewrite Qpower_minus by discriminate.
    rewrite (Qpow2_inject la Hla), (Qpow2_inject lb Hlb). reflexivity. }
  assert (HB : (0 < B)%Q) by lra.
  destruct (Qle_bool (2 ^ (la - lb)) (a # b)) eqn:E.
  - apply Qle_bool_iff in E. split; [exact E |].
    rewrite Qpow2_succ, He0, Hx'.
    apply Qlt_shift_div_r; [exact HB |].
    assert (E2 : (2 * (PA / PB) * B == (2 * PA * B) / PB)%Q) by (field; lra).
    rewrite E2. apply Qlt_shift_div_l; [exact HPB |]. nra.
  - assert (E' : (a # b < 2 ^ (la - lb))%Q).
    { apply Qnot_le_lt. intros H. apply Qle_bool_iff in H. congruence. }
    replace (la - lb - 1 + 1) with (la - lb) by lia.
    split; [| exact E'].
    assert (E2 : (2 ^ (la - lb - 1) == PA / (2 * PB))%Q).
    { assert (E3 : (2 ^ (la - lb) == 2 * 2 ^ (la - lb - 1))%Q).
      { rewrite <- Qpow2_succ. replace (la - lb - 1 + 1) with (la - lb) by lia.
        reflexivity. }
      rewrite He0 in E3.
      assert (E4 : (2 ^ (la - lb - 1) == (2 * 2 ^ (la - lb - 1)) / 2)%Q) by field.
      rewrite E4, <- E3. field. lra. }
    rewrite E2, Hx'.
    apply Qle_shift_div_l; [exact HB |].
    assert (E5 : (PA / (2 * PB) * B == (PA * B) / (2 * PB))%Q) by (field; lra).
    rewrite E5. apply Qle_shift_div_r; [lra |]. nra.
Qed.

Lemma binade_unique (x : Q) (e : Z) :
  (2 ^ e <= x < 2 ^ (e + 1))%Q -> binade x = e.
Proof.
  intros [Hlo Hhi].
  assert (Hx : (0 < x)%Q) by (pose proof (Qpow2_pos e); lra).
  destruct (binade_spec x Hx) as [Blo Bhi].
  assert (H1 : binade x < e + 1).
  { apply (Qpower_lt_compat_l_inv 2); [lra | reflexivity]. }
  assert (H2 : e < binade x + 1).
  { apply (Qpower_lt_compat_l_inv 2); [lra | reflexivity]. }
  lia.
Qed.

Lemma binade_mono (x y : Q) : (0 < x)%Q -> (x <= y)%Q -> binade x <= binade y.
Proof.
  intros Hx Hle.
  destruct (binade_spec x Hx) as [Xlo Xhi].
  destruct (binade_spec y ltac:(lra)) as [Ylo Yhi].
  assert (H : binade x < binade y + 1).
  { apply (Qpower_lt_compat_l_inv 2); [lra | reflexivity]. }
  lia.
Qed.

Lemma binade_comp (x y : Q) : (0 < x)%Q -> (x == y)%Q -> binade x = binade y.
Proof.
  intros Hx E. apply Z.le_antisymm; apply binade_mono; lra.
Qed.

Lemma roundTo_zero (p : Z) (x : Q) : (x == 0)%Q -> (roundTo p x == 0)%Q.
Proof.
  intros E. unfold roundTo. cbv zeta.
  set (ulp := (2 ^ (binade x - (p - 1)))%Q).
  assert (E' : (x / ulp == 0)%Q).
  { rewrite E. unfold Qdiv. ring. }
  rewrite (cvRound_comp _ _ E'). change (cvRound 0) with 0. ring.
Qed.

(** The significand of a positive [x] lies between [2^(p-1)] and [2^p]. *)
Lemma significand_range (p : Z) (x : Q) :
  (0 < x)%Q ->
  (2 ^ (p - 1) <= x / 2 ^ (binade x - (p - 1)) < 2 ^ p)%Q.
Proof.
  intros Hx. destruct (binade_spec x Hx) as [Hlo Hhi].
  set (e := binade x) in *.
  pose proof (Qpow2_pos (e - (p - 1))) as Hu.
  assert (E1 : (2 ^ e == 2 ^ (p - 1) * 2 ^ (e - (p - 1)))%Q).
  { rewrite <- Qpower_plus by discriminate.
    replace (p - 1 + (e - (p - 1))) with e by lia. reflexivity. }
  assert (E2 : (2 ^ (e + 1) == 2 ^ p * 2 ^ (e - (p - 1)))%Q).
  { rewrite <- Qpower_plus by discriminate.
    replace (p + (e - (p - 1))) with (e + 1) by lia. reflexivity. }
  split.
  - apply Qle_shift_div_l; [exact Hu |]. rewrite <- E1. exact Hlo.
  - apply Qlt_shift_div_r; [exact Hu |]. rewrite <- E2. exact Hhi.
Qed.

Lemma roundTo_range (p : Z) (x : Q) :
  1 <= p -> (0 < x)%Q ->
  (2 ^ binade x <= roundTo p x <= 2 ^ (binade x + 1))%Q.
Proof.
  intros Hp Hx. destruct (significand_range p x Hx) as [Hlo Hhi].
  unfold roundTo. cbv zeta.
  set (e := binade x) in *. set (ulp := (2 ^ (e - (p - 1)))%Q) in *.
  pose proof (Qpow2_pos (e - (p - 1))) as Hu. fold ulp in Hu.
  assert (E1 : (2 ^ e == 2 ^ (p - 1) * ulp)%Q).
  { unfold ulp. rewrite <- Qpower_plus by discriminate.
    replace (p - 1 + (e - (p - 1))) with e by lia. reflexivity. }
  assert (E2 : (2 ^ (e + 1) == 2 ^ p * ulp)%Q).
  { unfold ulp. rewrite <- Qpower_plus by discriminate.
    replace (p + (e - (p - 1))) with (e + 1) by lia. reflexivity. }
  rewrite (Qpow2_inject (p - 1)) in Hlo, E1 by lia.
  rewrite (Qpow2_inject p) in Hhi, E2 by lia.
  assert (H1 : 2 ^ (p - 1) <= cvRound (x / ulp)).
  { rewrite <- (cvRound_inject_Z (2 ^ (p - 1))). apply cvRound_mono, Hlo. }
  assert (H2 : cvRound (x / ulp) <= 2 ^ p).
  { rewrite <- (cvRound_inject_Z (2 ^ p)). apply cvRound_mono. lra. }
  rewrite Zle_Qle in H1, H2. rewrite E1, E2. split; nra.
Qed.

Lemma roundTo_nonneg (p : Z) (x : Q) : 1 <= p -> (0 <= x)%Q -> (0 <= roundTo p x)%Q.
Proof.
  intros Hp Hx. destruct (Qeq_dec x 0) as [E | E].
  - rewrite (roundTo_zero p x E). lra.
  - destruct (roundTo_range p x Hp) as [H _]; [lra |].
    pose proof (Qpow2_pos (binade x)). lra.
Qed.

(** Rounding is monotone. *)
Lemma roundTo_mono (p : Z) (x y : Q) :
  1 <= p -> (0 <= x)%Q -> (x <= y)%Q -> (roundTo p x <= roundTo p y)%Q.
Proof.
  intros Hp Hx Hle. destruct (Qeq_dec x 0) as [E | E].
  { rewrite (roundTo_zero p x E). apply roundTo_nonneg; [exact Hp | lra]. }
  assert (Hx' : (0 < x)%Q) by lra.
  assert (Hy' : (0 < y)%Q) by lra.
  pose proof (binade_mono x y Hx' Hle) as He.
  destruct (Z.eq_dec (binade x) (binade y)) as [Ee | Ee].
  - unfold roundTo. cbv zeta. rewrite Ee.
    pose proof (Qpow2_pos (binade y - (p - 1))) as Hu.
    set (ulp := (2 ^ (binade y - (p - 1)))%Q) in *.
    assert (H : cvRound (x / ulp) <= cvRound (y / ulp)).
    { apply cvRound_mono. apply Qle_shift_div_l; [exact Hu |].
      assert (E1 : (x / ulp * ulp == x)%Q) by (field; lra). lra. }
    rewrite Zle_Qle in H. nra.
  - destruct (roundTo_range p x Hp Hx') as [_ H1].
    destruct (roundTo_range p y Hp Hy') as [H2 _].
    assert (H3 : (2 ^ (binade x + 1) <= 2 ^ binade y)%Q).
    { apply Qpower_le_compat_l; [lia | lra]. }
    lra.
Qed.

Lemma roundTo_comp (p : Z) (x y : Q) :
  (0 <= x)%Q -> (x == y)%Q -> (roundTo p x == roundTo p y)%Q.
Proof.
  intros Hx E. destruct (Qeq_dec x 0) as [E0 | E0].
  { rewrite (roundTo_zero p x E0), (roundTo_zero p y); [reflexivity | lra]. }
  unfold roundTo. cbv zeta. rewrite <- (binade_comp x y ltac:(lra) E).
  set (ulp := (2 ^ (binade x - (p - 1)))%Q).
  assert (E1 : (x / ulp == y / ulp)%Q) by (rewrite E; reflexivity).
  rewrite (cvRound_comp _ _ E1). reflexivity.
Qed.

(** A value whose significand is an integer is not changed. *)
Lemma roundTo_exact (p : Z) (x : Q) (m : Z) :
  (0 < x)%Q -> (x == inject_Z m * 2 ^ (binade x - (p - 1)))%Q ->
  (roundTo p x == x)%Q.
Proof.
  intros Hx E. unfold roundTo. cbv zeta.
  pose proof (Qpow2_pos (binade x - (p - 1))) as Hu.
  set (ulp := (2 ^ (binade x - (p - 1)))%Q) in *.
  assert (E1 : (x / ulp == inject_Z m)%Q).
  { rewrite E. field. lra. }
  rewrite (cvRound_comp _ _ E1), cvRound_inject_Z. symmetry. exact E.
Qed.

(** Integers of at most [p] bits are represented exactly. *)
Lemma roundTo_inject_Z (p : Z) (n : Z) :
  1 <= p -> 0 <= n < 2 ^ p -> (roundTo p (inject_Z n) == inject_Z n)%Q.
Proof.
  intros Hp [Hn0 Hn]. destruct (Z.eq_dec n 0) as [-> | Hne].
  { apply roundTo_zero. reflexivity. }
  assert (Hx : (0 < inject_Z n)%Q).
  { change 0%Q with (inject_Z 0). rewrite <- Zlt_Qlt. lia. }
  destruct (binade_spec _ Hx) as [Hlo Hhi].
  set (e := binade (inject_Z n)) in *.
  assert (He : e < p).
  { apply (Qpower_lt_compat_l_inv 2); [| reflexivity].
    rewrite (Qpow2_inject p) by lia.
    assert (H : (inject_Z n < inject_Z (2 ^ p))%Q) by (rewrite <- Zlt_Qlt; exact Hn).
    lra. }
  apply (roundTo_exact p _ (n * 2 ^ (p - 1 - e)) Hx). fold e.
  rewrite inject_Z_mult, <- (Qpow2_inject (p - 1 - e)) by lia.
  rewrite <- Qmult_assoc, <- Qpower_plus by discriminate.
  replace (p - 1 - e + (e - (p - 1))) with 0 by lia.
  change (2 ^ 0)%Q with 1%Q. ring.
Qed.

(** The relative error of rounding is at most [2^-p]. *)
Lemma roundTo_upper (p : Z) (x : Q) :
  1 <= p -> (0 <= x)%Q -> (roundTo p x <= x * (1 + 2 ^ (- p)))%Q.
Proof.
  intros Hp Hx. destruct (Qeq_dec x 0) as [E | E].
  { rewrite (roundTo_zero p x E), E. lra. }
  assert (Hx' : (0 < x)%Q) by lra.
  destruct (significand_range p x Hx') as [Hlo _].
  pose proof (cvRound_near (x / 2 ^ (binade x - (p - 1)))) as [_ Hr].
  unfold roundTo. cbv zeta.
  pose proof (Qpow2_pos (binade x - (p - 1))) as Hu.
  set (ulp := (2 ^ (binade x - (p - 1)))%Q) in *.
  set (n := inject_Z (cvRound (x / ulp))) in *.
  assert (E1 : (x / ulp * ulp == x)%Q) by (field; lra).
  assert (E2 : (2 ^ p == 2 * 2 ^ (p - 1))%Q).
  { rewrite <- Qpow2_succ. replace (p - 1 + 1) with p by lia. reflexivity. }
  assert (E3 : (2 ^ (- p) == / 2 ^ p)%Q) by apply Qpower_opp.
  pose proof (Qpow2_pos (p - 1)) as Hp1.
  set (P := (2 ^ (p - 1))%Q) in *.
  rewrite E3, E2.
  assert (H1 : (n * ulp <= x + ulp * (1 # 2))%Q) by nra.
  assert (H2 : (ulp * P <= x)%Q).
  { assert (H : (P * ulp <= x / ulp * ulp)%Q) by nra. lra. }
  assert (H3 : (ulp * (1 # 2) <= x * / (2 * P))%Q).
  { assert (E4 : (x * / (2 * P) == x / (2 * P))%Q) by reflexivity.
    rewrite E4. apply Qle_shift_div_l; [lra |]. nra. }
  lra.
Qed.

Lemma vec_at_of_nat {A} (v : list A) (i : nat) (a : A) :
  v !! i = Some a -> vec_at v (Z.of_nat i) = Ok a.
Proof.
  intros H. unfold vec_at.
  destruct (Z.ltb_spec (Z.of_nat i) 0) as [Hneg | _]; [lia |].
  rewrite Nat2Z.id, H. reflexivity.
Qed.

(** A loop that only pushes onto its accumulator is a monadic map. *)
Lemma foldlM_push {A B} (f : list B -> A -> result (list B)) (g : A -> result B)
    (l : list A) (acc : list B) :
  (forall acc i, f acc i = (v ← g i; Ok (acc ++ [v]))) ->
  foldlM f l acc = (vs ← mapMr g l; Ok (acc ++ vs)).
Proof.
  intros Hf. revert acc. induction l as [| a l IH]; intros acc; simpl.
  - rewrite app_nil_r. reflexivity.
  - rewrite Hf. destruct (g a) as [b | w | |]; simpl; try reflexivity.
    rewrite IH. destruct (mapMr g l) as [bs | w | |]; simpl; try reflexivity.
    rewrite <- app_assoc. reflexivity.
Qed.

(** Reading a vector from its end. *)
Lemma vec_at_from_end {A} (v : list A) (k : nat) (a : A) :
  reverse v !! k = Some a ->
  vec_at v (Z.of_nat (length v) - 1 - Z.of_nat k) = Ok a.
Proof.
  intros H.
  assert (Hk : (k < length v)%nat).
  { apply lookup_lt_Some in H. rewrite length_reverse in H. exact H. }
  rewrite reverse_lookup in H by exact Hk.
  replace (Z.of_nat (length v) - 1 - Z.of_nat k)
    with (Z.of_nat (length v - S k)) by lia.
  apply vec_at_of_nat. exact H.
Qed.

Lemma gray_of_row (table : list (list Z)) (k : nat) (row : list Z) :
  reverse table !! k = Some row -> row <> [] ->
  (r ← vec_at table (Z.of_nat (length table) - 1 - Z.of_nat k); vec_at r 0)
  = Ok (firstComponent row).
Proof.
  intros H Hne. rewrite (vec_at_from_end _ _ _ H). simpl.
  destruct row as [| v row]; [congruence | reflexivity].
Qed.

(** C1, as the code has it: on a chart of at least six rows (the header's
    has 24) whose rows are not empty, [getMacBethGrays] returns six values,
    the first components of the last six rows, last row first. *)
Theorem getMacBethGrays_last_six_rows (table : list (list Z)) :
  (6 <= length table)%nat ->
  Forall (fun row => row <> []) table ->
  getMacBethGrays table = Ok (map firstComponent (take 6 (reverse table)))
  /\ length (map firstComponent (take 6 (reverse table))) = 6%nat.
Proof.
  intros Hlen Hrows.
  assert (Hrev : Forall (fun row => row <> []) (reverse table)).
  { apply Forall_reverse. exact Hrows. }
  assert (Hlenr : length (reverse table) = length table) by apply length_reverse.
  split.
  - unfold getMacBethGrays.
    rewrite (foldlM_push _ (fun i => r ← vec_at table i; vec_at r 0)).
    2:{ intros acc i. destruct (vec_at table i) as [r | w | |]; reflexivity. }
    unfold downto, kNumGrayPatches.
    replace (Z.to_nat (Z.of_nat (length table) - 1
                       - (Z.of_nat (length table) - 1 - 5) + 1)) with 6%nat by lia.
    destruct (reverse table) as [| r0 [| r1 [| r2 [| r3 [| r4 [| r5 rest]]]]]] eqn:E;
      simpl in Hlenr; try lia.
    repeat match goal with
           | H : Forall _ (_ :: _) |- _ => apply Forall_cons in H; destruct H
           end.
    cbn [seq map mapMr].
    assert (Hk : forall k row, (r0 :: r1 :: r2 :: r3 :: r4 :: r5 :: rest) !! k = Some row ->
                 row <> [] ->
                 (r ← vec_at table (Z.of_nat (length table) - 1 - Z.of_nat k); vec_at r 0)
                 = Ok (firstComponent row)).
    { intros k row Hk Hne. apply gray_of_row; [rewrite E; exact Hk | exact Hne]. }
    rewrite (Hk 0%nat r0), (Hk 1%nat r1), (Hk 2%nat r2), (Hk 3%nat r3),
      (Hk 4%nat r4), (Hk 5%nat r5) by (reflexivity || assumption).
    reflexivity.
  - rewrite length_map, length_take, Hlenr. lia.
Qed.

(** C1 on the sample chart. *)
Lemma getMacBethGrays_last_six_rows_witness :
  getMacBethGrays sampleChart = Ok [26; 51; 122; 160; 204; 243]
  /\ length [26; 51; 122; 160; 204; 243] = 6%nat.
Proof.
  apply (getMacBethGrays_last_six_rows sampleChart).
  - simpl. lia.
  - repeat constructor; discriminate.
Defined.

(** C1 as claimed fails: the loop runs from [iStart] down to
    [iStart - kNumGrayPatches] inclusive, so six values are pushed, not
    five. *)
Lemma getMacBethGrays_not_five_values :
  length sampleChart = 24%nat
  /\ getMacBethGrays sampleChart
     <> Ok (map firstComponent (take 5 (reverse sampleChart)))
  /\ forall grays, getMacBethGrays sampleChart = Ok grays -> length grays <> 5%nat.
Proof.
  split; [reflexivity |]. split.
  - vm_compute. discriminate.
  - intros grays H. vm_compute in H. injection H as <-. simpl. lia.
Qed.

Lemma at3_init3 (f : nat -> Q) (ch : nat) :
  (ch < 3)%nat -> cv.at3 (cv.init3 f) ch = f ch.
Proof.
  intros H. destruct ch as [| [| [| ch]]]; try reflexivity. lia.
Qed.

(** C3: the response returned by [computeRGBResponse] is, channel by
    channel, the line through (xDark, yDark) and (xBright, yBright), where
    x is the reflectance of the gray values 1 and 4 of [getMacBethGrays] and
    y the median just measured on the patches 1 and 4 places before the
    last; its x-domain bounds are where that line meets y = 0 and y = 1.
    For x = 0.2, 0.8 and y = 0.25, 0.75 these are 5/6, 1/12, -0.1 and 1.1. *)
Theorem computeRGBResponse_two_point_fit
    (table : list (list Z)) (isp : CameraIsp) (raw : Image) (isRaw : bool)
    (colorPatches measured : list ColorPatch) (grays : list Z)
    (gDark gBright : Z) (pDark pBright : ColorPatch) :
  computeRGBMedians isp colorPatches raw isRaw = Ok measured ->
  getMacBethGrays table = Ok grays ->
  vec_at grays kDarkIdx = Ok gDark ->
  vec_at grays kBrightIdx = Ok gBright ->
  vec_at measured (Z.of_nat (length measured) - 1 - kDarkIdx) = Ok pDark ->
  vec_at measured (Z.of_nat (length measured) - 1 - kBrightIdx) = Ok pBright ->
  exists r,
    computeRGBResponse table isp raw isRaw colorPatches = Ok (measured, r)
    /\ forall ch, (ch < 3)%nat ->
       let xDark := reflectance gDark in
       let xBright := reflectance gBright in
       let yDark := cv.at3 (rgbMedian pDark) ch in
       let yBright := cv.at3 (rgbMedian pBright) ch in
       let slope := cv.at3 (rgbSlope r) ch in
       let interceptY := cv.at3 (rgbInterceptY r) ch in
       (slope = (yBright - yDark) / (xBright - xDark)
        /\ interceptY = - slope * xDark + yDark
        /\ cv.at3 (rgbInterceptXMin r) ch = - interceptY / slope
        /\ cv.at3 (rgbInterceptXMax r) ch = (1 - interceptY) / slope)%Q
       /\ (xDark == 0.2 -> yDark == 0.25 -> xBright == 0.8 -> yBright == 0.75 ->
           slope == 5 # 6 /\ interceptY == 1 # 12
           /\ cv.at3 (rgbInterceptXMin r) ch == -0.1
           /\ cv.at3 (rgbInterceptXMax r) ch == 1.1)%Q.
Proof.
  intros Hmed Hgrays HgD HgB HpD HpB.
  eexists. split.
  - unfold computeRGBResponse. rewrite Hmed. cbn [mbind result_bind].
    rewrite Hgrays. cbn [mbind result_bind].
    rewrite HgD. cbn [mbind result_bind]. rewrite HgB. cbn [mbind result_bind].
    rewrite HpD. cbn [mbind result_bind]. rewrite HpB. cbn [mbind result_bind].
    reflexivity.
  - intros ch Hch. cbn zeta. cbn [rgbSlope rgbInterceptY rgbInterceptXMin rgbInterceptXMax].
    rewrite !at3_init3 by exact Hch. fold (reflectance gDark) (reflectance gBright).
    split; [repeat split |].
    intros HxD HyD HxB HyB. rewrite HxD, HyD, HxB, HyB.
    repeat split; reflexivity.
Qed.

(** C3 on the gray strip: the dark point is (0.2, 0.25), the bright one
    (0.8, 0.75). *)
Lemma computeRGBResponse_two_point_fit_witness :
  exists r,
    computeRGBResponse sampleChart sampleIsp grayRampImage false grayRampPatches
    = Ok (grayRampMeasured, r)
    /\ forall ch, (ch < 3)%nat ->
       (cv.at3 (rgbSlope r) ch == 5 # 6
        /\ cv.at3 (rgbInterceptY r) ch == 1 # 12
        /\ cv.at3 (rgbInterceptXMin r) ch == -0.1
        /\ cv.at3 (rgbInterceptXMax r) ch == 1.1)%Q.
Proof.
  destruct (computeRGBResponse_two_point_fit
              sampleChart sampleIsp grayRampImage false
              grayRampPatches grayRampMeasured [26; 51; 122; 160; 204; 243]
              51 204
              (patchAt 3 (cv.mkVec3f 0.25 0.25 0.25))
              (patchAt 0 (cv.mkVec3f 0.75 0.75 0.75)))
    as [r [Hr Hch]]; try reflexivity.
  exists r. split; [exact Hr |].
  intros ch H. destruct (Hch ch H) as [_ Hpart].
  destruct ch as [| [| [| ch]]]; try lia; apply Hpart; reflexivity.
Defined.

Lemma fmaxf_Qmax (a b : Q) : (fmaxf a b == Qmax a b)%Q.
Proof.
  unfold fmaxf. destruct (Qltb a b) eqn:E.
  - apply Qltb_lt in E. rewrite Q.max_r; [reflexivity | lra].
  - apply Qltb_ge in E. rewrite Q.max_l; [reflexivity | exact E].
Qed.

Lemma fminf_Qmin (a b : Q) : (fminf a b == Qmin a b)%Q.
Proof.
  unfold fminf. destruct (Qltb b a) eqn:E.
  - apply Qltb_lt in E. rewrite Q.min_r; [reflexivity | lra].
  - apply Qltb_ge in E. rewrite Q.min_l; [reflexivity | exact E].
Qed.

Lemma at3_init3_any (f : nat -> Q) (ch : nat) :
  cv.at3 (cv.init3 f) ch = f (Nat.min ch 2).
Proof.
  destruct ch as [| [| [| ch]]]; reflexivity.
Qed.

(** C7, as the code has it: both thresholds are read from component 0 of
    the incoming clamp vectors and mapped through each channel's line; the
    lower bound is then only raised to 0 and the upper bound only lowered
    to 1, and these are the vectors handed to the ISP's clamp stage. *)
Theorem clampAndStretch_bounds
    (isp : CameraIsp) (rawRef raw : Image) (colorResponse : ColorResponse)
    (rgbClampMin rgbClampMax : cv.Vec3f) :
  let xMin := cv.c0 rgbClampMin in
  let xMax := cv.c0 rgbClampMax in
  let line ch x :=
    (cv.at3 (rgbSlope colorResponse) ch * x
     + cv.at3 (rgbInterceptY colorResponse) ch)%Q in
  exists clampMin clampMax,
    clampAndStretch isp rawRef raw colorResponse rgbClampMin rgbClampMax
    = (ispClampAndStretch isp clampMin clampMax rawRef raw, clampMin, clampMax)
    /\ forall ch : nat,
        (cv.at3 clampMin ch == Qmax 0 (line ch xMin)
         /\ cv.at3 clampMax ch == Qmin 1 (line ch xMax)
         /\ 0 <= cv.at3 clampMin ch
         /\ cv.at3 clampMax ch <= 1)%Q.
Proof.
  cbn zeta. eexists. eexists. split; [reflexivity |].
  intros ch. rewrite !at3_init3_any.
  assert (Hmin : forall v : cv.Vec3f, cv.at3 v (Nat.min ch 2) = cv.at3 v ch).
  { intros v. destruct ch as [| [| [| ch]]]; reflexivity. }
  assert (Hline : forall (m b : cv.Vec3f) (s : Q),
             cv.at3 (cv.add3 (cv.scale3 m s) b) ch = (cv.at3 m ch * s + cv.at3 b ch)%Q).
  { intros m b s. destruct ch as [| [| [| ch]]]; reflexivity. }
  rewrite !Hmin, !Hline. cbn [cv.at3].
  rewrite fmaxf_Qmax, fminf_Qmin.
  repeat split; try reflexivity.
  - apply Q.le_max_l.
  - apply Q.le_min_l.
Qed.

(** C7 as claimed fails: a lower bound above 1 is not brought back into
    [0, 1] (here the line 2 x + 0.5 at x = 0.3 gives 1.1), and an upper
    bound below 0 is not either (the line at x = -0.5 gives -0.5). *)
Lemma clampAndStretch_not_clipped_to_unit_interval :
  (cv.at3 (snd (fst (clampAndStretch sampleIsp grayRampImage grayRampImage
                       steepResponse (cv.mkVec3f 0.3 0.3 0.3)
                       (cv.mkVec3f (-0.5) (-0.5) (-0.5))))) 0 == 1.1
   /\ ~ cv.at3 (snd (fst (clampAndStretch sampleIsp grayRampImage grayRampImage
                       steepResponse (cv.mkVec3f 0.3 0.3 0.3)
                       (cv.mkVec3f (-0.5) (-0.5) (-0.5))))) 0 <= 1
   /\ cv.at3 (snd (clampAndStretch sampleIsp grayRampImage grayRampImage
                       steepResponse (cv.mkVec3f 0.3 0.3 0.3)
                       (cv.mkVec3f (-0.5) (-0.5) (-0.5)))) 0 == -0.5
   /\ ~ 0 <= cv.at3 (snd (clampAndStretch sampleIsp grayRampImage grayRampImage
                       steepResponse (cv.mkVec3f 0.3 0.3 0.3)
                       (cv.mkVec3f (-0.5) (-0.5) (-0.5)))) 0)%Q.
Proof.
  repeat split; try reflexivity; intros H; vm_compute in H; apply H; reflexivity.
Qed.

Lemma scaleInPlace_Ok (s : Q) (im : nat) (σ σ' : Store) :
  scaleInPlace s im σ = Ok σ' ->
  exists m, σ !! im = Some m /\ σ' = <[im := scaleMat s m]> σ.
Proof.
  unfold scaleInPlace. destruct (σ !! im) as [m |] eqn:E; [| discriminate].
  intros [= <-]. exists m. split; reflexivity.
Qed.

(** The store a returning call leaves behind. *)
Lemma computeColorPatchErrors_store (table : list (list Z)) (sqrtQ : Q -> Q)
    (imBefore imAfter : nat) (colorPatches : list ColorPatch)
    (σ σ' : Store) (errs : cv.Vec4f * cv.Vec4f) :
  computeColorPatchErrors table sqrtQ imBefore imAfter colorPatches σ = Ok (σ', errs) ->
  exists σ1, scaleInPlace kScale imBefore σ = Ok σ1
             /\ scaleInPlace kScale imAfter σ1 = Ok σ'.
Proof.
  unfold computeColorPatchErrors.
  destruct (scaleInPlace kScale imBefore σ) as [σ1 | | |] eqn:E1; try discriminate.
  cbn [mbind result_bind].
  destruct (scaleInPlace kScale imAfter σ1) as [σ2 | | |] eqn:E2; try discriminate.
  cbn [mbind result_bind].
  destruct (readImage imBefore σ2) as [mb | | |]; try discriminate.
  cbn [mbind result_bind].
  destruct (readImage imAfter σ2) as [ma | | |]; try discriminate.
  cbn [mbind result_bind].
  destruct (foldlM _ _ _) as [e | | |]; try discriminate.
  cbn [mbind result_bind]. intros [= <- <-]. exists σ1. split; [reflexivity | exact E2].
Qed.

(** The frame of [computeColorPatchErrors].  The call reads the patch list
    only, and it rewrites the two image buffers in place: every pixel of
    [imBefore] and of [imAfter] is multiplied by 255 (twice when both name
    one buffer); every other buffer is left as it was. *)
Lemma computeColorPatchErrors_scales_images_in_place
    (table : list (list Z)) (sqrtQ : Q -> Q)
    (imBefore imAfter : nat) (colorPatches : list ColorPatch)
    (σ σ' : Store) (errs : cv.Vec4f * cv.Vec4f) :
  computeColorPatchErrors table sqrtQ imBefore imAfter colorPatches σ = Ok (σ', errs) ->
  (forall im, im <> imBefore -> im <> imAfter -> σ' !! im = σ !! im)
  /\ (imBefore <> imAfter ->
      σ' !! imBefore = scaleMat 255 <$> σ !! imBefore
      /\ σ' !! imAfter = scaleMat 255 <$> σ !! imAfter)
  /\ (imBefore = imAfter ->
      σ' !! imBefore = (fun m => scaleMat 255 (scaleMat 255 m)) <$> σ !! imBefore).
Proof.
  intros H. apply computeColorPatchErrors_store in H as (σ1 & H1 & H2).
  apply scaleInPlace_Ok in H1 as (mb & Hb & ->).
  apply scaleInPlace_Ok in H2 as (ma & Ha & ->).
  unfold kScale in *. split; [| split].
  - intros im Hnb Hna. rewrite !lookup_insert_ne by congruence. reflexivity.
  - intros Hne. rewrite lookup_insert_ne in Ha by exact Hne.
    rewrite lookup_insert_eq, Ha.
    rewrite lookup_insert_ne by congruence. rewrite lookup_insert_eq, Hb.
    split; reflexivity.
  - intros <-. rewrite lookup_insert_eq in Ha. injection Ha as <-.
    rewrite lookup_insert_eq, Hb. reflexivity.
Qed.

(** The frame on the two one-pixel images: the other buffers are untouched
    and either image has been scaled. *)
Lemma computeColorPatchErrors_scales_images_in_place_example :
  exists σ' errs,
    computeColorPatchErrors sampleChart Qsqrt 0 1 [measuredPatch] twoEqualImages
    = Ok (σ', errs)
    /\ (forall im, im <> 0%nat -> im <> 1%nat -> σ' !! im = twoEqualImages !! im)
    /\ σ' !! 0%nat = scaleMat 255 <$> twoEqualImages !! 0%nat
    /\ σ' !! 1%nat = scaleMat 255 <$> twoEqualImages !! 1%nat.
Proof.
  destruct (computeColorPatchErrors sampleChart Qsqrt 0 1 [measuredPatch] twoEqualImages)
    as [[σ' errs] | | |] eqn:E; try (vm_compute in E; discriminate).
  exists σ', errs. split; [reflexivity |].
  destruct (computeColorPatchErrors_scales_images_in_place _ _ _ _ _ _ _ _ E)
    as (Hother & Hdistinct & _).
  split; [exact Hother |]. apply Hdistinct. discriminate.
Defined.

(** C9 fails on the code: the two images are taken by const reference,
    yet after the call the pixel (0.4, 0.3, 0.2) of the before image has
    become (102, 76.5, 51): [imBefore *= kScale] rewrites the pixel buffer
    the caller's image shares. *)
Theorem computeColorPatchErrors_not_pure :
  exists σ' errs,
    computeColorPatchErrors sampleChart Qsqrt 0 1 [measuredPatch] twoEqualImages
    = Ok (σ', errs)
    /\ twoEqualImages !! 0%nat = Some [[cv.mkVec3f 0.4 0.3 0.2]]
    /\ σ' !! 0%nat = Some [[cv.mkVec3f (0.4 * 255) (0.3 * 255) (0.2 * 255)]]
    /\ σ' !! 0%nat <> twoEqualImages !! 0%nat.
Proof.
  destruct (computeColorPatchErrors sampleChart Qsqrt 0 1 [measuredPatch] twoEqualImages)
    as [[σ' errs] | | |] eqn:E; try (vm_compute in E; discriminate).
  exists σ', errs. split; [reflexivity |].
  vm_compute in E. injection E as <- _.
  repeat split. intros H. vm_compute in H. discriminate.
Qed.

(** C4 fails on the code: with the same one-pixel image in both buffers the
    after error is measured on the image, scaled to 8 bits, while the before
    error is measured on the patch's stored median, which is neither read
    from the before image nor scaled. *)
Theorem computeColorPatchErrors_identical_images_unequal_errors :
  twoEqualImages !! 0%nat = twoEqualImages !! 1%nat
  /\ exists σ' errBefore errAfter,
      computeColorPatchErrors sampleChart Qsqrt 0 1 [measuredPatch] twoEqualImages
      = Ok (σ', (errBefore, errAfter))
      /\ (cv.at4 errBefore 1 == 114.6)%Q
      /\ (cv.at4 errAfter 1 == 13)%Q
      /\ errBefore <> errAfter.
Proof.
  split; [reflexivity |].
  destruct (computeColorPatchErrors sampleChart Qsqrt 0 1 [measuredPatch] twoEqualImages)
    as [[σ' [errBefore errAfter]] | | |] eqn:E; try (vm_compute in E; discriminate).
  exists σ', errBefore, errAfter. split; [reflexivity |].
  vm_compute in E. injection E as _ <- <-.
  repeat split. intros H. discriminate H.
Qed.

Lemma medianOfChannel_cases (RGBs : list (list Q)) (ch : nat) :
  (exists m, medianOfChannel RGBs ch = Ok m) \/ medianOfChannel RGBs ch = Undefined.
Proof.
  unfold medianOfChannel, vec_at.
  destruct (Z.of_nat ch <? 0); [right; reflexivity |].
  destruct (RGBs !! Z.to_nat (Z.of_nat ch)) as [bucket |]; [| right; reflexivity].
  cbn [mbind result_bind].
  destruct (Z.of_nat (length bucket) / 2 <? 0); [right; reflexivity |].
  destruct (nth_element bucket !! _) as [m |]; [left; eauto | right; reflexivity].
Qed.

Lemma medianOfChannel_empty (RGBs : list (list Q)) (ch : nat) :
  RGBs !! ch = Some [] -> medianOfChannel RGBs ch = Undefined.
Proof.
  intros H. unfold medianOfChannel. rewrite (vec_at_of_nat _ _ _ H). reflexivity.
Qed.

(** C5 fails on the code: when the masked pixels leave the bucket of some
    channel empty, [getRgbMedianMask] raises nothing; it reads element 0 of
    the empty bucket, which has no defined result. *)
Theorem getRgbMedianMask_empty_bucket_undefined
    (isp : CameraIsp) (image : Image) (mask : cv.Mat Z) (isRaw : bool)
    (RGBs : list (list Q)) (ch : nat) :
  collectChannels isp image mask isRaw = Ok RGBs ->
  (ch < 3)%nat ->
  RGBs !! ch = Some [] ->
  getRgbMedianMask isp image mask isRaw = Undefined
  /\ forall what, getRgbMedianMask isp image mask isRaw <> Throw what.
Proof.
  intros Hc Hch Hempty.
  assert (H : getRgbMedianMask isp image mask isRaw = Undefined).
  { unfold getRgbMedianMask. rewrite Hc. cbn [mbind result_bind].
    pose proof (medianOfChannel_empty _ _ Hempty) as He.
    destruct (medianOfChannel_cases RGBs 0) as [[m0 H0] | H0];
      [| rewrite H0; reflexivity].
    destruct (medianOfChannel_cases RGBs 1) as [[m1 H1] | H1];
      [| rewrite H0, H1; reflexivity].
    destruct (medianOfChannel_cases RGBs 2) as [[m2 H2] | H2];
      [| rewrite H0, H1, H2; reflexivity].
    destruct ch as [| [| [| ch]]]; try lia; congruence. }
  split; [exact H |]. intros what. rewrite H. discriminate.
Qed.

(** C5 on a raw frame: a mask of one red pixel leaves the green and blue
    buckets empty. *)
Lemma getRgbMedianMask_empty_bucket_undefined_witness :
  getRgbMedianMask sampleIsp (Gray [[0.5%Q]]) [[255]] true = Undefined
  /\ forall what, getRgbMedianMask sampleIsp (Gray [[0.5%Q]]) [[255]] true <> Throw what.
Proof.
  apply (getRgbMedianMask_empty_bucket_undefined
           sampleIsp (Gray [[0.5%Q]]) [[255]] true [[0.5%Q]; []; []] 1).
  - reflexivity.
  - lia.
  - reflexivity.
Defined.

Lemma vec_set_Ok {A} (v : list A) (i : nat) (a : A) :
  (i < length v)%nat -> vec_set v i a = Ok (<[i := a]> v).
Proof.
  intros H. unfold vec_set.
  destruct (Nat.ltb_spec i (length v)); [reflexivity | lia].
Qed.

Lemma blackLevelStep_Ok
    (isp : CameraIsp) (ocv : OpenCV) (sqrtQ : Q -> Q) (raw16 : cv.Mat Z)
    (contoursFiltered : list Contour) (blackLevels : list cv.Vec3f)
    (minNorm : Q) (minNormIdx i : nat) (m : cv.Vec3f) :
  blackLevelOfContour isp ocv raw16 contoursFiltered i = Ok m ->
  (i < length blackLevels)%nat ->
  blackLevelStep isp ocv sqrtQ raw16 contoursFiltered
                 (blackLevels, minNorm, minNormIdx) i
  = Ok (if Qltb (norm3 sqrtQ m) minNorm
        then (<[i := m]> blackLevels, norm3 sqrtQ m, i)
        else (<[i := m]> blackLevels, minNorm, minNormIdx)).
Proof.
  intros Hm Hi. unfold blackLevelStep. rewrite Hm. cbn [mbind result_bind].
  rewrite vec_set_Ok by exact Hi. cbn [mbind result_bind].
  destruct (Qltb (norm3 sqrtQ m) minNorm); reflexivity.
Qed.

(** The selection loop of [findBlackLevel] run on the contours
    [k .. k + m - 1], whose medians are [f k .. f (k + m - 1)]: it fills
    these slots of [blackLevels], and either no norm was below the incoming
    [minNorm] and the pair (minNorm, minNormIdx) is unchanged, or the pair
    is the least norm and an index in [k .. k + m - 1] that attains it. *)
Lemma selection_loop_invariant
    (isp : CameraIsp) (ocv : OpenCV) (sqrtQ : Q -> Q) (raw16 : cv.Mat Z)
    (contoursFiltered : list Contour) (f : nat -> cv.Vec3f) (m : nat) :
  forall (k : nat) (blackLevels : list cv.Vec3f) (minNorm : Q) (minNormIdx : nat),
    (k + m <= length blackLevels)%nat ->
    (forall i, (k <= i < k + m)%nat ->
               blackLevelOfContour isp ocv raw16 contoursFiltered i = Ok (f i)) ->
    exists blackLevels' minNorm' minNormIdx',
      foldlM (blackLevelStep isp ocv sqrtQ raw16 contoursFiltered) (seq k m)
             (blackLevels, minNorm, minNormIdx)
      = Ok (blackLevels', minNorm', minNormIdx')
      /\ length blackLevels' = length blackLevels
      /\ (forall j, (k <= j < k + m)%nat -> blackLevels' !! j = Some (f j))
      /\ (forall j, (j < k)%nat -> blackLevels' !! j = blackLevels !! j)
      /\ ((minNormIdx' = minNormIdx /\ minNorm' = minNorm
           /\ forall j, (k <= j < k + m)%nat -> (minNorm <= norm3 sqrtQ (f j))%Q)
          \/ ((k <= minNormIdx' < k + m)%nat
              /\ minNorm' = norm3 sqrtQ (f minNormIdx')
              /\ (minNorm' < minNorm)%Q
              /\ forall j, (k <= j < k + m)%nat -> (minNorm' <= norm3 sqrtQ (f j))%Q)).
Proof.
  induction m as [| m IH]; intros k blackLevels minNorm minNormIdx Hlen Hmed.
  - exists blackLevels, minNorm, minNormIdx. cbn [seq foldlM].
    split; [reflexivity |]. split; [reflexivity |].
    split; [intros j Hj; lia |]. split; [reflexivity |].
    left. repeat split. intros j Hj. lia.
  - cbn [seq foldlM].
    rewrite (blackLevelStep_Ok _ _ _ _ _ _ _ _ _ (f k)) by (apply Hmed || idtac; lia).
    cbn [mbind result_bind].
    set (bl1 := <[k := f k]> blackLevels).
    assert (Hlen1 : length bl1 = length blackLevels) by apply length_insert.
    assert (Hk1 : bl1 !! k = Some (f k)) by (apply list_lookup_insert_eq; lia).
    assert (Hmed' : forall i, (S k <= i < S k + m)%nat ->
              blackLevelOfContour isp ocv raw16 contoursFiltered i = Ok (f i)).
    { intros i Hi. apply Hmed. lia. }
    destruct (Qltb (norm3 sqrtQ (f k)) minNorm) eqn:Elt; fold bl1.
    + apply Qltb_lt in Elt.
      destruct (IH (S k) bl1 (norm3 sqrtQ (f k)) k) as
        (bl' & mn' & idx' & Hrun & Hl & Hfill & Hkeep & Hsel); [lia | exact Hmed' |].
      exists bl', mn', idx'. split; [exact Hrun |]. split; [congruence |].
      split; [| split].
      * intros j Hj. destruct (decide (j = k)) as [-> | Hne].
        -- rewrite Hkeep by lia. exact Hk1.
        -- apply Hfill. lia.
      * intros j Hj. rewrite Hkeep by lia.
        apply list_lookup_insert_ne. lia.
      * right. destruct Hsel as [(-> & -> & Hall) | (Hidx & Hmn & Hless & Hall)].
        -- split; [lia |]. split; [reflexivity |]. split; [exact Elt |].
           intros j Hj. destruct (decide (j = k)) as [-> | Hne]; [lra |].
           apply Hall. lia.
        -- split; [lia |]. split; [exact Hmn |]. split; [lra |].
           intros j Hj. destruct (decide (j = k)) as [-> | Hne]; [lra |].
           apply Hall. lia.
    + apply Qltb_ge in Elt.
      destruct (IH (S k) bl1 minNorm minNormIdx) as
        (bl' & mn' & idx' & Hrun & Hl & Hfill & Hkeep & Hsel); [lia | exact Hmed' |].
      exists bl', mn', idx'. split; [exact Hrun |]. split; [congruence |].
      split; [| split].
      * intros j Hj. destruct (decide (j = k)) as [-> | Hne].
        -- rewrite Hkeep by lia. exact Hk1.
        -- apply Hfill. lia.
      * intros j Hj. rewrite Hkeep by lia.
        apply list_lookup_insert_ne. lia.
      * destruct Hsel as [(-> & -> & Hall) | (Hidx & Hmn & Hless & Hall)].
        -- left. repeat split.
           intros j Hj. destruct (decide (j = k)) as [-> | Hne]; [exact Elt |].
           apply Hall. lia.
        -- right. split; [lia |]. split; [exact Hmn |]. split; [exact Hless |].
           intros j Hj. destruct (decide (j = k)) as [-> | Hne]; [lra |].
           apply Hall. lia.
Qed.

(** The whole loop, from its initial state. *)
Lemma selectionLoop_spec
    (isp : CameraIsp) (ocv : OpenCV) (sqrtQ : Q -> Q) (raw16 : cv.Mat Z)
    (contoursFiltered : list Contour) (f : nat -> cv.Vec3f) :
  (forall i, (i < length contoursFiltered)%nat ->
             blackLevelOfContour isp ocv raw16 contoursFiltered i = Ok (f i)) ->
  exists blackLevels minNorm minNormIdx,
    selectionLoop isp ocv sqrtQ raw16 contoursFiltered
    = Ok (blackLevels, minNorm, minNormIdx)
    /\ length blackLevels = length contoursFiltered
    /\ (forall j, (j < length contoursFiltered)%nat -> blackLevels !! j = Some (f j))
    /\ ((minNormIdx = 0%nat
         /\ forall j, (j < length contoursFiltered)%nat ->
                      (DBL_MAX <= norm3 sqrtQ (f j))%Q)
        \/ ((minNormIdx < length contoursFiltered)%nat
            /\ forall j, (j < length contoursFiltered)%nat ->
                 (norm3 sqrtQ (f minNormIdx) <= norm3 sqrtQ (f j))%Q)).
Proof.
  intros Hmed. unfold selectionLoop.
  destruct (selection_loop_invariant isp ocv sqrtQ raw16 contoursFiltered f
              (length contoursFiltered) 0
              (replicate (length contoursFiltered) zero3) DBL_MAX 0)
    as (bl & mn & idx & Hrun & Hl & Hfill & _ & Hsel).
  - rewrite length_replicate. lia.
  - intros i Hi. apply Hmed. lia.
  - exists bl, mn, idx. split; [exact Hrun |].
    rewrite length_replicate in Hl. split; [exact Hl |].
    split; [intros j Hj; apply Hfill; lia |].
    destruct Hsel as [(-> & -> & Hall) | (Hidx & -> & _ & Hall)].
    + left. split; [reflexivity |]. intros j Hj. apply Hall. lia.
    + right. split; [lia |]. intros j Hj. apply Hall. lia.
Qed.

(** [findBlackLevel] after the reading of the frame. *)
Lemma findBlackLevel_read
    (isp : CameraIsp) (ocv : OpenCV) (sqrtQ : Q -> Q) (raw16 : cv.Mat Z) (depth : Depth) :
  findBlackLevel isp ocv sqrtQ raw16 depth
  = if pastBuffer raw16 depth then Undefined
    else st ← selectionLoop isp ocv sqrtQ raw16 (contoursFilteredOf isp ocv raw16 depth);
         let '(blackLevels, _, minNormIdx) := st in
         vec_at blackLevels (Z.of_nat minNormIdx).
Proof.
  unfold findBlackLevel, readSamples.
  destruct (pastBuffer raw16 depth); reflexivity.
Qed.

(** The median of contour [i] when it is defined, for use as the [f] of the
    loop lemmas. *)
Lemma medians_as_function
    (isp : CameraIsp) (ocv : OpenCV) (raw16 : cv.Mat Z) (contoursFiltered : list Contour) :
  (forall i, (i < length contoursFiltered)%nat ->
             exists m, blackLevelOfContour isp ocv raw16 contoursFiltered i = Ok m) ->
  exists f : nat -> cv.Vec3f,
    forall i, (i < length contoursFiltered)%nat ->
              blackLevelOfContour isp ocv raw16 contoursFiltered i = Ok (f i).
Proof.
  intros H.
  exists (fun i => match blackLevelOfContour isp ocv raw16 contoursFiltered i with
                   | Ok m => m
                   | _ => zero3
                   end).
  intros i Hi. destruct (H i Hi) as [m Hm]. rewrite Hm. reflexivity.
Qed.

(** C10: the selection step indexes [blackLevels] with [minNormIdx]
    whatever the number of surviving contours.  With none, the vector is
    empty, the index is 0 and the read has no defined result (nothing is
    thrown); with at least one (and their medians defined) the loop ends
    with as many black levels as contours and an index inside them, and the
    read returns that black level, unless the frame is a non-empty 8-bit
    frame, whose samples the function reads past the pixel buffer. *)
Theorem findBlackLevel_selection_bounds
    (isp : CameraIsp) (ocv : OpenCV) (sqrtQ : Q -> Q)
    (raw16 : cv.Mat Z) (depth : Depth) :
  (contoursFilteredOf isp ocv raw16 depth = [] ->
     selectionLoop isp ocv sqrtQ raw16 (contoursFilteredOf isp ocv raw16 depth)
     = Ok ([], DBL_MAX, 0%nat)
     /\ findBlackLevel isp ocv sqrtQ raw16 depth = Undefined)
  /\ (contoursFilteredOf isp ocv raw16 depth <> [] ->
      (forall i, (i < length (contoursFilteredOf isp ocv raw16 depth))%nat ->
         exists m, blackLevelOfContour isp ocv raw16
                     (contoursFilteredOf isp ocv raw16 depth) i = Ok m) ->
      exists blackLevels minNorm minNormIdx m,
        selectionLoop isp ocv sqrtQ raw16 (contoursFilteredOf isp ocv raw16 depth)
        = Ok (blackLevels, minNorm, minNormIdx)
        /\ length blackLevels = length (contoursFilteredOf isp ocv raw16 depth)
        /\ (minNormIdx < length blackLevels)%nat
        /\ blackLevels !! minNormIdx = Some m
        /\ findBlackLevel isp ocv sqrtQ raw16 depth
           = if pastBuffer raw16 depth then Undefined else Ok m).
Proof.
  split.
  - intros Hnil. rewrite findBlackLevel_read, Hnil.
    split; [reflexivity |]. destruct (pastBuffer raw16 depth); reflexivity.
  - intros Hne Hdef.
    set (cf := contoursFilteredOf isp ocv raw16 depth) in *.
    destruct (medians_as_function isp ocv raw16 cf Hdef) as [f Hf].
    destruct (selectionLoop_spec isp ocv sqrtQ raw16 cf f Hf)
      as (bl & mn & idx & Hrun & Hl & Hfill & Hsel).
    assert (Hpos : (0 < length cf)%nat).
    { destruct cf; [congruence | simpl; lia]. }
    assert (Hidx : (idx < length cf)%nat).
    { destruct Hsel as [(-> & _) | (Hidx & _)]; [exact Hpos | exact Hidx]. }
    exists bl, mn, idx, (f idx).
    split; [exact Hrun |]. split; [exact Hl |]. split; [lia |].
    split; [apply Hfill, Hidx |].
    rewrite findBlackLevel_read. fold cf.
    destruct (pastBuffer raw16 depth); [reflexivity |].
    rewrite Hrun. cbn [mbind result_bind].
    apply vec_at_of_nat, Hfill, Hidx.
Qed.

(** C10 on the two-blob frame: two black levels, and an index inside them. *)
Lemma findBlackLevel_selection_bounds_witness :
  exists blackLevels minNorm minNormIdx m,
    selectionLoop sampleIsp twoBlobOcv Qsqrt twoBlobFrame
                  (contoursFilteredOf sampleIsp twoBlobOcv twoBlobFrame CV_16U)
    = Ok (blackLevels, minNorm, minNormIdx)
    /\ length blackLevels
       = length (contoursFilteredOf sampleIsp twoBlobOcv twoBlobFrame CV_16U)
    /\ (minNormIdx < length blackLevels)%nat
    /\ blackLevels !! minNormIdx = Some m
    /\ findBlackLevel sampleIsp twoBlobOcv Qsqrt twoBlobFrame CV_16U = Ok m.
Proof.
  destruct (findBlackLevel_selection_bounds
              sampleIsp twoBlobOcv Qsqrt twoBlobFrame CV_16U) as [_ H].
  apply H.
  - vm_compute. discriminate.
  - intros i Hi.
    assert (Hn : length (contoursFilteredOf sampleIsp twoBlobOcv twoBlobFrame CV_16U)
                 = 2%nat) by (vm_compute; reflexivity).
    rewrite Hn in Hi.
    destruct i as [| [| i]]; [eexists; vm_compute; reflexivity .. | lia].
Defined.

(** ** Sorting *)

Lemma insert_sorted_perm {A} (lt : A -> A -> bool) (x : A) (l : list A) :
  insert_sorted lt x l ≡ₚ x :: l.
Proof.
  induction l as [| y l IH]; simpl; [reflexivity |].
  destruct (lt y x); [| reflexivity].
  rewrite IH. apply Permutation_swap.
Qed.

Lemma std_sort_perm {A} (lt : A -> A -> bool) (l : list A) : std_sort lt l ≡ₚ l.
Proof.
  induction l as [| x l IH]; simpl; [reflexivity |].
  rewrite insert_sorted_perm, IH. reflexivity.
Qed.

Lemma std_sort_length {A} (lt : A -> A -> bool) (l : list A) :
  length (std_sort lt l) = length l.
Proof. apply Permutation_length, std_sort_perm. Qed.

Lemma insert_sorted_Qle (x : Q) (l : list Q) :
  Sorted Qle l -> Sorted Qle (insert_sorted Qltb x l).
Proof.
  induction l as [| y l IH]; intros Hs; simpl.
  - repeat constructor.
  - destruct (Qltb y x) eqn:E.
    + apply Qltb_lt in E. apply Sorted_inv in Hs as [Hs Hhd].
      constructor; [apply IH, Hs |].
      destruct l as [| z l]; simpl.
      * constructor. lra.
      * destruct (Qltb z x); constructor; [| lra].
        apply HdRel_inv in Hhd. exact Hhd.
    + apply Qltb_ge in E. constructor; [exact Hs |].
      constructor. exact E.
Qed.

Lemma std_sort_Qle (l : list Q) : Sorted Qle (std_sort Qltb l).
Proof.
  induction l as [| x l IH]; simpl; [constructor |].
  apply insert_sorted_Qle, IH.
Qed.

(** ** Outlier rejection *)

Lemma omap_as_filter {A B} (keep : B -> bool) (l : list (A * B)) :
  omap (fun '(p, d) => if keep d then Some p else None) l
  = map fst (List.filter (fun pd => keep (snd pd)) l).
Proof.
  induction l as [| [p d] l IH]; simpl; [reflexivity |].
  destruct (keep d); simpl; [f_equal |]; exact IH.
Qed.

Lemma kept_sublist {A B} (keep : A * B -> bool) (l : list A) (k : list B) :
  map fst (List.filter keep (zip l k)) `sublist_of` l.
Proof.
  revert k. induction l as [| a l IH]; intros k; simpl.
  - constructor.
  - destruct k as [| b k]; simpl; [apply sublist_nil_l |].
    destruct (keep (a, b)); simpl; [apply sublist_skip | apply sublist_cons]; apply IH.
Qed.

(** The inner loop of [removeContourOutliers] from any starting value: the
    result is below the start and below the distance to every patch at
    another index, and it is the start or one of these distances. *)
Lemma min_distance_fold (sqrtQ : Q -> Q) (iPatch : nat) (pi : ColorPatch)
    (others : list (nat * ColorPatch)) (start : Q) :
  let dist (q : ColorPatch) := norm2 sqrtQ (cv.sub2f (centroid pi) (centroid q)) in
  let r :=
    foldl (fun minDistance '(jPatch, pj) =>
             if (iPatch =? jPatch)%nat then minDistance
             else if Qltb (dist pj) minDistance then dist pj else minDistance)
          start others in
  (r <= start)%Q
  /\ (forall j q, (j, q) ∈ others -> j <> iPatch -> (r <= dist q)%Q)
  /\ (r = start \/ exists j q, (j, q) ∈ others /\ j <> iPatch /\ r = dist q).
Proof.
  cbn zeta. revert start.
  induction others as [| [j q] others IH]; intros start; simpl.
  - split; [lra |]. split; [| left; reflexivity].
    intros j q H. apply elem_of_nil in H. destruct H.
  - destruct (Nat.eqb_spec iPatch j) as [-> | Hne].
    + destruct (IH start) as (Hle & Hall & Hatt).
      split; [exact Hle |]. split.
      * intros j' q' Hin Hj'. apply elem_of_cons in Hin as [[= -> ->] | Hin];
          [congruence | apply (Hall j' q' Hin Hj')].
      * destruct Hatt as [-> | (j' & q' & Hin & Hj' & ->)]; [left; reflexivity |].
        right. exists j', q'. split; [apply elem_of_cons; right; exact Hin |].
        split; [exact Hj' | reflexivity].
    + destruct (Qltb _ start) eqn:E.
      * apply Qltb_lt in E.
        destruct (IH (norm2 sqrtQ (cv.sub2f (centroid pi) (centroid q))))
          as (Hle & Hall & Hatt).
        split; [lra |]. split.
        -- intros j' q' Hin Hj'. apply elem_of_cons in Hin as [[= -> ->] | Hin];
             [exact Hle | apply (Hall j' q' Hin Hj')].
        -- right. destruct Hatt as [-> | (j' & q' & Hin & Hj' & ->)].
           ++ exists j, q. split; [apply elem_of_cons; left; reflexivity |].
              split; [congruence | reflexivity].
           ++ exists j', q'. split; [apply elem_of_cons; right; exact Hin |].
              split; [exact Hj' | reflexivity].
      * apply Qltb_ge in E.
        destruct (IH start) as (Hle & Hall & Hatt).
        split; [exact Hle |]. split.
        -- intros j' q' Hin Hj'. apply elem_of_cons in Hin as [[= -> ->] | Hin];
             [lra | apply (Hall j' q' Hin Hj')].
        -- destruct Hatt as [-> | (j' & q' & Hin & Hj' & ->)]; [left; reflexivity |].
           right. exists j', q'. split; [apply elem_of_cons; right; exact Hin |].
           split; [exact Hj' | reflexivity].
Qed.

(** C6, as the code has it.  On a non-empty patch list the call returns,
    in their original order, the patches whose minimum distance is strictly
    below twice the median; a patch whose minimum distance equals or exceeds
    that threshold is dropped.  The minimum distance of a patch is the least
    distance from its centroid to the centroid at any other index
    ([FLT_MAX] when there is none), and the median is the element of rank
    [n / 2] among the [n] minimum distances in ascending order. *)
Theorem removeContourOutliers_strict_threshold
    (sqrtQ : Q -> Q) (colorPatchList : list ColorPatch) :
  colorPatchList <> [] ->
  let minDistances := minDistancesOf sqrtQ colorPatchList in
  let dist (p q : ColorPatch) := norm2 sqrtQ (cv.sub2f (centroid p) (centroid q)) in
  exists sorted median,
    sorted ≡ₚ minDistances
    /\ Sorted Qle sorted
    /\ sorted !! (length colorPatchList / 2)%nat = Some median
    /\ removeContourOutliers sqrtQ colorPatchList
       = Ok (map fst (List.filter (fun pd => Qltb (snd pd) (2 * median))
                                  (zip colorPatchList minDistances)))
    /\ map fst (List.filter (fun pd => Qltb (snd pd) (2 * median))
                            (zip colorPatchList minDistances))
       `sublist_of` colorPatchList
    /\ (forall d, (Qltb d (2 * median) = true <-> (d < 2 * median)%Q)
                  /\ (Qltb d (2 * median) = false <-> (2 * median <= d)%Q))
    /\ forall i p,
         colorPatchList !! i = Some p ->
         exists d,
           minDistances !! i = Some d
           /\ (d <= FLT_MAX)%Q
           /\ (forall j q, colorPatchList !! j = Some q -> j <> i -> (d <= dist p q)%Q)
           /\ (d = FLT_MAX
               \/ exists j q, colorPatchList !! j = Some q /\ j <> i /\ d = dist p q).
Proof.
  intros Hne. cbn zeta.
  set (minDistances := minDistancesOf sqrtQ colorPatchList).
  set (sorted := std_sort Qltb minDistances).
  assert (Hlen : length sorted = length colorPatchList).
  { unfold sorted, minDistances, minDistancesOf.
    rewrite std_sort_length, length_imap. reflexivity. }
  assert (Hpos : (0 < length colorPatchList)%nat).
  { destruct colorPatchList; [congruence | simpl; lia]. }
  assert (Hmid : (length colorPatchList / 2 < length sorted)%nat).
  { rewrite Hlen. apply Nat.div_lt; lia. }
  destruct (lookup_lt_is_Some_2 sorted _ Hmid) as [median Hmedian].
  exists sorted, median.
  split; [apply std_sort_perm |]. split; [apply std_sort_Qle |].
  split; [exact Hmedian |]. split; [| split; [| split]].
  - unfold removeContourOutliers. fold minDistances. fold sorted.
    replace (Z.of_nat (length sorted) / 2) with (Z.of_nat (length colorPatchList / 2))
      by (rewrite Hlen; apply (Nat2Z.inj_div _ 2)).
    rewrite (vec_at_of_nat _ _ _ Hmedian). cbn [mbind result_bind].
    rewrite (omap_as_filter (fun d => Qltb d (2 * median))). reflexivity.
  - apply kept_sublist.
  - intros d. split; [apply Qltb_lt | apply Qltb_ge].
  - intros i p Hp.
    exists (minDistanceOf sqrtQ colorPatchList i p).
    split.
    { unfold minDistances, minDistancesOf. rewrite list_lookup_imap, Hp. reflexivity. }
    destruct (min_distance_fold sqrtQ i p (imap (fun j q => (j, q)) colorPatchList) FLT_MAX)
      as (Hle & Hall & Hatt).
    split; [exact Hle |]. split.
    + intros j q Hq Hj. apply (Hall j q); [| exact Hj].
      apply (elem_of_lookup_imap_2 (fun j q => (j, q))). exact Hq.
    + destruct Hatt as [Heq | (j & q & Hin & Hj & Heq)]; [left; exact Heq |].
      right. apply elem_of_lookup_imap_1 in Hin as (j' & q' & [= -> ->] & Hq).
      exists j', q'. split; [exact Hq |]. split; [exact Hj | exact Heq].
Qed.

(** C6 on the four patches on a line. *)
Lemma removeContourOutliers_strict_threshold_witness :
  exists sorted median,
    sorted ≡ₚ minDistancesOf Qsqrt linePatches
    /\ Sorted Qle sorted
    /\ sorted !! (length linePatches / 2)%nat = Some median
    /\ removeContourOutliers Qsqrt linePatches
       = Ok (map fst (List.filter (fun pd => Qltb (snd pd) (2 * median))
                                  (zip linePatches (minDistancesOf Qsqrt linePatches)))).
Proof.
  destruct (removeContourOutliers_strict_threshold Qsqrt linePatches)
    as (sorted & median & Hperm & Hsorted & Hmed & Hrun & _); [discriminate |].
  exists sorted, median. repeat split; assumption.
Defined.

(** C6 as claimed fails at the threshold itself: the minimum distances
    are 1, 1, 1 and 2, their median is 1, and the patch at x = 4, whose
    minimum distance 2 does not exceed 2 x 1, is dropped all the same. *)
Lemma removeContourOutliers_drops_patch_at_threshold :
  minDistancesOf Qsqrt linePatches = [1; 1; 1; 2]%Q
  /\ std_sort Qltb (minDistancesOf Qsqrt linePatches) !! (4 / 2)%nat = Some 1%Q
  /\ ~ (2 * 1 < 2)%Q
  /\ removeContourOutliers Qsqrt linePatches = Ok (take 3 linePatches)
  /\ linePatches !! 3%nat = Some (patchAt 4 zero3)
  /\ patchAt 4 zero3 ∉ take 3 linePatches.
Proof.
  split; [vm_compute; reflexivity |].
  split; [vm_compute; reflexivity |].
  split; [intros H; vm_compute in H; discriminate |].
  split; [vm_compute; reflexivity |].
  split; [reflexivity |].
  intros H. cbn in H.
  repeat (apply elem_of_cons in H as [H | H]; [discriminate H |]).
  apply elem_of_nil in H. exact H.
Qed.

(** ** Chart detection *)

Lemma foldlM_never_throws {A B} (f : B -> A -> result B) (l : list A) (acc : B) :
  (forall acc a what, f acc a <> Throw what) ->
  forall what, foldlM f l acc <> Throw what.
Proof.
  intros Hf. revert acc. induction l as [| a l IH]; intros acc what; simpl.
  - discriminate.
  - destruct (f acc a) as [acc' | w | |] eqn:E; cbn [mbind result_bind];
      try discriminate.
    + apply IH.
    + exfalso. apply (Hf acc a w). exact E.
Qed.

Lemma patchOfContour_never_throws (ocv : OpenCV) (bw : cv.Mat Z) (cont : Contour) :
  forall what, patchOfContour ocv bw cont <> Throw what.
Proof.
  intros what. unfold patchOfContour.
  destruct (Z.min _ _ =? 0); [discriminate |].
  match goal with |- (if ?c then _ else _) <> _ => destruct c end; discriminate.
Qed.

Lemma patchesOfContours_never_throws (ocv : OpenCV) (bw : cv.Mat Z)
    (contours : list Contour) :
  forall what, patchesOfContours ocv bw contours <> Throw what.
Proof.
  apply foldlM_never_throws. intros acc cont what.
  pose proof (patchOfContour_never_throws ocv bw cont) as H.
  destruct (patchOfContour ocv bw cont) as [o | w | |]; cbn [mbind result_bind];
    try discriminate.
  exfalso. apply (H w). reflexivity.
Qed.

(** Outlier rejection returns on every non-empty list, with a sublist. *)
Lemma removeContourOutliers_returns (sqrtQ : Q -> Q) (colorPatchList : list ColorPatch) :
  colorPatchList <> [] ->
  exists clean, removeContourOutliers sqrtQ colorPatchList = Ok clean
                /\ clean `sublist_of` colorPatchList.
Proof.
  intros Hne. unfold removeContourOutliers.
  set (minDistances := minDistancesOf sqrtQ colorPatchList).
  set (sorted := std_sort Qltb minDistances).
  assert (Hlen : length sorted = length colorPatchList).
  { unfold sorted, minDistances, minDistancesOf.
    rewrite std_sort_length, length_imap. reflexivity. }
  assert (Hmid : (length colorPatchList / 2 < length sorted)%nat).
  { rewrite Hlen. apply Nat.div_lt; [| lia].
    destruct colorPatchList; [congruence | simpl; lia]. }
  destruct (lookup_lt_is_Some_2 sorted _ Hmid) as [median Hmedian].
  replace (Z.of_nat (length sorted) / 2) with (Z.of_nat (length colorPatchList / 2))
    by (rewrite Hlen; apply (Nat2Z.inj_div _ 2)).
  rewrite (vec_at_of_nat _ _ _ Hmedian). cbn [mbind result_bind].
  eexists. split; [reflexivity |].
  rewrite (omap_as_filter (fun d => Qltb d (2 * median))). apply kept_sublist.
Qed.

Lemma removeContourOutliers_never_throws (sqrtQ : Q -> Q) (l : list ColorPatch) :
  forall what, removeContourOutliers sqrtQ l <> Throw what.
Proof.
  intros what. destruct l as [| p l].
  - discriminate.
  - destruct (removeContourOutliers_returns sqrtQ (p :: l)) as (clean & -> & _);
      discriminate.
Qed.

(** With [numSquaresW >= 1] every round of the row loop consumes a
    centroid: as many rounds as centroids are enough. *)
Lemma sortRows_terminates (sqrtQ : Q -> Q) (numSquaresW imageWidth : Z) (fuel : nat) :
  1 <= numSquaresW ->
  forall centroids centroidsSorted,
    (length centroids <= fuel)%nat ->
    exists out, sortRows sqrtQ fuel numSquaresW imageWidth centroids centroidsSorted
                = Some out.
Proof.
  intros HW. induction fuel as [| fuel IH]; intros centroids acc Hlen.
  - destruct centroids; [simpl; eauto | simpl in Hlen; lia].
  - destruct centroids as [| c centroids]; [simpl; eauto |].
    cbn [sortRows]. apply IH.
    rewrite length_drop, !std_sort_length, length_take, std_sort_length.
    simpl in *. lia.
Qed.

(** With [numSquaresW <= 0] no round consumes anything: no number of
    rounds empties a non-empty list. *)
Lemma sortRows_stuck (sqrtQ : Q -> Q) (numSquaresW imageWidth : Z) (fuel : nat) :
  numSquaresW <= 0 ->
  forall centroids centroidsSorted,
    centroids <> [] ->
    sortRows sqrtQ fuel numSquaresW imageWidth centroids centroidsSorted = None.
Proof.
  intros HW. induction fuel as [| fuel IH]; intros centroids acc Hne.
  - destruct centroids; [congruence | reflexivity].
  - destruct centroids as [| c centroids]; [congruence |].
    cbn [sortRows]. replace (Z.to_nat numSquaresW) with 0%nat by lia.
    cbn [take].
    assert (Hrow : forall lt : cv.Point2f -> cv.Point2f -> bool, std_sort lt [] = [])
      by reflexivity.
    rewrite Hrow. cbn [length drop]. apply IH.
    intros H. apply (f_equal length) in H.
    rewrite length_drop, std_sort_length in H. simpl in H. lia.
Qed.

Lemma sortPatches_returns (sqrtQ : Q -> Q) (colorPatchList : list ColorPatch)
    (numSquaresW imageWidth : Z) :
  1 <= numSquaresW ->
  exists sorted, sortPatches sqrtQ colorPatchList numSquaresW imageWidth = Ok sorted.
Proof.
  intros HW. unfold sortPatches.
  destruct (sortRows_terminates sqrtQ numSquaresW imageWidth
              (length (map centroid colorPatchList)) HW
              (map centroid colorPatchList) []) as [out ->]; [lia |].
  eauto.
Qed.

Lemma sortPatches_never_throws (sqrtQ : Q -> Q) (colorPatchList : list ColorPatch)
    (numSquaresW imageWidth : Z) :
  forall what, sortPatches sqrtQ colorPatchList numSquaresW imageWidth <> Throw what.
Proof.
  intros what. unfold sortPatches. destruct (sortRows _ _ _ _ _ _); discriminate.
Qed.

(** The label loop finds no chart exactly when every plausible label has
    fewer contours than the chart has squares. *)
Lemma findChart_None (ocv : OpenCV) (bw : cv.Mat Z) (labels : Z -> Z -> Z)
    (numSquaresW numSquaresH : Z) (stats : list CCStats) :
  forall label,
    findChart ocv bw labels numSquaresW numSquaresH label stats = None
    <-> forall i st,
          stats !! i = Some st ->
          labelPlausible bw st = true ->
          Z.of_nat (length (contoursOfLabel ocv bw labels (label + i)))
          < toSizeT (numSquaresW * numSquaresH).
Proof.
  induction stats as [| st stats IH]; intros label; cbn [findChart].
  - split; [intros _ i st H; discriminate H | reflexivity].
  - destruct (labelPlausible bw st) eqn:Ep.
    + destruct (Z.leb_spec (toSizeT (numSquaresW * numSquaresH))
                  (Z.of_nat (length (contoursOfLabel ocv bw labels label))))
        as [Hge | Hlt].
      * split; [discriminate |]. intros H. exfalso.
        specialize (H 0%nat st eq_refl Ep). rewrite Nat.add_0_r in H. lia.
      * rewrite IH. split.
        -- intros H [| i] st' Hi Hp.
           ++ injection Hi as <-. rewrite Nat.add_0_r. exact Hlt.
           ++ replace (label + S i)%nat with (S label + i)%nat by lia.
              apply (H i st' Hi Hp).
        -- intros H i st' Hi Hp.
           replace (S label + i)%nat with (label + S i)%nat by lia.
           apply (H (S i) st' Hi Hp).
    + rewrite IH. split.
      * intros H [| i] st' Hi Hp.
        -- injection Hi as <-. congruence.
        -- replace (label + S i)%nat with (S label + i)%nat by lia.
           apply (H i st' Hi Hp).
      * intros H i st' Hi Hp.
        replace (S label + i)%nat with (label + S i)%nat by lia.
        apply (H (S i) st' Hi Hp).
Qed.

(** C2, as the code has it.  [detectColorChart] throws in one case only:
    when no label past the background is accepted as the chart, that is when
    every plausible label has fewer contours than the chart has squares.
    Once a label is accepted nothing is thrown, however few patches pass the
    patch filter and the outlier rejection: with none the empty list is
    returned, otherwise (for [numSquaresW >= 1]) the sorted survivors. *)
Theorem detectColorChart_throws_only_without_chart
    (ocv : OpenCV) (sqrtQ : Q -> Q) (image : cv.Mat Z) (numSquaresW numSquaresH : Z) :
  let bw := binarize ocv image in
  let labels := fst (connectedComponentsWithStats ocv bw 8) in
  let stats := snd (connectedComponentsWithStats ocv bw 8) in
  let chart := findChart ocv bw labels numSquaresW numSquaresH 1 (drop 1 stats) in
  (chart = None
   <-> forall i st,
         drop 1 stats !! i = Some st ->
         labelPlausible bw st = true ->
         Z.of_nat (length (contoursOfLabel ocv bw labels (1 + i)))
         < toSizeT (numSquaresW * numSquaresH))
  /\ (chart = None
      <-> detectColorChart ocv sqrtQ image numSquaresW numSquaresH
          = Throw "No chart found")
  /\ (forall what,
        detectColorChart ocv sqrtQ image numSquaresW numSquaresH = Throw what ->
        chart = None)
  /\ forall contours,
       chart = Some contours ->
       (patchesOfContours ocv bw contours = Ok [] ->
        detectColorChart ocv sqrtQ image numSquaresW numSquaresH = Ok [])
       /\ forall colorPatchList,
            patchesOfContours ocv bw contours = Ok colorPatchList ->
            colorPatchList <> [] ->
            1 <= numSquaresW ->
            exists clean sorted,
              removeContourOutliers sqrtQ colorPatchList = Ok clean
              /\ sortPatches sqrtQ clean numSquaresW (cv.cols image) = Ok sorted
              /\ detectColorChart ocv sqrtQ image numSquaresW numSquaresH = Ok sorted.
Proof.
  cbn zeta. unfold detectColorChart.
  destruct (connectedComponentsWithStats ocv (binarize ocv image) 8)
    as [labels stats]. cbn [fst snd].
  set (bw := binarize ocv image).
  set (chart := findChart ocv bw labels numSquaresW numSquaresH 1 (drop 1 stats)).
  assert (Hfound : forall contours what,
            chart = Some contours ->
            (colorPatchList ← patchesOfContours ocv bw contours;
             if (length colorPatchList =? 0)%nat then Ok colorPatchList
             else colorPatchListClean ← removeContourOutliers sqrtQ colorPatchList;
                  sortPatches sqrtQ colorPatchListClean numSquaresW (cv.cols image))
            <> Throw what).
  { intros contours what _.
    pose proof (patchesOfContours_never_throws ocv bw contours) as Hp.
    destruct (patchesOfContours ocv bw contours) as [l | w | |];
      cbn [mbind result_bind]; try discriminate; [| apply Hp].
    destruct (length l =? 0)%nat; [discriminate |].
    pose proof (removeContourOutliers_never_throws sqrtQ l) as Hr.
    destruct (removeContourOutliers sqrtQ l) as [clean | w | |];
      cbn [mbind result_bind]; try discriminate; [| apply Hr].
    apply sortPatches_never_throws. }
  split; [apply findChart_None |].
  split; [| split].
  - destruct chart as [contours |] eqn:E.
    + split; [discriminate |]. intros H. exfalso.
      apply (Hfound contours _ eq_refl H).
    + split; reflexivity.
  - intros what H. destruct chart as [contours |] eqn:E; [| reflexivity].
    exfalso. apply (Hfound contours what eq_refl H).
  - intros contours ->. split.
    + intros ->. reflexivity.
    + intros l -> Hne HW. cbn [mbind result_bind].
      destruct l as [| p l]; [congruence |]. cbn [length Nat.eqb].
      destruct (removeContourOutliers_returns sqrtQ (p :: l) Hne) as (clean & -> & _).
      cbn [mbind result_bind].
      destruct (sortPatches_returns sqrtQ clean numSquaresW (cv.cols image) HW)
        as [sorted Hs].
      exists clean, sorted. split; [reflexivity |]. split; exact Hs.
Qed.

(** C2 as claimed fails in its second case.  For a 2x2 chart, a label
    with four contours is accepted; one contour is a triangle, so three
    patches survive the filter and the outlier rejection, fewer than four,
    and the three are returned.  For a 1x1 chart and a lone triangle no
    patch survives, and the empty list is returned. *)
Lemma detectColorChart_returns_too_few_patches :
  (exists patches,
     detectColorChart threeSquaresOcv Qsqrt chartImage 2 2 = Ok patches
     /\ length patches = 3%nat
     /\ Z.of_nat (length patches) < 2 * 2)
  /\ patchesOfContours triangleOcv (binarize triangleOcv chartImage)
                       [triangleAt 20 20] = Ok []
  /\ detectColorChart triangleOcv Qsqrt chartImage 1 1 = Ok [].
Proof.
  split; [| split; vm_compute; reflexivity].
  destruct (detectColorChart threeSquaresOcv Qsqrt chartImage 2 2)
    as [patches | | |] eqn:E; try (vm_compute in E; discriminate).
  exists patches. split; [reflexivity |].
  vm_compute in E. injection E as <-. split; [reflexivity | simpl; lia].
Qed.

(** * Further properties of the calibration code *)

(** ** The gray ramp *)

(** X1: On a chart of fewer than six rows the loop of [getMacBethGrays] runs
    past the first row: the read at a negative index has no defined
    result. *)
Theorem getMacBethGrays_short_table (table : list (list Z)) :
  (length table < 6)%nat -> getMacBethGrays table = Undefined.
Proof.
  intros H.
  destruct table as [| r0 [| r1 [| r2 [| r3 [| r4 [| r5 t]]]]]];
    simpl in H; try lia;
    try destruct r0 as [| v0 t0]; try destruct r1 as [| v1 t1];
    try destruct r2 as [| v2 t2]; try destruct r3 as [| v3 t3];
    try destruct r4 as [| v4 t4]; reflexivity.
Qed.

Lemma getMacBethGrays_short_table_witness :
  getMacBethGrays (take 5 sampleChart) = Undefined.
Proof.
  apply (getMacBethGrays_short_table (take 5 sampleChart)). simpl. lia.
Defined.

(** ** Patch statistics *)

Lemma sorted_split (s : list Q) (k : nat) (m : Q) :
  Sorted Qle s ->
  s !! k = Some m ->
  Forall (fun x => (x <= m)%Q) (take k s)
  /\ Forall (fun x => (m <= x)%Q) (drop (S k) s).
Proof.
  intros Hs Hk.
  apply (@Sorted_StronglySorted _ Qle Qle_trans) in Hs.
  rewrite <- (take_drop_middle s k m Hk) in Hs.
  apply StronglySorted_app in Hs as (Hlo & _ & Hhi).
  apply StronglySorted_cons in Hhi as [Hhi _].
  split; [| exact Hhi].
  apply Forall_forall. intros x Hx.
  apply (Hlo x m Hx). apply elem_of_cons. left. reflexivity.
Qed.

(** The value read as the median of a non-empty bucket is its element of
    rank [n / 2]: some arrangement of the bucket has [n / 2] elements not
    above it before it, and only elements not below it after it. *)
Lemma median_of_bucket (bucket : list Q) :
  bucket <> [] ->
  exists m lo hi,
    vec_at (nth_element bucket) (Z.of_nat (length bucket) / 2) = Ok m
    /\ bucket ≡ₚ lo ++ m :: hi
    /\ length lo = (length bucket / 2)%nat
    /\ Forall (fun x => (x <= m)%Q) lo
    /\ Forall (fun x => (m <= x)%Q) hi.
Proof.
  intros Hne. unfold nth_element.
  set (s := std_sort Qltb bucket).
  assert (Hlen : length s = length bucket) by apply std_sort_length.
  assert (Hmid : (length bucket / 2 < length s)%nat).
  { rewrite Hlen. apply Nat.div_lt; [| lia].
    destruct bucket; [congruence | simpl; lia]. }
  destruct (lookup_lt_is_Some_2 s _ Hmid) as [m Hm].
  exists m, (take (length bucket / 2) s), (drop (S (length bucket / 2)) s).
  split.
  { replace (Z.of_nat (length bucket) / 2) with (Z.of_nat (length bucket / 2))
      by apply (Nat2Z.inj_div _ 2).
    apply vec_at_of_nat, Hm. }
  split.
  { rewrite (take_drop_middle s _ m Hm). symmetry. apply std_sort_perm. }
  split; [rewrite length_take; lia |].
  apply sorted_split; [apply std_sort_Qle | exact Hm].
Qed.

Lemma medianOfChannel_bucket (RGBs : list (list Q)) (ch : nat) (bucket : list Q) :
  RGBs !! ch = Some bucket ->
  medianOfChannel RGBs ch
  = vec_at (nth_element bucket) (Z.of_nat (length bucket) / 2).
Proof.
  intros H. unfold medianOfChannel. rewrite (vec_at_of_nat _ _ _ H). reflexivity.
Qed.

(** The bucket loop keeps three buckets.  On a raw image every masked
    pixel goes to one of them; on a demosaiced image to all three. *)
Lemma collectChannels_loop (isp : CameraIsp) (image : Image) (isRaw : bool)
    (locs : list cv.Point) :
  forall (r g b : list Q) (RGBs : list (list Q)),
    foldlM (fun RGBs p =>
              if isRaw then
                valRaw ← at_float image p;
                Ok (alter (fun channel => channel ++ [valRaw]) (channelOf isp p) RGBs)
              else
                val ← at_Vec3f image p;
                Ok (imap (fun ch channel => channel ++ [cv.at3 val ch]) RGBs))
           locs [r; g; b] = Ok RGBs ->
    exists r' g' b',
      RGBs = [r'; g'; b']
      /\ (isRaw = true ->
          (length r' + length g' + length b'
           = length r + length g + length b + length locs)%nat)
      /\ (isRaw = false ->
          length r' = (length r + length locs)%nat
          /\ length g' = (length g + length locs)%nat
          /\ length b' = (length b + length locs)%nat).
Proof.
  induction locs as [| p locs IH]; intros r g b RGBs H; cbn [foldlM] in H.
  - injection H as <-. exists r, g, b. split; [reflexivity |].
    split; intros _; simpl; lia.
  - destruct isRaw.
    + destruct (at_float image p) as [v | | |]; try discriminate.
      cbn [mbind result_bind] in H.
      unfold channelOf in H.
      destruct (redPixel isp _ _); [| destruct (greenPixel isp _ _)];
        cbn in H; apply IH in H as (r' & g' & b' & -> & Hraw & _);
        exists r', g', b'; (split; [reflexivity |]);
        (split; [intros _; specialize (Hraw eq_refl);
                 rewrite ?length_app in Hraw; simpl in *; lia | discriminate]).
    + destruct (at_Vec3f image p) as [v | | |]; try discriminate.
      cbn in H. apply IH in H as (r' & g' & b' & -> & _ & Hrgb).
      exists r', g', b'. split; [reflexivity |].
      split; [discriminate |]. intros _. specialize (Hrgb eq_refl).
      rewrite !length_app in Hrgb. simpl in *. lia.
Qed.

(** X2: [collectChannels] always ends with exactly three buckets; a raw
    image contributes each masked pixel to exactly one bucket, a demosaiced
    image to each of the three. *)
Theorem collectChannels_buckets (isp : CameraIsp) (image : Image) (mask : cv.Mat Z)
    (isRaw : bool) (RGBs : list (list Q)) :
  collectChannels isp image mask isRaw = Ok RGBs ->
  exists r g b,
    RGBs = [r; g; b]
    /\ (isRaw = true ->
        (length r + length g + length b = length (cv.findNonZero mask))%nat)
    /\ (isRaw = false ->
        length r = length (cv.findNonZero mask)
        /\ length g = length (cv.findNonZero mask)
        /\ length b = length (cv.findNonZero mask)).
Proof.
  intros H. apply collectChannels_loop in H as (r & g & b & -> & Hraw & Hrgb).
  exists r, g, b. split; [reflexivity |]. split; [exact Hraw | exact Hrgb].
Qed.

Lemma collectChannels_buckets_witness :
  exists r g b,
    collectChannels sampleIsp (Gray [[0.5%Q]]) [[255]] true = Ok [r; g; b]
    /\ (length r + length g + length b = 1)%nat.
Proof.
  destruct (collectChannels_buckets sampleIsp (Gray [[0.5%Q]]) [[255]] true
              [[0.5%Q]; []; []] eq_refl) as (r & g & b & Heq & Hraw & _).
  exists r, g, b. split; [rewrite <- Heq; reflexivity |].
  apply (Hraw eq_refl).
Defined.

Lemma median_of_bucket_rank (bucket : list Q) (m : Q) :
  vec_at (nth_element bucket) (Z.of_nat (length bucket) / 2) = Ok m ->
  bucket <> [] /\ rankMedian bucket m.
Proof.
  intros H. destruct bucket as [| x bucket]; [discriminate H |].
  split; [discriminate |].
  destruct (median_of_bucket (x :: bucket)) as (m' & lo & hi & Hm & Hrest);
    [discriminate |].
  rewrite Hm in H. injection H as <-. exists lo, hi. exact Hrest.
Qed.

(** What a returning call of [getRgbMedianMask] has computed. *)
Lemma getRgbMedianMask_Ok (isp : CameraIsp) (image : Image) (mask : cv.Mat Z)
    (isRaw : bool) (v : cv.Vec3f) :
  getRgbMedianMask isp image mask isRaw = Ok v ->
  exists r g b,
    collectChannels isp image mask isRaw = Ok [r; g; b]
    /\ vec_at (nth_element r) (Z.of_nat (length r) / 2) = Ok (cv.c0 v)
    /\ vec_at (nth_element g) (Z.of_nat (length g) / 2) = Ok (cv.c1 v)
    /\ vec_at (nth_element b) (Z.of_nat (length b) / 2) = Ok (cv.c2 v).
Proof.
  unfold getRgbMedianMask. intros H.
  destruct (collectChannels isp image mask isRaw) as [RGBs | | |] eqn:Ec;
    try discriminate.
  pose proof Ec as Ec'.
  apply collectChannels_loop in Ec' as (r & g & b & -> & _).
  cbn [mbind result_bind] in H.
  rewrite (medianOfChannel_bucket [r; g; b] 0 r eq_refl) in H.
  rewrite (medianOfChannel_bucket [r; g; b] 1 g eq_refl) in H.
  rewrite (medianOfChannel_bucket [r; g; b] 2 b eq_refl) in H.
  destruct (vec_at (nth_element r) _) as [m0 | | |] eqn:E0; try discriminate.
  cbn [mbind result_bind] in H.
  destruct (vec_at (nth_element g) _) as [m1 | | |] eqn:E1; try discriminate.
  cbn [mbind result_bind] in H.
  destruct (vec_at (nth_element b) _) as [m2 | | |] eqn:E2; try discriminate.
  cbn [mbind result_bind] in H. injection H as <-.
  exists r, g, b. repeat split; assumption.
Qed.

(** X3: [getRgbMedianMask] returns exactly when the masked pixels can all be
    read and leave no bucket empty. *)
Theorem getRgbMedianMask_returns_iff (isp : CameraIsp) (image : Image)
    (mask : cv.Mat Z) (isRaw : bool) :
  (exists v, getRgbMedianMask isp image mask isRaw = Ok v)
  <-> exists r g b,
        collectChannels isp image mask isRaw = Ok [r; g; b]
        /\ r <> [] /\ g <> [] /\ b <> [].
Proof.
  split.
  - intros [v H]. apply getRgbMedianMask_Ok in H as (r & g & b & Hc & H0 & H1 & H2).
    exists r, g, b. split; [exact Hc |].
    apply median_of_bucket_rank in H0 as [H0 _].
    apply median_of_bucket_rank in H1 as [H1 _].
    apply median_of_bucket_rank in H2 as [H2 _].
    repeat split; assumption.
  - intros (r & g & b & Hc & Hr & Hg & Hb).
    destruct (median_of_bucket r Hr) as (m0 & _ & _ & H0 & _).
    destruct (median_of_bucket g Hg) as (m1 & _ & _ & H1 & _).
    destruct (median_of_bucket b Hb) as (m2 & _ & _ & H2 & _).
    exists (cv.mkVec3f m0 m1 m2).
    unfold getRgbMedianMask. rewrite Hc. cbn [mbind result_bind].
    rewrite (medianOfChannel_bucket [r; g; b] 0 r eq_refl), H0.
    cbn [mbind result_bind].
    rewrite (medianOfChannel_bucket [r; g; b] 1 g eq_refl), H1.
    cbn [mbind result_bind].
    rewrite (medianOfChannel_bucket [r; g; b] 2 b eq_refl), H2.
    reflexivity.
Qed.

(** X4: Each component returned by [getRgbMedianMask] is the value of rank
    [n / 2] of its channel's bucket of [n] values: an order statistic of
    the masked pixels, the upper median when [n] is even. *)
Theorem getRgbMedianMask_rank (isp : CameraIsp) (image : Image) (mask : cv.Mat Z)
    (isRaw : bool) (v : cv.Vec3f) :
  getRgbMedianMask isp image mask isRaw = Ok v ->
  exists r g b,
    collectChannels isp image mask isRaw = Ok [r; g; b]
    /\ rankMedian r (cv.c0 v)
    /\ rankMedian g (cv.c1 v)
    /\ rankMedian b (cv.c2 v).
Proof.
  intros H. apply getRgbMedianMask_Ok in H as (r & g & b & Hc & H0 & H1 & H2).
  exists r, g, b. split; [exact Hc |].
  apply median_of_bucket_rank in H0 as [_ H0].
  apply median_of_bucket_rank in H1 as [_ H1].
  apply median_of_bucket_rank in H2 as [_ H2].
  repeat split; assumption.
Qed.

Lemma getRgbMedianMask_rank_witness :
  exists r g b,
    collectChannels sampleIsp grayRampImage [[255; 255; 255; 255; 255]] false
    = Ok [r; g; b]
    /\ rankMedian r 0.5 /\ rankMedian g 0.5 /\ rankMedian b 0.5.
Proof.
  apply (getRgbMedianMask_rank sampleIsp grayRampImage [[255; 255; 255; 255; 255]]
                               false (cv.mkVec3f 0.5 0.5 0.5)).
  reflexivity.
Defined.

Lemma rankMedian_elem (bucket : list Q) (m : Q) : rankMedian bucket m -> m ∈ bucket.
Proof.
  intros (lo & hi & Hperm & _). rewrite Hperm.
  apply elem_of_app. right. apply elem_of_cons. left. reflexivity.
Qed.

(** The buckets of a demosaiced image whose masked pixels all read [v]. *)
Lemma collectChannels_constant (isp : CameraIsp) (m : cv.Mat cv.Vec3f)
    (v : cv.Vec3f) (locs : list cv.Point) :
  (forall p, p ∈ locs -> cv.atPoint m p = Ok v) ->
  forall r g b,
    foldlM (fun RGBs p =>
              if false then
                valRaw ← at_float (Rgb m) p;
                Ok (alter (fun channel => channel ++ [valRaw]) (channelOf isp p) RGBs)
              else
                val ← at_Vec3f (Rgb m) p;
                Ok (imap (fun ch channel => channel ++ [cv.at3 val ch]) RGBs))
           locs [r; g; b]
    = Ok [r ++ replicate (length locs) (cv.c0 v);
          g ++ replicate (length locs) (cv.c1 v);
          b ++ replicate (length locs) (cv.c2 v)].
Proof.
  induction locs as [| p locs IH]; intros Hv r g b; cbn [foldlM].
  - simpl. rewrite !app_nil_r. reflexivity.
  - cbn [at_Vec3f]. rewrite (Hv p) by (apply elem_of_cons; left; reflexivity).
    cbn. rewrite IH by (intros q Hq; apply Hv, elem_of_cons; right; exact Hq).
    rewrite <- !app_assoc. reflexivity.
Qed.

(** X5: On a demosaiced image whose masked pixels all hold the same colour,
    and a mask that is not empty, [getRgbMedianMask] returns that colour. *)
Theorem getRgbMedianMask_constant_patch (isp : CameraIsp) (m : cv.Mat cv.Vec3f)
    (mask : cv.Mat Z) (v : cv.Vec3f) :
  cv.findNonZero mask <> [] ->
  (forall p, p ∈ cv.findNonZero mask -> cv.atPoint m p = Ok v) ->
  getRgbMedianMask isp (Rgb m) mask false = Ok v.
Proof.
  intros Hne Hv.
  assert (Hc : collectChannels isp (Rgb m) mask false
               = Ok [replicate (length (cv.findNonZero mask)) (cv.c0 v);
                     replicate (length (cv.findNonZero mask)) (cv.c1 v);
                     replicate (length (cv.findNonZero mask)) (cv.c2 v)]).
  { unfold collectChannels. rewrite (collectChannels_constant isp m v _ Hv).
    reflexivity. }
  assert (Hmed : forall x : Q,
             vec_at (nth_element (replicate (length (cv.findNonZero mask)) x))
                    (Z.of_nat (length (replicate (length (cv.findNonZero mask)) x)) / 2)
             = Ok x).
  { intros x.
    destruct (median_of_bucket (replicate (length (cv.findNonZero mask)) x))
      as (m0 & lo & hi & Hm & Hperm & _).
    { destruct (cv.findNonZero mask); [congruence | discriminate]. }
    rewrite Hm. f_equal.
    assert (Hin : m0 ∈ replicate (length (cv.findNonZero mask)) x).
    { rewrite Hperm. apply elem_of_app. right. apply elem_of_cons. left. reflexivity. }
    apply elem_of_replicate in Hin as [-> _]. reflexivity. }
  unfold getRgbMedianMask. rewrite Hc. cbn [mbind result_bind].
  set (n := length (cv.findNonZero mask)) in *.
  rewrite (medianOfChannel_bucket [replicate n (cv.c0 v); replicate n (cv.c1 v);
                                   replicate n (cv.c2 v)] 0 _ eq_refl), Hmed.
  cbn [mbind result_bind].
  rewrite (medianOfChannel_bucket [replicate n (cv.c0 v); replicate n (cv.c1 v);
                                   replicate n (cv.c2 v)] 1 _ eq_refl), Hmed.
  cbn [mbind result_bind].
  rewrite (medianOfChannel_bucket [replicate n (cv.c0 v); replicate n (cv.c1 v);
                                   replicate n (cv.c2 v)] 2 _ eq_refl), Hmed.
  cbn [mbind result_bind].
  destruct v. reflexivity.
Qed.

Lemma getRgbMedianMask_constant_patch_witness :
  getRgbMedianMask sampleIsp (Rgb [[cv.mkVec3f 0.4 0.3 0.2; cv.mkVec3f 0.4 0.3 0.2]])
                   [[255; 255]] false
  = Ok (cv.mkVec3f 0.4 0.3 0.2).
Proof.
  apply getRgbMedianMask_constant_patch.
  - discriminate.
  - intros p Hp. cbn in Hp.
    repeat (apply elem_of_cons in Hp as [-> | Hp]; [reflexivity |]).
    apply elem_of_nil in Hp. destruct Hp.
Defined.

Lemma mapMr_Forall2 {A B} (f : A -> result B) (l : list A) (l' : list B) :
  mapMr f l = Ok l' <-> Forall2 (fun a b => f a = Ok b) l l'.
Proof.
  revert l'. induction l as [| a l IH]; intros l'; cbn [mapMr].
  - split.
    + intros [= <-]. constructor.
    + intros H. inversion H. reflexivity.
  - split.
    + destruct (f a) as [b | | |] eqn:Ea; try discriminate.
      cbn [mbind result_bind].
      destruct (mapMr f l) as [bs | | |] eqn:El; try discriminate.
      cbn [mbind result_bind]. intros [= <-].
      constructor; [exact Ea | apply IH; reflexivity].
    + intros H. inversion H as [| a' b l0 bs Hab Hrest]; subst.
      rewrite Hab. cbn [mbind result_bind].
      rewrite (proj2 (IH bs) Hrest). reflexivity.
Qed.

Lemma computeRGBMedians_Forall2 (isp : CameraIsp) (colorPatches measured : list ColorPatch)
    (image : Image) (isRaw : bool) :
  computeRGBMedians isp colorPatches image isRaw = Ok measured
  <-> Forall2 (fun p p' =>
                 centroid p' = centroid p
                 /\ mask p' = mask p
                 /\ getRgbMedianMask isp image (mask p) isRaw = Ok (rgbMedian p'))
              colorPatches measured.
Proof.
  unfold computeRGBMedians. rewrite mapMr_Forall2.
  split; intros H; (eapply Forall2_impl; [exact H |]); cbn beta; intros p p'.
  - destruct (getRgbMedianMask isp image (mask p) isRaw) as [m | | |];
      try discriminate.
    cbn [mbind result_bind]. intros [= <-]. repeat split.
  - intros (Hc & Hm & ->). cbn [mbind result_bind].
    destruct p'. cbn in *. subst. reflexivity.
Qed.

(** X6: A measurement pass changes nothing but the medians: the returned list has
    the patches in the same order with the same centroids and masks, and
    each new median is the one [getRgbMedianMask] reads under the patch's
    mask; the medians stored before play no part. *)
Theorem computeRGBMedians_refreshes_medians_only
    (isp : CameraIsp) (colorPatches measured : list ColorPatch)
    (image : Image) (isRaw : bool) :
  computeRGBMedians isp colorPatches image isRaw = Ok measured ->
  length measured = length colorPatches
  /\ map centroid measured = map centroid colorPatches
  /\ map mask measured = map mask colorPatches
  /\ forall i p', measured !! i = Some p' ->
       getRgbMedianMask isp image (mask p') isRaw = Ok (rgbMedian p').
Proof.
  intros H. apply computeRGBMedians_Forall2 in H.
  induction H as [| p p' l l' (Hc & Hm & Hmed) _ IH].
  - repeat split. intros i p' Hi. discriminate Hi.
  - destruct IH as (Hlen & Hcs & Hms & Hall).
    cbn [length map]. rewrite Hlen, Hcs, Hms, Hc, Hm. repeat split.
    intros [| i] q Hi; cbn in Hi.
    + injection Hi as <-. rewrite Hm. exact Hmed.
    + apply (Hall i q Hi).
Qed.

Lemma computeRGBMedians_refreshes_medians_only_witness :
  length grayRampMeasured = length grayRampPatches
  /\ map centroid grayRampMeasured = map centroid grayRampPatches
  /\ map mask grayRampMeasured = map mask grayRampPatches
  /\ forall i p', grayRampMeasured !! i = Some p' ->
       getRgbMedianMask sampleIsp grayRampImage (mask p') false = Ok (rgbMedian p').
Proof.
  apply (computeRGBMedians_refreshes_medians_only
           sampleIsp grayRampPatches grayRampMeasured grayRampImage false).
  reflexivity.
Defined.

(** X7: Measuring again on the same image changes nothing: a second pass over
    the patches a first pass returned returns them as they are. *)
Theorem computeRGBMedians_idempotent
    (isp : CameraIsp) (colorPatches measured : list ColorPatch)
    (image : Image) (isRaw : bool) :
  computeRGBMedians isp colorPatches image isRaw = Ok measured ->
  computeRGBMedians isp measured image isRaw = Ok measured.
Proof.
  intros H. apply computeRGBMedians_Forall2 in H. apply computeRGBMedians_Forall2.
  induction H as [| p p' l l' (Hc & Hm & Hmed) _ IH]; constructor; [| exact IH].
  repeat split. rewrite Hm. exact Hmed.
Qed.

Lemma computeRGBMedians_idempotent_witness :
  computeRGBMedians sampleIsp grayRampMeasured grayRampImage false
  = Ok grayRampMeasured.
Proof.
  apply (computeRGBMedians_idempotent sampleIsp grayRampPatches).
  reflexivity.
Defined.

(** ** The response fit *)

Lemma foldlM_Ok_or_Undefined {A B} (f : B -> A -> result B) (l : list A) (acc : B) :
  (forall acc a, (exists b, f acc a = Ok b) \/ f acc a = Undefined) ->
  (exists b, foldlM f l acc = Ok b) \/ foldlM f l acc = Undefined.
Proof.
  intros Hf. revert acc. induction l as [| a l IH]; intros acc; cbn [foldlM].
  - left. eauto.
  - destruct (Hf acc a) as [[b ->] | ->]; [apply IH | right; reflexivity].
Qed.

Lemma vec_at_Ok_or_Undefined {A} (v : list A) (i : Z) :
  (exists a, vec_at v i = Ok a) \/ vec_at v i = Undefined.
Proof.
  unfold vec_at. destruct (i <? 0); [right; reflexivity |].
  destruct (v !! Z.to_nat i); [left; eauto | right; reflexivity].
Qed.

Lemma atPoint_Ok_or_Undefined {A} (m : cv.Mat A) (p : cv.Point) :
  (exists a, cv.atPoint m p = Ok a) \/ cv.atPoint m p = Undefined.
Proof.
  unfold cv.atPoint, cv.at_.
  destruct (vec_at_Ok_or_Undefined m (cv.yi p)) as [[r ->] | ->];
    [apply vec_at_Ok_or_Undefined | right; reflexivity].
Qed.

Lemma collectChannels_Ok_or_Undefined (isp : CameraIsp) (image : Image)
    (mask : cv.Mat Z) (isRaw : bool) :
  (exists RGBs, collectChannels isp image mask isRaw = Ok RGBs)
  \/ collectChannels isp image mask isRaw = Undefined.
Proof.
  apply foldlM_Ok_or_Undefined. intros RGBs p. destruct isRaw.
  - destruct image as [m | m]; cbn [at_float]; [| right; reflexivity].
    destruct (atPoint_Ok_or_Undefined m p) as [[v ->] | ->];
      [left; cbn; eauto | right; reflexivity].
  - destruct image as [m | m]; cbn [at_Vec3f]; [right; reflexivity |].
    destruct (atPoint_Ok_or_Undefined m p) as [[v ->] | ->];
      [left; cbn; eauto | right; reflexivity].
Qed.

Lemma getRgbMedianMask_Ok_or_Undefined (isp : CameraIsp) (image : Image)
    (mask : cv.Mat Z) (isRaw : bool) :
  (exists v, getRgbMedianMask isp image mask isRaw = Ok v)
  \/ getRgbMedianMask isp image mask isRaw = Undefined.
Proof.
  unfold getRgbMedianMask.
  destruct (collectChannels_Ok_or_Undefined isp image mask isRaw) as [[RGBs ->] | ->];
    [| right; reflexivity].
  cbn [mbind result_bind].
  destruct (medianOfChannel_cases RGBs 0) as [[m0 ->] | ->]; [| right; reflexivity].
  cbn [mbind result_bind].
  destruct (medianOfChannel_cases RGBs 1) as [[m1 ->] | ->]; [| right; reflexivity].
  cbn [mbind result_bind].
  destruct (medianOfChannel_cases RGBs 2) as [[m2 ->] | ->]; [| right; reflexivity].
  left. cbn. eauto.
Qed.

Lemma computeRGBMedians_Ok_or_Undefined (isp : CameraIsp)
    (colorPatches : list ColorPatch) (image : Image) (isRaw : bool) :
  (exists measured, computeRGBMedians isp colorPatches image isRaw = Ok measured)
  \/ computeRGBMedians isp colorPatches image isRaw = Undefined.
Proof.
  unfold computeRGBMedians. induction colorPatches as [| p l IH]; cbn [mapMr].
  - left. eauto.
  - destruct (getRgbMedianMask_Ok_or_Undefined isp image (mask p) isRaw)
      as [[m ->] | ->]; [| right; reflexivity].
    cbn [mbind result_bind].
    destruct IH as [[ms ->] | ->]; [left; cbn; eauto | right; reflexivity].
Qed.

Lemma getMacBethGrays_Ok_or_Undefined (table : list (list Z)) :
  (exists grays, getMacBethGrays table = Ok grays)
  \/ getMacBethGrays table = Undefined.
Proof.
  apply foldlM_Ok_or_Undefined. intros acc i.
  destruct (vec_at_Ok_or_Undefined table i) as [[row ->] | ->];
    [| right; reflexivity].
  cbn [mbind result_bind].
  destruct (vec_at_Ok_or_Undefined row 0) as [[v ->] | ->];
    [left; cbn; eauto | right; reflexivity].
Qed.

Lemma mapMr_length {A B} (f : A -> result B) (l : list A) (l' : list B) :
  mapMr f l = Ok l' -> length l' = length l.
Proof.
  intros H. apply mapMr_Forall2 in H. symmetry. apply (Forall2_length _ _ _ H).
Qed.

(** A returned gray ramp has six values. *)
Lemma getMacBethGrays_length (table : list (list Z)) (grays : list Z) :
  getMacBethGrays table = Ok grays -> length grays = 6%nat.
Proof.
  unfold getMacBethGrays.
  rewrite (foldlM_push _ (fun i => r ← vec_at table i; vec_at r 0)).
  2:{ intros acc i. destruct (vec_at table i) as [r | w | |]; reflexivity. }
  destruct (mapMr _ _) as [vs | | |] eqn:E; try discriminate.
  cbn [mbind result_bind]. intros [= <-]. cbn [app].
  apply mapMr_length in E. rewrite E. unfold downto.
  rewrite length_map, length_seq. unfold kNumGrayPatches. lia.
Qed.

(** What a returning call of [computeRGBResponse] has read and computed. *)
Lemma computeRGBResponse_Ok (table : list (list Z)) (isp : CameraIsp)
    (raw : Image) (isRaw : bool) (colorPatches measured : list ColorPatch)
    (r : ColorResponse) :
  computeRGBResponse table isp raw isRaw colorPatches = Ok (measured, r) ->
  exists grays gDark gBright pDark pBright,
    computeRGBMedians isp colorPatches raw isRaw = Ok measured
    /\ getMacBethGrays table = Ok grays
    /\ vec_at grays kDarkIdx = Ok gDark
    /\ vec_at grays kBrightIdx = Ok gBright
    /\ vec_at measured (Z.of_nat (length measured) - 1 - kDarkIdx) = Ok pDark
    /\ vec_at measured (Z.of_nat (length measured) - 1 - kBrightIdx) = Ok pBright
    /\ forall ch,
        (cv.at3 (rgbSlope r) ch
         = (cv.at3 (rgbMedian pBright) ch - cv.at3 (rgbMedian pDark) ch)
           / (reflectance gBright - reflectance gDark)
         /\ cv.at3 (rgbInterceptY r) ch
            = - cv.at3 (rgbSlope r) ch * reflectance gDark
              + cv.at3 (rgbMedian pDark) ch
         /\ cv.at3 (rgbInterceptXMin r) ch
            = - cv.at3 (rgbInterceptY r) ch / cv.at3 (rgbSlope r) ch
         /\ cv.at3 (rgbInterceptXMax r) ch
            = (1 - cv.at3 (rgbInterceptY r) ch) / cv.at3 (rgbSlope r) ch)%Q.
Proof.
  unfold computeRGBResponse. intros H.
  destruct (computeRGBMedians isp colorPatches raw isRaw) as [ms | | |] eqn:Em;
    try discriminate. cbn [mbind result_bind] in H.
  destruct (getMacBethGrays table) as [grays | | |] eqn:Eg; try discriminate.
  cbn [mbind result_bind] in H.
  destruct (vec_at grays kDarkIdx) as [gD | | |] eqn:EgD; try discriminate.
  cbn [mbind result_bind] in H.
  destruct (vec_at grays kBrightIdx) as [gB | | |] eqn:EgB; try discriminate.
  cbn [mbind result_bind] in H.
  destruct (vec_at ms (_ - kDarkIdx)) as [pD | | |] eqn:EpD; try discriminate.
  cbn [mbind result_bind] in H.
  destruct (vec_at ms (_ - kBrightIdx)) as [pB | | |] eqn:EpB; try discriminate.
  cbn [mbind result_bind] in H. injection H as <- <-.
  exists grays, gD, gB, pD, pB. repeat (split; [assumption || reflexivity |]).
  intros ch. cbn [rgbSlope rgbInterceptY rgbInterceptXMin rgbInterceptXMax].
  unfold reflectance.
  destruct ch as [| [| [| ch]]]; repeat split.
Qed.

(** X8: [computeRGBResponse] returns exactly when every patch median can be
    measured, the gray ramp can be read from the chart, and there are at
    least five patches: with fewer, the patch four places before the last
    does not exist. *)
Theorem computeRGBResponse_returns_iff (table : list (list Z)) (isp : CameraIsp)
    (raw : Image) (isRaw : bool) (colorPatches : list ColorPatch) :
  (exists out, computeRGBResponse table isp raw isRaw colorPatches = Ok out)
  <-> (exists measured grays,
         computeRGBMedians isp colorPatches raw isRaw = Ok measured
         /\ getMacBethGrays table = Ok grays)
      /\ (5 <= length colorPatches)%nat.
Proof.
  split.
  - intros [[measured r] H].
    apply computeRGBResponse_Ok in H
      as (grays & gD & gB & pD & pB & Hm & Hg & _ & _ & _ & HpB & _).
    split; [eauto |].
    apply mapMr_length in Hm. unfold kBrightIdx in HpB. unfold vec_at in HpB.
    destruct (Z.ltb_spec (Z.of_nat (length measured) - 1 - 4) 0); [discriminate | lia].
  - intros [(measured & grays & Hm & Hg) Hlen].
    pose proof (mapMr_length _ _ _ Hm) as Hl.
    pose proof (getMacBethGrays_length _ _ Hg) as Hgl.
    unfold computeRGBResponse. rewrite Hm. cbn [mbind result_bind].
    rewrite Hg. cbn [mbind result_bind].
    destruct (lookup_lt_is_Some_2 grays 1) as [gD HgD]; [lia |].
    destruct (lookup_lt_is_Some_2 grays 4) as [gB HgB]; [lia |].
    destruct (lookup_lt_is_Some_2 measured (length measured - 2)) as [pD HpD]; [lia |].
    destruct (lookup_lt_is_Some_2 measured (length measured - 5)) as [pB HpB]; [lia |].
    assert (HD : vec_at grays kDarkIdx = Ok gD) by apply (vec_at_of_nat grays 1 gD HgD).
    assert (HB : vec_at grays kBrightIdx = Ok gB) by apply (vec_at_of_nat grays 4 gB HgB).
    rewrite HD. cbn [mbind result_bind]. rewrite HB. cbn [mbind result_bind].
    replace (Z.of_nat (length measured) - 1 - kDarkIdx)
      with (Z.of_nat (length measured - 2)) by (unfold kDarkIdx; lia).
    rewrite (vec_at_of_nat _ _ _ HpD). cbn [mbind result_bind].
    replace (Z.of_nat (length measured) - 1 - kBrightIdx)
      with (Z.of_nat (length measured - 5)) by (unfold kBrightIdx; lia).
    rewrite (vec_at_of_nat _ _ _ HpB). cbn [mbind result_bind].
    eauto.
Qed.

(** X9: With fewer than five patches [computeRGBResponse] has no defined
    result, whatever the image and the chart. *)
Theorem computeRGBResponse_too_few_patches (table : list (list Z)) (isp : CameraIsp)
    (raw : Image) (isRaw : bool) (colorPatches : list ColorPatch) :
  (length colorPatches < 5)%nat ->
  computeRGBResponse table isp raw isRaw colorPatches = Undefined.
Proof.
  intros Hlen. unfold computeRGBResponse.
  destruct (computeRGBMedians_Ok_or_Undefined isp colorPatches raw isRaw)
    as [[measured Hm] | ->]; [| reflexivity].
  rewrite Hm. cbn [mbind result_bind].
  destruct (getMacBethGrays_Ok_or_Undefined table) as [[grays ->] | ->];
    [| reflexivity].
  cbn [mbind result_bind].
  destruct (vec_at_Ok_or_Undefined grays kDarkIdx) as [[gD ->] | ->];
    [| reflexivity].
  cbn [mbind result_bind].
  destruct (vec_at_Ok_or_Undefined grays kBrightIdx) as [[gB ->] | ->];
    [| reflexivity].
  cbn [mbind result_bind].
  destruct (vec_at_Ok_or_Undefined measured (Z.of_nat (length measured) - 1 - kDarkIdx))
    as [[pD ->] | ->]; [| reflexivity].
  cbn [mbind result_bind].
  apply mapMr_length in Hm.
  assert (Hb : vec_at measured (Z.of_nat (length measured) - 1 - kBrightIdx)
               = @Undefined ColorPatch).
  { unfold vec_at, kBrightIdx.
    destruct (Z.ltb_spec (Z.of_nat (length measured) - 1 - 4) 0); [reflexivity | lia]. }
  rewrite Hb. reflexivity.
Qed.

Lemma computeRGBResponse_too_few_patches_witness :
  computeRGBResponse sampleChart sampleIsp grayRampImage false (take 4 grayRampPatches)
  = Undefined.
Proof.
  apply computeRGBResponse_too_few_patches. simpl. lia.
Defined.

Lemma reflectance_distinct (g1 g2 : Z) :
  g1 <> g2 -> ~ (reflectance g1 - reflectance g2 == 0)%Q.
Proof.
  intros Hne H. apply Hne. apply inject_Z_injective.
  unfold reflectance in H.
  set (a := inject_Z g1) in *. set (b := inject_Z g2) in *. clearbody a b.
  assert (E : (a == (a / 255 - b / 255) * 255 + b)%Q) by field.
  rewrite E, H. ring.
Qed.

(** X10: The fitted line passes through both gray points, and the x-domain
    bounds are where it meets y = 0 and y = 1: with distinct gray values,
    slope * xDark + interceptY = yDark and slope * xBright + interceptY =
    yBright on every channel, and on a channel whose slope is not zero
    slope * xMin + interceptY = 0 and slope * xMax + interceptY = 1. *)
Theorem computeRGBResponse_line_through_gray_points
    (table : list (list Z)) (isp : CameraIsp) (raw : Image) (isRaw : bool)
    (colorPatches measured : list ColorPatch) (r : ColorResponse) :
  computeRGBResponse table isp raw isRaw colorPatches = Ok (measured, r) ->
  exists grays gDark gBright pDark pBright,
    getMacBethGrays table = Ok grays
    /\ vec_at grays kDarkIdx = Ok gDark
    /\ vec_at grays kBrightIdx = Ok gBright
    /\ vec_at measured (Z.of_nat (length measured) - 1 - kDarkIdx) = Ok pDark
    /\ vec_at measured (Z.of_nat (length measured) - 1 - kBrightIdx) = Ok pBright
    /\ (gBright <> gDark ->
        forall ch,
          let slope := cv.at3 (rgbSlope r) ch in
          let interceptY := cv.at3 (rgbInterceptY r) ch in
          (slope * reflectance gDark + interceptY == cv.at3 (rgbMedian pDark) ch
           /\ slope * reflectance gBright + interceptY
              == cv.at3 (rgbMedian pBright) ch
           /\ (~ slope == 0 ->
               slope * cv.at3 (rgbInterceptXMin r) ch + interceptY == 0
               /\ slope * cv.at3 (rgbInterceptXMax r) ch + interceptY == 1))%Q).
Proof.
  intros H. apply computeRGBResponse_Ok in H
    as (grays & gD & gB & pD & pB & _ & Hg & HgD & HgB & HpD & HpB & Hr).
  exists grays, gD, gB, pD, pB. repeat (split; [assumption |]).
  intros Hne ch. cbn zeta.
  destruct (Hr ch) as (Hs & Hb & Hmin & Hmax).
  pose proof (reflectance_distinct gB gD Hne) as Hx.
  split; [| split].
  - rewrite Hb. ring.
  - rewrite Hb, Hs. field. exact Hx.
  - intros Hslope. rewrite Hmin, Hmax. split; field; exact Hslope.
Qed.

Lemma computeRGBResponse_line_through_gray_points_witness :
  exists r,
    computeRGBResponse sampleChart sampleIsp grayRampImage false grayRampPatches
    = Ok (grayRampMeasured, r)
    /\ forall ch,
        (cv.at3 (rgbSlope r) ch * reflectance 51 + cv.at3 (rgbInterceptY r) ch == 0.25
         /\ cv.at3 (rgbSlope r) ch * reflectance 204 + cv.at3 (rgbInterceptY r) ch
            == 0.75)%Q.
Proof.
  destruct (computeRGBResponse sampleChart sampleIsp grayRampImage false grayRampPatches)
    as [[measured r] | | |] eqn:E; try (vm_compute in E; discriminate).
  assert (Hm : measured = grayRampMeasured).
  { vm_compute in E. injection E as <- _. reflexivity. }
  subst measured. exists r. split; [reflexivity |].
  destruct (computeRGBResponse_line_through_gray_points _ _ _ _ _ _ _ E)
    as (grays & gD & gB & pD & pB & Hg & HgD & HgB & HpD & HpB & Hline).
  vm_compute in Hg. injection Hg as <-.
  vm_compute in HgD. injection HgD as <-.
  vm_compute in HgB. injection HgB as <-.
  vm_compute in HpD. injection HpD as <-.
  vm_compute in HpB. injection HpB as <-.
  intros ch. destruct (Hline ltac:(discriminate) ch) as (Hd & Hb & _).
  split; [rewrite Hd | rewrite Hb]; destruct ch as [| [| [| ch]]]; reflexivity.
Defined.

(** X11: White balance undoes the fitted slope: on a channel where the dark and
    the bright reading differ (and the two gray values differ), the gain
    times the slope is 1, so the gain maps the difference of the two
    readings to the difference of the two reflectances. *)
Theorem computeWhiteBalanceGains_unit_slope
    (table : list (list Z)) (isp : CameraIsp) (raw : Image) (isRaw : bool)
    (colorPatches measured : list ColorPatch) (r : ColorResponse) :
  computeRGBResponse table isp raw isRaw colorPatches = Ok (measured, r) ->
  exists grays gDark gBright pDark pBright,
    getMacBethGrays table = Ok grays
    /\ vec_at grays kDarkIdx = Ok gDark
    /\ vec_at grays kBrightIdx = Ok gBright
    /\ vec_at measured (Z.of_nat (length measured) - 1 - kDarkIdx) = Ok pDark
    /\ vec_at measured (Z.of_nat (length measured) - 1 - kBrightIdx) = Ok pBright
    /\ (gBright <> gDark ->
        forall ch,
          let yDark := cv.at3 (rgbMedian pDark) ch in
          let yBright := cv.at3 (rgbMedian pBright) ch in
          let gain := cv.at3 (computeWhiteBalanceGains r) ch in
          (~ yBright == yDark ->
           gain * cv.at3 (rgbSlope r) ch == 1
           /\ gain * (yBright - yDark) == reflectance gBright - reflectance gDark)%Q).
Proof.
  intros H. apply computeRGBResponse_Ok in H
    as (grays & gD & gB & pD & pB & _ & Hg & HgD & HgB & HpD & HpB & Hr).
  exists grays, gD, gB, pD, pB. repeat (split; [assumption |]).
  intros Hne ch. cbn zeta. intros Hy.
  destruct (Hr ch) as (Hs & _).
  pose proof (reflectance_distinct gB gD Hne) as Hx.
  assert (Hgain : cv.at3 (computeWhiteBalanceGains r) ch
                  = (1 / cv.at3 (rgbSlope r) ch)%Q).
  { unfold computeWhiteBalanceGains, cv.divide3.
    destruct ch as [| [| [| ch]]]; reflexivity. }
  rewrite Hgain, Hs.
  assert (Hd : ~ (cv.at3 (rgbMedian pB) ch - cv.at3 (rgbMedian pD) ch == 0)%Q)
    by (intros Hz; apply Hy; lra).
  split; field; split; assumption.
Qed.

Lemma computeWhiteBalanceGains_unit_slope_witness :
  exists r,
    computeRGBResponse sampleChart sampleIsp grayRampImage false grayRampPatches
    = Ok (grayRampMeasured, r)
    /\ forall ch,
        (cv.at3 (computeWhiteBalanceGains r) ch * cv.at3 (rgbSlope r) ch == 1)%Q.
Proof.
  destruct (computeRGBResponse sampleChart sampleIsp grayRampImage false grayRampPatches)
    as [[measured r] | | |] eqn:E; try (vm_compute in E; discriminate).
  assert (Hm : measured = grayRampMeasured).
  { vm_compute in E. injection E as <- _. reflexivity. }
  subst measured. exists r. split; [reflexivity |].
  destruct (computeWhiteBalanceGains_unit_slope _ _ _ _ _ _ _ E)
    as (grays & gD & gB & pD & pB & Hg & HgD & HgB & HpD & HpB & Hgain).
  vm_compute in Hg. injection Hg as <-.
  vm_compute in HgD. injection HgD as <-.
  vm_compute in HgB. injection HgB as <-.
  vm_compute in HpD. injection HpD as <-.
  vm_compute in HpB. injection HpB as <-.
  intros ch. apply (Hgain ltac:(discriminate) ch).
  destruct ch as [| [| [| ch]]]; intros H; vm_compute in H; discriminate.
Defined.

(** ** Clamp bounds *)

(** X12: The clamp interval of a channel is not empty exactly when the line
    does not decrease from xMin to xMax, is not negative at xMax and is not
    above 1 at xMin. *)
Theorem clampAndStretch_interval_nonempty_iff
    (isp : CameraIsp) (rawRef raw : Image) (colorResponse : ColorResponse)
    (rgbClampMin rgbClampMax : cv.Vec3f) (ch : nat) :
  let line x :=
    (cv.at3 (rgbSlope colorResponse) ch * x
     + cv.at3 (rgbInterceptY colorResponse) ch)%Q in
  let out := clampAndStretch isp rawRef raw colorResponse rgbClampMin rgbClampMax in
  (cv.at3 (snd (fst out)) ch <= cv.at3 (snd out) ch
   <-> line (cv.c0 rgbClampMin) <= line (cv.c0 rgbClampMax)
       /\ 0 <= line (cv.c0 rgbClampMax)
       /\ line (cv.c0 rgbClampMin) <= 1)%Q.
Proof.
  cbn zeta. unfold clampAndStretch. cbn [fst snd].
  rewrite !at3_init3_any.
  assert (Hline : forall (m b : cv.Vec3f) (s : Q),
             cv.at3 (cv.add3 (cv.scale3 m s) b) (Nat.min ch 2)
             = (cv.at3 m ch * s + cv.at3 b ch)%Q).
  { intros m b s. destruct ch as [| [| [| ch]]]; reflexivity. }
  rewrite !Hline. cbn [cv.at3].
  rewrite fmaxf_Qmax, fminf_Qmin, Q.min_glb_iff, !Q.max_lub_iff.
  split.
  - intros ((_ & H1) & (H0 & Hle)). repeat split; assumption.
  - intros (Hle & H0 & H1). repeat split; try assumption. discriminate.
Qed.

(** ** Patch errors *)

Lemma patchErrorStep_Ok (table : list (list Z)) (sqrtQ : Q -> Q)
    (before after : cv.Mat cv.Vec3f) (n : Z)
    (eB eA eB' eA' : cv.Vec4f) (i : nat) (cp : ColorPatch) :
  patchErrorStep table sqrtQ before after n (eB, eA) (i, cp) = Ok (eB', eA') ->
  (exists vb, cv.atPoint before (cv.toPoint (centroid cp)) = Ok vb)
  /\ (exists va, cv.atPoint after (cv.toPoint (centroid cp)) = Ok va)
  /\ (exists row, table !! i = Some row /\ (3 <= length row)%nat)
  /\ let diffB := cv.sub3 (rgbMedian cp) (chartVec table i) in
     let diffA := cv.sub3 (pixelAt after (centroid cp)) (chartVec table i) in
     eB' = cv.mkVec4f (cv.e0 eB + norm3 sqrtQ diffB / inject_Z n)%Q
                      (cv.e1 eB + Qabs (cv.c0 diffB) / inject_Z n)%Q
                      (cv.e2 eB + Qabs (cv.c1 diffB) / inject_Z n)%Q
                      (cv.e3 eB + Qabs (cv.c2 diffB) / inject_Z n)%Q
     /\ eA' = cv.mkVec4f (cv.e0 eA + norm3 sqrtQ diffA / inject_Z n)%Q
                         (cv.e1 eA + Qabs (cv.c0 diffA) / inject_Z n)%Q
                         (cv.e2 eA + Qabs (cv.c1 diffA) / inject_Z n)%Q
                         (cv.e3 eA + Qabs (cv.c2 diffA) / inject_Z n)%Q.
Proof.
  unfold patchErrorStep. intros H.
  destruct (cv.atPoint before _) as [vb | | |] eqn:Eb; try discriminate.
  cbn [mbind result_bind] in H.
  destruct (cv.atPoint after _) as [va | | |] eqn:Ea; try discriminate.
  cbn [mbind result_bind] in H.
  destruct (vec_at table (Z.of_nat i)) as [row | | |] eqn:Er; try discriminate.
  cbn [mbind result_bind] in H.
  unfold vec_at in Er. destruct (Z.of_nat i <? 0); [discriminate |].
  rewrite Nat2Z.id in Er.
  destruct (table !! i) as [row' |] eqn:Et; [| discriminate]. injection Er as ->.
  destruct row as [| m0 [| m1 [| m2 row]]]; try discriminate.
  cbn in H. injection H as <- <-.
  split; [eauto |]. split; [eauto |].
  split; [exists (m0 :: m1 :: m2 :: row); split; [reflexivity | simpl; lia] |].
  cbn zeta. unfold pixelAt, chartVec. rewrite Ea, Et. cbn. split; reflexivity.
Qed.

(** The error loop on any list of numbered patches, from any pair of
    accumulators. *)
Lemma error_loop_sums (table : list (list Z)) (sqrtQ : Q -> Q)
    (before after : cv.Mat cv.Vec3f) (n : Z) (ics : list (nat * ColorPatch)) :
  forall eB eA eB' eA',
    foldlM (patchErrorStep table sqrtQ before after n) ics (eB, eA) = Ok (eB', eA') ->
    let diffB (icp : nat * ColorPatch) :=
      cv.sub3 (rgbMedian (snd icp)) (chartVec table (fst icp)) in
    let diffA (icp : nat * ColorPatch) :=
      cv.sub3 (pixelAt after (centroid (snd icp))) (chartVec table (fst icp)) in
    Forall (fun icp =>
              (exists vb, cv.atPoint before (cv.toPoint (centroid (snd icp))) = Ok vb)
              /\ (exists va, cv.atPoint after (cv.toPoint (centroid (snd icp))) = Ok va)
              /\ exists row, table !! fst icp = Some row /\ (3 <= length row)%nat) ics
    /\ (cv.e0 eB' == cv.e0 eB
          + Qsum (map (fun icp => norm3 sqrtQ (diffB icp)) ics) / inject_Z n)%Q
    /\ (cv.e0 eA' == cv.e0 eA
          + Qsum (map (fun icp => norm3 sqrtQ (diffA icp)) ics) / inject_Z n)%Q
    /\ forall k,
         (cv.at4 eB' (S k) == cv.at4 eB (S k)
            + Qsum (map (fun icp => Qabs (cv.at3 (diffB icp) k)) ics) / inject_Z n)%Q
         /\ (cv.at4 eA' (S k) == cv.at4 eA (S k)
            + Qsum (map (fun icp => Qabs (cv.at3 (diffA icp) k)) ics) / inject_Z n)%Q.
Proof.
  induction ics as [| [i cp] ics IH]; intros eB eA eB' eA' H; cbn [foldlM] in H.
  - injection H as <- <-. cbn zeta. cbn [map Qsum foldr].
    split; [constructor |].
    repeat split; unfold Qdiv; ring.
  - destruct (patchErrorStep table sqrtQ before after n (eB, eA) (i, cp))
      as [[eB1 eA1] | | |] eqn:Es; try discriminate.
    cbn [mbind result_bind] in H.
    apply patchErrorStep_Ok in Es as (Hb & Ha & Hrow & HeB & HeA).
    apply IH in H. cbn zeta in H. destruct H as (Hall & H0B & H0A & Hk).
    cbn zeta. unfold Qsum in *. cbn [map foldr fst snd].
    split; [constructor; [repeat split; assumption | exact Hall] |].
    split; [rewrite H0B, HeB; cbn [cv.e0]; unfold Qdiv; ring |].
    split; [rewrite H0A, HeA; cbn [cv.e0]; unfold Qdiv; ring |].
    intros k. destruct (Hk k) as [HkB HkA]. rewrite HkB, HkA, HeB, HeA.
    split; destruct k as [| [| [| k]]]; cbn [cv.at4 cv.at3 cv.e1 cv.e2 cv.e3];
      unfold Qdiv; ring.
Qed.

(** What a returning call of [computeColorPatchErrors] has run. *)
Lemma computeColorPatchErrors_Ok (table : list (list Z)) (sqrtQ : Q -> Q)
    (imBefore imAfter : nat) (colorPatches : list ColorPatch)
    (σ σ' : Store) (errBefore errAfter : cv.Vec4f) :
  computeColorPatchErrors table sqrtQ imBefore imAfter colorPatches σ
  = Ok (σ', (errBefore, errAfter)) ->
  exists before after,
    σ' !! imBefore = Some before
    /\ σ' !! imAfter = Some after
    /\ foldlM (patchErrorStep table sqrtQ before after
                              (Z.of_nat (length colorPatches)))
              (imap (fun i cp => (i, cp)) colorPatches) (zero4, zero4)
       = Ok (errBefore, errAfter).
Proof.
  unfold computeColorPatchErrors.
  destruct (scaleInPlace kScale imBefore σ) as [σ1 | | |]; try discriminate.
  cbn [mbind result_bind].
  destruct (scaleInPlace kScale imAfter σ1) as [σ2 | | |]; try discriminate.
  cbn [mbind result_bind]. unfold readImage.
  destruct (σ2 !! imBefore) as [mb |] eqn:Eb; try discriminate.
  cbn [mbind result_bind].
  destruct (σ2 !! imAfter) as [ma |] eqn:Ea; try discriminate.
  cbn [mbind result_bind].
  destruct (foldlM _ _ _) as [[eB eA] | | |] eqn:Ef; try discriminate.
  cbn [mbind result_bind]. intros [= <- <- <-].
  exists mb, ma. repeat split; assumption.
Qed.

(** X13: [computeColorPatchErrors] returns only if the chart has a row of three
    values for every patch (so there are no more patches than rows) and
    every centroid, rounded, lies inside both images. *)
Theorem computeColorPatchErrors_bounds (table : list (list Z)) (sqrtQ : Q -> Q)
    (imBefore imAfter : nat) (colorPatches : list ColorPatch)
    (σ σ' : Store) (errs : cv.Vec4f * cv.Vec4f) :
  computeColorPatchErrors table sqrtQ imBefore imAfter colorPatches σ = Ok (σ', errs) ->
  (length colorPatches <= length table)%nat
  /\ exists before after,
       σ' !! imBefore = Some before
       /\ σ' !! imAfter = Some after
       /\ forall i cp,
            colorPatches !! i = Some cp ->
            (exists row, table !! i = Some row /\ (3 <= length row)%nat)
            /\ (exists vb, cv.atPoint before (cv.toPoint (centroid cp)) = Ok vb)
            /\ (exists va, cv.atPoint after (cv.toPoint (centroid cp)) = Ok va).
Proof.
  destruct errs as [errBefore errAfter]. intros H.
  apply computeColorPatchErrors_Ok in H as (before & after & Hb & Ha & Hloop).
  apply error_loop_sums in Hloop. cbn zeta in Hloop. destruct Hloop as [Hall _].
  assert (Hi : forall i cp,
             colorPatches !! i = Some cp ->
             (exists row, table !! i = Some row /\ (3 <= length row)%nat)
             /\ (exists vb, cv.atPoint before (cv.toPoint (centroid cp)) = Ok vb)
             /\ (exists va, cv.atPoint after (cv.toPoint (centroid cp)) = Ok va)).
  { intros i cp Hcp.
    apply (elem_of_lookup_imap_2 (fun i cp => (i, cp))) in Hcp.
    rewrite Forall_forall in Hall. destruct (Hall _ Hcp) as (Hvb & Hva & Hrow).
    cbn [fst snd] in *. repeat split; assumption. }
  split; [| exists before, after; split; [exact Hb |]; split; [exact Ha | exact Hi]].
  destruct colorPatches as [| p l] using rev_ind; [simpl; lia |].
  destruct (Hi (length l) p) as [(row & Hrow & _) _].
  { rewrite lookup_app_r by lia. rewrite Nat.sub_diag. reflexivity. }
  apply lookup_lt_Some in Hrow. rewrite length_app. simpl. lia.
Qed.

Lemma computeColorPatchErrors_bounds_witness :
  exists σ' errs,
    computeColorPatchErrors sampleChart Qsqrt 0 1 [measuredPatch] twoEqualImages
    = Ok (σ', errs)
    /\ (length [measuredPatch] <= length sampleChart)%nat.
Proof.
  destruct (computeColorPatchErrors sampleChart Qsqrt 0 1 [measuredPatch] twoEqualImages)
    as [[σ' errs] | | |] eqn:E; try (vm_compute in E; discriminate).
  exists σ', errs. split; [reflexivity |].
  apply (computeColorPatchErrors_bounds _ _ _ _ _ _ _ _ E).
Defined.

(** X14: What the two error vectors are.  With [n] patches, component 0 of
    either vector is the sum over the patches of the norm of a difference
    to the patch's chart row, divided by [n], and components 1 to 3 are the
    sums of the absolute channel differences divided by [n].  For the after
    vector the difference is taken from the pixel under the centroid in the
    after image as the call leaves it (scaled by 255); for the before
    vector it is taken from the patch's stored median. *)
Theorem computeColorPatchErrors_means (table : list (list Z)) (sqrtQ : Q -> Q)
    (imBefore imAfter : nat) (colorPatches : list ColorPatch)
    (σ σ' : Store) (errBefore errAfter : cv.Vec4f) :
  computeColorPatchErrors table sqrtQ imBefore imAfter colorPatches σ
  = Ok (σ', (errBefore, errAfter)) ->
  exists after,
    σ' !! imAfter = Some after
    /\ let n := inject_Z (Z.of_nat (length colorPatches)) in
       let diffB i cp := cv.sub3 (rgbMedian cp) (chartVec table i) in
       let diffA i cp := cv.sub3 (pixelAt after (centroid cp)) (chartVec table i) in
       (cv.e0 errBefore
        == Qsum (imap (fun i cp => norm3 sqrtQ (diffB i cp)) colorPatches) / n)%Q
       /\ (cv.e0 errAfter
           == Qsum (imap (fun i cp => norm3 sqrtQ (diffA i cp)) colorPatches) / n)%Q
       /\ forall k,
            (cv.at4 errBefore (S k)
             == Qsum (imap (fun i cp => Qabs (cv.at3 (diffB i cp) k)) colorPatches) / n)%Q
            /\ (cv.at4 errAfter (S k)
                == Qsum (imap (fun i cp => Qabs (cv.at3 (diffA i cp) k)) colorPatches)
                   / n)%Q.
Proof.
  intros H.
  apply computeColorPatchErrors_Ok in H as (before & after & Hb & Ha & Hloop).
  exists after. split; [exact Ha |].
  apply error_loop_sums in Hloop. cbn zeta in Hloop.
  destruct Hloop as (_ & H0B & H0A & Hk).
  rewrite !fmap_imap in H0B, H0A. unfold compose in H0B, H0A.
  cbn [fst snd] in H0B, H0A. cbn zeta.
  split; [rewrite H0B; cbn [zero4 cv.e0]; unfold Qdiv; ring |].
  split; [rewrite H0A; cbn [zero4 cv.e0]; unfold Qdiv; ring |].
  intros k. destruct (Hk k) as [HkB HkA]. rewrite !fmap_imap in HkB, HkA.
  unfold compose in HkB, HkA. cbn [fst snd] in HkB, HkA.
  split; [rewrite HkB | rewrite HkA];
    destruct k as [| [| [| k]]]; cbn [zero4 cv.at4 cv.e1 cv.e2 cv.e3];
    unfold Qdiv; ring.
Qed.

Lemma computeColorPatchErrors_means_witness :
  exists σ' errBefore errAfter,
    computeColorPatchErrors sampleChart Qsqrt 0 1 [measuredPatch] twoEqualImages
    = Ok (σ', (errBefore, errAfter))
    /\ (cv.at4 errAfter 1 == Qabs (0.4 * 255 - 115) / 1)%Q
    /\ (cv.at4 errBefore 1 == Qabs (0.4 - 115) / 1)%Q.
Proof.
  destruct (computeColorPatchErrors sampleChart Qsqrt 0 1 [measuredPatch] twoEqualImages)
    as [[σ' [errBefore errAfter]] | | |] eqn:E; try (vm_compute in E; discriminate).
  exists σ', errBefore, errAfter. split; [reflexivity |].
  destruct (computeColorPatchErrors_means _ _ _ _ _ _ _ _ _ E)
    as (after & Ha & _ & _ & Hk).
  assert (Hafter : after = [[cv.mkVec3f (0.4 * 255) (0.3 * 255) (0.2 * 255)]]).
  { vm_compute in E. injection E as <- _ _. vm_compute in Ha.
    injection Ha as <-. reflexivity. }
  subst after. destruct (Hk 0%nat) as [HB HA].
  split; [rewrite HA | rewrite HB]; reflexivity.
Defined.

(** ** Black level *)

(** X15: The threshold search returns the lowest bin of its range whose count
    exceeds the noise floor of 50 pixels, and nothing when no bin of the
    range does; the last representable value is never examined, as the
    range stops before [maxPixelValue]. *)
Theorem firstBinAbove_least (hist : Z -> Q) (n : nat) :
  forall h : Z,
    match firstBinAbove hist h n with
    | Some b =>
        h <= b < h + Z.of_nat n
        /\ (inject_Z kNumPixelsMin < hist b)%Q
        /\ forall h', h <= h' < b -> (hist h' <= inject_Z kNumPixelsMin)%Q
    | None =>
        forall h', h <= h' < h + Z.of_nat n -> (hist h' <= inject_Z kNumPixelsMin)%Q
    end.
Proof.
  induction n as [| n IH]; intros h; cbn [firstBinAbove].
  - intros h' Hh'. lia.
  - destruct (Qltb (inject_Z kNumPixelsMin) (hist h)) eqn:E.
    + apply Qltb_lt in E. split; [lia |]. split; [exact E |]. intros h' Hh'. lia.
    + apply Qltb_ge in E. specialize (IH (h + 1)).
      destruct (firstBinAbove hist (h + 1) n) as [b |].
      * destruct IH as (Hb & Hcount & Hbelow). split; [lia |]. split; [exact Hcount |].
        intros h' Hh'. destruct (Z.eq_dec h' h) as [-> | Hne]; [exact E |].
        apply Hbelow. lia.
      * intros h' Hh'. destruct (Z.eq_dec h' h) as [-> | Hne]; [exact E |].
        apply IH. lia.
Qed.

(** The selection loop with the first index that attains the least norm:
    every earlier contour has a strictly larger norm. *)
Lemma selection_loop_first_minimum
    (isp : CameraIsp) (ocv : OpenCV) (sqrtQ : Q -> Q) (raw16 : cv.Mat Z)
    (contoursFiltered : list Contour) (f : nat -> cv.Vec3f) (m : nat) :
  forall (k : nat) (blackLevels : list cv.Vec3f) (minNorm : Q) (minNormIdx : nat),
    (k + m <= length blackLevels)%nat ->
    (forall i, (k <= i < k + m)%nat ->
               blackLevelOfContour isp ocv raw16 contoursFiltered i = Ok (f i)) ->
    forall blackLevels' minNorm' minNormIdx',
      foldlM (blackLevelStep isp ocv sqrtQ raw16 contoursFiltered) (seq k m)
             (blackLevels, minNorm, minNormIdx)
      = Ok (blackLevels', minNorm', minNormIdx') ->
      (minNormIdx' = minNormIdx /\ minNorm' = minNorm)
      \/ ((k <= minNormIdx' < k + m)%nat
          /\ minNorm' = norm3 sqrtQ (f minNormIdx')
          /\ forall j, (k <= j < minNormIdx')%nat -> (minNorm' < norm3 sqrtQ (f j))%Q).
Proof.
  induction m as [| m IH]; intros k bl mn idx Hlen Hmed bl' mn' idx' Hrun.
  - cbn [seq foldlM] in Hrun. injection Hrun as <- <- <-. left. split; reflexivity.
  - cbn [seq foldlM] in Hrun.
    rewrite (blackLevelStep_Ok _ _ _ _ _ _ _ _ _ (f k)) in Hrun
      by (apply Hmed || idtac; lia).
    cbn [mbind result_bind] in Hrun.
    assert (Hmed' : forall i, (S k <= i < S k + m)%nat ->
              blackLevelOfContour isp ocv raw16 contoursFiltered i = Ok (f i)).
    { intros i Hi. apply Hmed. lia. }
    assert (Hlen' : (S k + m <= length (<[k := f k]> bl))%nat)
      by (rewrite length_insert; lia).
    destruct (Qltb (norm3 sqrtQ (f k)) mn) eqn:Elt.
    + apply Qltb_lt in Elt.
      destruct (IH (S k) _ _ _ Hlen' Hmed' _ _ _ Hrun)
        as [(-> & ->) | (Hidx & Hmn & Hfirst)].
      * right. split; [lia |]. split; [reflexivity |]. intros j Hj. lia.
      * right. split; [lia |]. split; [exact Hmn |].
        intros j Hj. destruct (decide (j = k)) as [-> | Hne].
        -- pose proof (selection_loop_invariant isp ocv sqrtQ raw16 contoursFiltered
                         f m (S k) _ (norm3 sqrtQ (f k)) k Hlen' Hmed')
             as (bl2 & mn2 & idx2 & Hrun2 & _ & _ & _ & Hsel).
           rewrite Hrun in Hrun2. injection Hrun2 as <- <- <-.
           destruct Hsel as [(Hi & _) | (_ & _ & Hless & _)]; [lia | exact Hless].
        -- apply Hfirst. lia.
    + apply Qltb_ge in Elt.
      pose proof (selection_loop_invariant isp ocv sqrtQ raw16 contoursFiltered
                    f m (S k) _ mn idx Hlen' Hmed')
        as (bl2 & mn2 & idx2 & Hrun2 & _ & _ & _ & Hsel).
      rewrite Hrun in Hrun2. injection Hrun2 as <- <- <-.
      destruct Hsel as [(Hi & Hm & _) | (_ & _ & Hless & _)];
        [left; split; assumption |].
      destruct (IH (S k) _ _ _ Hlen' Hmed' _ _ _ Hrun)
        as [(-> & ->) | (Hidx & Hmn & Hfirst)].
      * left. split; reflexivity.
      * right. split; [lia |]. split; [exact Hmn |].
        intros j Hj. destruct (decide (j = k)) as [-> | Hne]; [lra |].
        apply Hfirst. lia.
Qed.

(** The contour [findBlackLevel] selects on a frame it reads inside the
    buffer: the first one whose median has the least norm. *)
Lemma findBlackLevel_selected
    (isp : CameraIsp) (ocv : OpenCV) (sqrtQ : Q -> Q)
    (raw16 : cv.Mat Z) (depth : Depth) (f : nat -> cv.Vec3f) :
  pastBuffer raw16 depth = false ->
  contoursFilteredOf isp ocv raw16 depth <> [] ->
  (forall i, (i < length (contoursFilteredOf isp ocv raw16 depth))%nat ->
     blackLevelOfContour isp ocv raw16 (contoursFilteredOf isp ocv raw16 depth) i
     = Ok (f i)) ->
  (forall i, (i < length (contoursFilteredOf isp ocv raw16 depth))%nat ->
     (norm3 sqrtQ (f i) < DBL_MAX)%Q) ->
  exists k,
    (k < length (contoursFilteredOf isp ocv raw16 depth))%nat
    /\ findBlackLevel isp ocv sqrtQ raw16 depth = Ok (f k)
    /\ (forall j, (j < length (contoursFilteredOf isp ocv raw16 depth))%nat ->
          (norm3 sqrtQ (f k) <= norm3 sqrtQ (f j))%Q)
    /\ (forall j, (j < k)%nat -> (norm3 sqrtQ (f k) < norm3 sqrtQ (f j))%Q).
Proof.
  intros Hread Hne Hmedf Hfinite.
  set (cf := contoursFilteredOf isp ocv raw16 depth) in *.
  destruct (selectionLoop_spec isp ocv sqrtQ raw16 cf f Hmedf)
    as (bl & mn & idx & Hrun & Hl & Hfill & Hsel).
  assert (Hpos : (0 < length cf)%nat).
  { destruct cf; [congruence | simpl; lia]. }
  destruct Hsel as [(-> & Hall) | (Hidx & Hall)].
  { exfalso. specialize (Hall 0%nat Hpos). specialize (Hfinite 0%nat Hpos). lra. }
  exists idx. split; [exact Hidx |]. split.
  { rewrite findBlackLevel_read, Hread. fold cf. rewrite Hrun.
    cbn [mbind result_bind]. apply vec_at_of_nat, Hfill, Hidx. }
  split; [exact Hall |].
  intros j Hj.
  unfold selectionLoop in Hrun.
  assert (Hrep : (0 + length cf <= length (replicate (length cf) zero3))%nat)
    by (rewrite length_replicate; lia).
  assert (Hmed0 : forall i, (0 <= i < 0 + length cf)%nat ->
             blackLevelOfContour isp ocv raw16 cf i = Ok (f i))
    by (intros i Hi; apply Hmedf; lia).
  destruct (selection_loop_first_minimum isp ocv sqrtQ raw16 cf f (length cf) 0
              _ DBL_MAX 0 Hrep Hmed0 bl mn idx Hrun)
    as [(Hi & Hmn) | (_ & Hmn & Hfirst)].
  - lia.
  - rewrite <- Hmn. apply Hfirst. lia.
Qed.

Lemma pastBuffer_other_depth (raw16 : cv.Mat Z) (depth : Depth) :
  depth <> CV_8U -> pastBuffer raw16 depth = false.
Proof. destruct depth; [congruence | reflexivity | reflexivity]. Qed.





(** X16: [findBlackLevel] returns the median of least norm, and among
    surviving contours whose medians share that least norm the one found
    first: on a frame that is not 8-bit, with at least one surviving
    contour and all their medians defined with norms below [DBL_MAX], no
    surviving contour's median has a smaller norm than the returned one and
    every contour before the returned one has a strictly larger norm. *)
Theorem findBlackLevel_first_minimum
    (isp : CameraIsp) (ocv : OpenCV) (sqrtQ : Q -> Q)
    (raw16 : cv.Mat Z) (depth : Depth) (medians : list cv.Vec3f) :
  depth <> CV_8U ->
  contoursFilteredOf isp ocv raw16 depth <> [] ->
  length medians = length (contoursFilteredOf isp ocv raw16 depth) ->
  (forall i m, medians !! i = Some m ->
     blackLevelOfContour isp ocv raw16 (contoursFilteredOf isp ocv raw16 depth) i = Ok m) ->
  (forall m, m ∈ medians -> (norm3 sqrtQ m < DBL_MAX)%Q) ->
  exists k best,
    medians !! k = Some best
    /\ findBlackLevel isp ocv sqrtQ raw16 depth = Ok best
    /\ (forall m, m ∈ medians -> (norm3 sqrtQ best <= norm3 sqrtQ m)%Q)
    /\ forall j m, (j < k)%nat -> medians !! j = Some m ->
                   (norm3 sqrtQ best < norm3 sqrtQ m)%Q.
Proof.
  intros Hdepth Hne Hlen Hmed Hfinite.
  set (cf := contoursFilteredOf isp ocv raw16 depth) in *.
  set (f := fun i => default zero3 (medians !! i)).
  assert (Hf : forall i, (i < length cf)%nat -> medians !! i = Some (f i)).
  { intros i Hi. unfold f.
    destruct (medians !! i) as [m |] eqn:E; [reflexivity |].
    apply lookup_ge_None in E. lia. }
  destruct (findBlackLevel_selected isp ocv sqrtQ raw16 depth f
              (pastBuffer_other_depth raw16 depth Hdepth) Hne)
    as (k & Hk & Hret & Hleast & Hfirst).
  { intros i Hi. apply Hmed, Hf, Hi. }
  { intros i Hi. apply Hfinite, list_elem_of_lookup. exists i. apply Hf, Hi. }
  fold cf in Hk, Hleast.
  exists k, (f k). split; [apply Hf, Hk |]. split; [exact Hret |]. split.
  - intros m Hm. apply list_elem_of_lookup in Hm as [j Hj].
    assert (Hjlt : (j < length cf)%nat) by (apply lookup_lt_Some in Hj; lia).
    rewrite (Hf j Hjlt) in Hj. injection Hj as <-. apply Hleast, Hjlt.
  - intros j m Hj Hm. rewrite (Hf j) in Hm by lia. injection Hm as <-.
    apply Hfirst, Hj.
Qed.

(** X16 on a frame with three blobs, the second and the third equally
    dark: the second is returned. *)
Lemma findBlackLevel_first_minimum_witness :
  threeBlobMedians !! 1%nat = threeBlobMedians !! 2%nat
  /\ exists best,
       threeBlobMedians !! 1%nat = Some best
       /\ findBlackLevel sampleIsp threeBlobOcv Qsqrt threeBlobFrame CV_16U = Ok best.
Proof.
  split; [reflexivity |].
  destruct (findBlackLevel_first_minimum
              sampleIsp threeBlobOcv Qsqrt threeBlobFrame CV_16U threeBlobMedians)
    as (k & best & Hk & Hret & Hleast & Hfirst).
  - discriminate.
  - vm_compute. discriminate.
  - vm_compute. reflexivity.
  - intros i m H. destruct i as [| [| [| i]]]; simpl in H; try discriminate;
      injection H as <-; vm_compute; reflexivity.
  - intros m H. apply list_elem_of_lookup in H as [i H].
    destruct i as [| [| [| i]]]; simpl in H; try discriminate;
      injection H as <-; vm_compute; reflexivity.
  - exists best. split; [| exact Hret].
    destruct k as [| [| [| k]]]; [| exact Hk | | discriminate Hk].
    + exfalso. injection Hk as <-.
      assert (Hin : cv.mkVec3f (200 # 65535) (200 # 65535) (200 # 65535)
                    ∈ threeBlobMedians).
      { apply list_elem_of_lookup. exists 1%nat. reflexivity. }
      specialize (Hleast _ Hin). vm_compute in Hleast. apply Hleast. reflexivity.
    + exfalso. injection Hk as <-.
      specialize (Hfirst 1%nat _ ltac:(lia) eq_refl).
      vm_compute in Hfirst. discriminate Hfirst.
Defined.

(** ** Outlier rejection, continued *)

Lemma filter_length_perm {A} (f : A -> bool) (l k : list A) :
  l ≡ₚ k -> length (List.filter f l) = length (List.filter f k).
Proof.
  induction 1 as [| x l k _ IH | x y l | l k j _ IH1 _ IH2]; simpl.
  - reflexivity.
  - destruct (f x); simpl; rewrite IH; reflexivity.
  - destruct (f x), (f y); reflexivity.
  - rewrite IH1. exact IH2.
Qed.

Lemma filter_length_all {A} (f : A -> bool) (l : list A) :
  Forall (fun x => f x = true) l -> length (List.filter f l) = length l.
Proof.
  induction 1 as [| x l Hx _ IH]; simpl; [reflexivity |].
  rewrite Hx. simpl. rewrite IH. reflexivity.
Qed.

Lemma filter_length_none {A} (f : A -> bool) (l : list A) :
  Forall (fun x => f x = false) l -> length (List.filter f l) = 0%nat.
Proof.
  induction 1 as [| x l Hx _ IH]; simpl; [reflexivity |].
  rewrite Hx. exact IH.
Qed.

Lemma filter_length_le {A} (f : A -> bool) (l : list A) :
  (length (List.filter f l) <= length l)%nat.
Proof.
  induction l as [| x l IH]; simpl; [lia |]. destruct (f x); simpl; lia.
Qed.

Lemma kept_length {A B} (keep : B -> bool) (l : list A) (k : list B) :
  length l = length k ->
  length (map fst (List.filter (fun pd => keep (snd pd)) (zip l k)))
  = length (List.filter keep k).
Proof.
  revert k. induction l as [| a l IH]; intros [| b k] Hlen; simpl in *;
    try lia; try reflexivity.
  destruct (keep b); simpl; rewrite IH by lia; reflexivity.
Qed.

(** What a returning call of [removeContourOutliers] has computed. *)
Lemma removeContourOutliers_Ok (sqrtQ : Q -> Q) (colorPatchList out : list ColorPatch) :
  removeContourOutliers sqrtQ colorPatchList = Ok out ->
  exists median,
    std_sort Qltb (minDistancesOf sqrtQ colorPatchList)
      !! (length colorPatchList / 2)%nat = Some median
    /\ out = map fst (List.filter (fun pd => Qltb (snd pd) (2 * median))
                                  (zip colorPatchList (minDistancesOf sqrtQ colorPatchList))).
Proof.
  unfold removeContourOutliers.
  set (minDistances := minDistancesOf sqrtQ colorPatchList).
  set (sorted := std_sort Qltb minDistances).
  assert (Hlen : length sorted = length colorPatchList).
  { unfold sorted, minDistances, minDistancesOf.
    rewrite std_sort_length, length_imap. reflexivity. }
  replace (Z.of_nat (length sorted) / 2) with (Z.of_nat (length colorPatchList / 2))
    by (rewrite Hlen; apply (Nat2Z.inj_div _ 2)).
  unfold vec_at.
  destruct (Z.ltb_spec (Z.of_nat (length colorPatchList / 2)) 0); [discriminate |].
  rewrite Nat2Z.id.
  destruct (sorted !! (length colorPatchList / 2)%nat) as [median |]; [| discriminate].
  cbn [mbind result_bind]. intros [= <-]. exists median. split; [reflexivity |].
  apply (omap_as_filter (fun d => Qltb d (2 * median))).
Qed.

(** X17: Outlier rejection keeps more than half of the patches when the median
    minimum distance is positive, and at most half of them when it is not
    (as when most centroids coincide). *)
Theorem removeContourOutliers_majority
    (sqrtQ : Q -> Q) (colorPatchList out : list ColorPatch) :
  removeContourOutliers sqrtQ colorPatchList = Ok out ->
  exists median,
    std_sort Qltb (minDistancesOf sqrtQ colorPatchList)
      !! (length colorPatchList / 2)%nat = Some median
    /\ ((0 < median)%Q -> (length colorPatchList / 2 < length out)%nat)
    /\ ((median <= 0)%Q -> (length out <= length colorPatchList / 2)%nat).
Proof.
  intros H. apply removeContourOutliers_Ok in H as (median & Hmed & ->).
  exists median. split; [exact Hmed |].
  set (ds := minDistancesOf sqrtQ colorPatchList) in *.
  set (s := std_sort Qltb ds) in *.
  set (k := (length colorPatchList / 2)%nat) in *.
  assert (Hds : length colorPatchList = length ds)
    by (unfold ds, minDistancesOf; rewrite length_imap; reflexivity).
  rewrite (kept_length (fun d => Qltb d (2 * median))) by exact Hds.
  rewrite <- (filter_length_perm _ s ds) by apply std_sort_perm.
  destruct (sorted_split s k median (std_sort_Qle ds) Hmed) as [Hlo Hhi].
  pose proof (lookup_lt_Some _ _ _ Hmed) as Hk.
  rewrite <- (take_drop (S k) s), List.filter_app, length_app.
  split.
  - intros Hpos.
    rewrite filter_length_all.
    + rewrite length_take. lia.
    + rewrite (take_S_r s k median Hmed). apply Forall_app. split.
      * eapply Forall_impl; [exact Hlo |]. cbn beta. intros d Hd.
        apply Qltb_lt. lra.
      * constructor; [| constructor]. apply Qltb_lt. lra.
  - intros Hnonpos.
    rewrite (filter_length_none _ (drop (S k) s)).
    + rewrite (take_S_r s k median Hmed), List.filter_app, length_app. simpl.
      assert (Hm : Qltb median (2 * median) = false) by (apply Qltb_ge; lra).
      rewrite Hm. simpl.
      pose proof (filter_length_le (fun d => Qltb d (2 * median)) (take k s)) as Hle.
      rewrite length_take in Hle. lia.
    + eapply Forall_impl; [exact Hhi |]. cbn beta. intros d Hd.
      apply Qltb_ge. lra.
Qed.

Lemma removeContourOutliers_majority_witness :
  exists median,
    std_sort Qltb (minDistancesOf Qsqrt linePatches) !! (length linePatches / 2)%nat
    = Some median
    /\ ((0 < median)%Q -> (length linePatches / 2 < length (take 3 linePatches))%nat)
    /\ ((median <= 0)%Q -> (length (take 3 linePatches) <= length linePatches / 2)%nat).
Proof.
  apply (removeContourOutliers_majority Qsqrt linePatches (take 3 linePatches)).
  vm_compute. reflexivity.
Defined.

(** ** Patch ordering *)

Lemma take_drop_taken {A} (n : nat) (l : list A) :
  take n l ++ drop (length (take n l)) l = l.
Proof.
  rewrite length_take. destruct (Nat.le_ge_cases n (length l)) as [H | H].
  - rewrite Nat.min_l by exact H. apply take_drop.
  - rewrite Nat.min_r by exact H. rewrite take_ge, drop_ge by lia.
    apply app_nil_r.
Qed.

(** The row loop only rearranges: what it returns is a permutation of the
    centroids already placed followed by the centroids still to place. *)
Lemma sortRows_perm (sqrtQ : Q -> Q) (numSquaresW imageWidth : Z) (fuel : nat) :
  forall centroids centroidsSorted out,
    sortRows sqrtQ fuel numSquaresW imageWidth centroids centroidsSorted = Some out ->
    out ≡ₚ centroidsSorted ++ centroids.
Proof.
  induction fuel as [| fuel IH]; intros centroids acc out H.
  - destruct centroids; [| discriminate]. injection H as <-.
    rewrite app_nil_r. reflexivity.
  - destruct centroids as [| c centroids].
    { injection H as <-. rewrite app_nil_r. reflexivity. }
    cbn [sortRows] in H. apply IH in H. rewrite H.
    rewrite std_sort_length.
    set (cs' := std_sort _ (c :: centroids)).
    rewrite <- app_assoc. apply Permutation_app_head.
    rewrite (std_sort_perm _ (take (Z.to_nat numSquaresW) cs')).
    rewrite take_drop_taken. apply std_sort_perm.
Qed.

Lemma eqPoint2f_refl (p : cv.Point2f) : eqPoint2f p p = true.
Proof.
  unfold eqPoint2f. rewrite !(proj2 (Qeq_bool_iff _ _)) by reflexivity. reflexivity.
Qed.

Lemma eqPoint2f_trans_r (p q c : cv.Point2f) :
  eqPoint2f q c = true -> eqPoint2f p q = eqPoint2f p c.
Proof.
  unfold eqPoint2f. intros H. apply andb_true_iff in H as [Hx Hy].
  apply Qeq_bool_iff in Hx, Hy.
  assert (E : forall a b b' : Q, (b == b')%Q -> Qeq_bool a b = Qeq_bool a b').
  { intros a b b' Hb. destruct (Qeq_bool a b) eqn:E1, (Qeq_bool a b') eqn:E2;
      try reflexivity.
    - apply Qeq_bool_iff in E1. rewrite Hb in E1. apply Qeq_bool_iff in E1. congruence.
    - apply Qeq_bool_iff in E2. rewrite <- Hb in E2. apply Qeq_bool_iff in E2.
      congruence. }
  rewrite (E _ _ _ Hx), (E _ _ _ Hy). reflexivity.
Qed.

Lemma find_ext {A} (f g : A -> bool) (l : list A) :
  (forall x, f x = g x) -> List.find f l = List.find g l.
Proof.
  intros H. induction l as [| x l IH]; simpl; [reflexivity |].
  rewrite H, IH. reflexivity.
Qed.

(** Every centroid of the list is matched by the re-ordering loop, and by
    the first patch of the list that has it. *)
Lemma find_by_centroid (colorPatchList : list ColorPatch) (c : cv.Point2f) :
  c ∈ map centroid colorPatchList ->
  exists p,
    List.find (fun cp => eqPoint2f (centroid cp) c) colorPatchList = Some p
    /\ p ∈ colorPatchList
    /\ List.find (fun cp => eqPoint2f (centroid cp) (centroid p)) colorPatchList
       = Some p.
Proof.
  intros Hc.
  destruct (List.find (fun cp => eqPoint2f (centroid cp) c) colorPatchList)
    as [p |] eqn:E.
  - exists p. split; [reflexivity |].
    pose proof (find_some _ _ E) as [Hin Heq].
    split; [apply list_elem_of_In; exact Hin |].
    rewrite <- E. apply find_ext. intros cp. symmetry.
    apply eqPoint2f_trans_r.
    unfold eqPoint2f in *. apply andb_true_iff in Heq as [Hx Hy].
    apply Qeq_bool_iff in Hx, Hy.
    rewrite !(proj2 (Qeq_bool_iff _ _)) by (symmetry; assumption). reflexivity.
  - exfalso. apply list_elem_of_fmap in Hc as (p & -> & Hp).
    apply list_elem_of_In in Hp.
    pose proof (find_none _ _ E p Hp) as Hf. cbn beta in Hf.
    rewrite eqPoint2f_refl in Hf. discriminate.
Qed.

Lemma omap_all_found {A B} (g : A -> option B) (l : list A) :
  (forall a, a ∈ l -> exists b, g a = Some b) ->
  length (omap g l) = length l
  /\ forall b, b ∈ omap g l -> exists a, a ∈ l /\ g a = Some b.
Proof.
  intros H. split.
  - induction l as [| a l IH]; [reflexivity |].
    destruct (H a) as [b Hb]; [apply elem_of_cons; left; reflexivity |].
    cbn. rewrite Hb. cbn. f_equal. apply IH.
    intros a' Ha'. apply H. apply elem_of_cons. right. exact Ha'.
  - intros b Hb. apply list_elem_of_omap in Hb. exact Hb.
Qed.

(** What a returning call of [sortPatches] has computed. *)
Lemma sortPatches_Ok (sqrtQ : Q -> Q) (colorPatchList sorted : list ColorPatch)
    (numSquaresW imageWidth : Z) :
  sortPatches sqrtQ colorPatchList numSquaresW imageWidth = Ok sorted ->
  exists centroidsSorted,
    sortRows sqrtQ (length (map centroid colorPatchList)) numSquaresW imageWidth
             (map centroid colorPatchList) [] = Some centroidsSorted
    /\ centroidsSorted ≡ₚ map centroid colorPatchList
    /\ sorted = omap (fun c => List.find (fun cp => eqPoint2f (centroid cp) c)
                                         colorPatchList) centroidsSorted.
Proof.
  unfold sortPatches.
  destruct (sortRows _ _ _ _ _ _) as [cs |] eqn:E; [| discriminate].
  intros [= <-]. exists cs. split; [reflexivity |]. split; [| reflexivity].
  apply sortRows_perm in E. exact E.
Qed.

(** X18: [sortPatches] never exits its row loop exactly when [numSquaresW] is
    not positive and there is a patch to place; in every other case it
    returns. *)
Theorem sortPatches_diverges_iff (sqrtQ : Q -> Q) (colorPatchList : list ColorPatch)
    (numSquaresW imageWidth : Z) :
  (sortPatches sqrtQ colorPatchList numSquaresW imageWidth = Diverges
   <-> numSquaresW <= 0 /\ colorPatchList <> [])
  /\ (sortPatches sqrtQ colorPatchList numSquaresW imageWidth <> Diverges ->
      exists sorted,
        sortPatches sqrtQ colorPatchList numSquaresW imageWidth = Ok sorted).
Proof.
  assert (Hcases : (numSquaresW <= 0 /\ colorPatchList <> [])
                   \/ 1 <= numSquaresW \/ colorPatchList = []).
  { destruct colorPatchList; [right; right; reflexivity |].
    destruct (Z.le_gt_cases numSquaresW 0); [left; split; [lia | discriminate] |].
    right. left. lia. }
  destruct Hcases as [[HW Hne] | Hret].
  - assert (Hd : sortPatches sqrtQ colorPatchList numSquaresW imageWidth = Diverges).
    { unfold sortPatches. rewrite sortRows_stuck; [reflexivity | exact HW |].
      destruct colorPatchList; [congruence | discriminate]. }
    split; [split; [intros _; split; assumption | intros _; exact Hd] |].
    intros H. congruence.
  - assert (Hok : exists sorted,
               sortPatches sqrtQ colorPatchList numSquaresW imageWidth = Ok sorted).
    { destruct Hret as [HW | ->]; [apply sortPatches_returns, HW |].
      exists []. destruct numSquaresW; reflexivity. }
    destruct Hok as [sorted Hok]. rewrite Hok.
    split; [split; [discriminate |] | eauto].
    intros [HW Hne]. destruct Hret as [HW' | ->]; [lia | congruence].
Qed.

(** X19: [sortPatches] loses no position: for [numSquaresW >= 1] it returns as
    many patches as it was given, each of them a patch of the input, and
    each the first patch of the input that has its centroid. *)
Theorem sortPatches_first_match (sqrtQ : Q -> Q) (colorPatchList : list ColorPatch)
    (numSquaresW imageWidth : Z) :
  1 <= numSquaresW ->
  exists sorted,
    sortPatches sqrtQ colorPatchList numSquaresW imageWidth = Ok sorted
    /\ length sorted = length colorPatchList
    /\ forall p, p ∈ sorted ->
         p ∈ colorPatchList
         /\ List.find (fun cp => eqPoint2f (centroid cp) (centroid p)) colorPatchList
            = Some p.
Proof.
  intros HW.
  destruct (sortPatches_returns sqrtQ colorPatchList numSquaresW imageWidth HW)
    as [sorted Hs].
  exists sorted. split; [exact Hs |].
  apply sortPatches_Ok in Hs as (cs & _ & Hperm & ->).
  assert (Hfound : forall c, c ∈ cs ->
            exists p, List.find (fun cp => eqPoint2f (centroid cp) c) colorPatchList
                      = Some p).
  { intros c Hc. rewrite Hperm in Hc.
    destruct (find_by_centroid colorPatchList c Hc) as (p & Hp & _). eauto. }
  destruct (omap_all_found _ cs Hfound) as [Hlen Hmem].
  split.
  { rewrite Hlen, (Permutation_length Hperm), length_map. reflexivity. }
  intros p Hp. destruct (Hmem p Hp) as (c & Hc & Hfind).
  rewrite Hperm in Hc.
  destruct (find_by_centroid colorPatchList c Hc) as (p' & Hp' & Hin & Hfirst).
  rewrite Hfind in Hp'. injection Hp' as <-. split; assumption.
Qed.

Lemma find_skips_prefix (pre suf : list ColorPatch) (p : ColorPatch) :
  (forall q, q ∈ pre -> eqPoint2f (centroid q) (centroid p) = false) ->
  List.find (fun cp => eqPoint2f (centroid cp) (centroid p)) (pre ++ p :: suf)
  = Some p.
Proof.
  intros H. induction pre as [| q pre IH]; cbn.
  - rewrite eqPoint2f_refl. reflexivity.
  - rewrite (H q) by (apply elem_of_cons; left; reflexivity).
    apply IH. intros q' Hq'. apply H. apply elem_of_cons. right. exact Hq'.
Qed.

Lemma omap_find_distinct (pre suf : list ColorPatch) :
  (forall i j p q, (pre ++ suf) !! i = Some p -> (pre ++ suf) !! j = Some q ->
                   eqPoint2f (centroid p) (centroid q) = true -> i = j) ->
  omap (fun c => List.find (fun cp => eqPoint2f (centroid cp) c) (pre ++ suf))
       (map centroid suf) = suf.
Proof.
  revert pre. induction suf as [| p suf IH]; intros pre H; [reflexivity |].
  cbn [map omap list_omap].
  rewrite find_skips_prefix.
  - f_equal. specialize (IH (pre ++ [p])). rewrite <- app_assoc in IH.
    apply IH. exact H.
  - intros q Hq. apply list_elem_of_lookup in Hq as [i Hi].
    destruct (eqPoint2f (centroid q) (centroid p)) eqn:E; [| reflexivity].
    exfalso.
    assert (Hi' : (pre ++ p :: suf) !! i = Some q).
    { rewrite lookup_app_l by (eapply lookup_lt_Some; exact Hi). exact Hi. }
    assert (Hp : (pre ++ p :: suf) !! length pre = Some p).
    { rewrite lookup_app_r by lia. rewrite Nat.sub_diag. reflexivity. }
    pose proof (H i (length pre) q p Hi' Hp E) as Heq.
    apply lookup_lt_Some in Hi. lia.
Qed.

(** X20: When no two patches share a centroid, [sortPatches] returns a
    rearrangement of its input: every patch exactly once. *)
Theorem sortPatches_permutation (sqrtQ : Q -> Q) (colorPatchList sorted : list ColorPatch)
    (numSquaresW imageWidth : Z) :
  (forall i j p q, colorPatchList !! i = Some p -> colorPatchList !! j = Some q ->
                   eqPoint2f (centroid p) (centroid q) = true -> i = j) ->
  sortPatches sqrtQ colorPatchList numSquaresW imageWidth = Ok sorted ->
  sorted ≡ₚ colorPatchList.
Proof.
  intros Hdistinct Hs.
  apply sortPatches_Ok in Hs as (cs & _ & Hperm & ->).
  rewrite Hperm.
  pose proof (omap_find_distinct [] colorPatchList Hdistinct) as E.
  cbn [app] in E. rewrite E. reflexivity.
Qed.

Lemma sortPatches_first_match_witness :
  exists sorted,
    sortPatches Qsqrt linePatches 2 10 = Ok sorted
    /\ length sorted = length linePatches
    /\ forall p, p ∈ sorted ->
         p ∈ linePatches
         /\ List.find (fun cp => eqPoint2f (centroid cp) (centroid p)) linePatches
            = Some p.
Proof.
  apply (sortPatches_first_match Qsqrt linePatches 2 10). lia.
Defined.

Lemma sortPatches_permutation_witness :
  exists sorted,
    sortPatches Qsqrt (reverse linePatches) 2 10 = Ok sorted
    /\ sorted ≡ₚ reverse linePatches.
Proof.
  eexists. split; [vm_compute; reflexivity |].
  apply (sortPatches_permutation Qsqrt (reverse linePatches) _ 2 10);
    [| vm_compute; reflexivity].
  intros i j p q Hi Hj H.
  destruct i as [| [| [| [| i]]]]; try discriminate Hi;
    destruct j as [| [| [| [| j]]]]; try discriminate Hj;
    try reflexivity;
    vm_compute in Hi, Hj; injection Hi as <-; injection Hj as <-;
    vm_compute in H; discriminate H.
Defined.

(** ** Row anchors *)

(** The scan shared by [findTopLeft] and [findTopRight]: keep the point
    with the smallest key, replacing only on a strictly smaller one. *)
Lemma nearest_scan {A} (key : A -> Q) (points : list A) (init : A) :
  let best := foldl (fun best p => if Qltb (key p) (key best) then p else best)
                    init points in
  (best = init \/ best ∈ points)
  /\ (key best <= key init)%Q
  /\ forall p, p ∈ points -> (key best <= key p)%Q.
Proof.
  revert init. induction points as [| a points IH]; intros init; cbn.
  - split; [left; reflexivity |]. split; [lra |].
    intros p Hp. apply elem_of_nil in Hp. contradiction.
  - destruct (Qltb (key a) (key init)) eqn:E.
    + apply Qltb_lt in E. destruct (IH a) as (Hin & Hle & Hall).
      split.
      { right. destruct Hin as [-> | Hin]; apply elem_of_cons; auto. }
      split; [lra |].
      intros p Hp. apply elem_of_cons in Hp as [-> | Hp]; [exact Hle | auto].
    + apply Qltb_ge in E. destruct (IH init) as (Hin & Hle & Hall).
      split.
      { destruct Hin as [-> | Hin]; [left; reflexivity |].
        right. apply elem_of_cons. auto. }
      split; [exact Hle |].
      intros p Hp. apply elem_of_cons in Hp as [-> | Hp]; [lra | auto].
Qed.

(** X21: [findTopLeft] returns a point of the list or its start value
    (FLT_MAX, FLT_MAX), and no point of the list is nearer to the origin
    than the point it returns. *)
Theorem findTopLeft_nearest (sqrtQ : Q -> Q) (points : list cv.Point2f) :
  let topLeft := findTopLeft sqrtQ points in
  let distance p := norm2 sqrtQ (cv.sub2f (cv.mkPoint2f 0 0) p) in
  (topLeft = cv.mkPoint2f FLT_MAX FLT_MAX \/ topLeft ∈ points)
  /\ forall p, p ∈ points -> (distance topLeft <= distance p)%Q.
Proof.
  cbv zeta. unfold findTopLeft.
  destruct (nearest_scan (fun p => norm2 sqrtQ (cv.sub2f (cv.mkPoint2f 0 0) p))
                         points (cv.mkPoint2f FLT_MAX FLT_MAX))
    as (Hin & _ & Hall).
  split; [exact Hin | exact Hall].
Qed.

(** X22: [findTopRight] returns a point of the list or its start value
    (-1, FLT_MAX), and no point of the list is nearer to the image's
    top-right corner (imageWidth, 0) than the point it returns. *)
Theorem findTopRight_nearest (sqrtQ : Q -> Q) (points : list cv.Point2f)
    (imageWidth : Z) :
  let topRight := findTopRight sqrtQ points imageWidth in
  let distance p := norm2 sqrtQ (cv.sub2f (cv.mkPoint2f (inject_Z imageWidth) 0) p) in
  (topRight = cv.mkPoint2f (-1) FLT_MAX \/ topRight ∈ points)
  /\ forall p, p ∈ points -> (distance topRight <= distance p)%Q.
Proof.
  cbv zeta. unfold findTopRight.
  destruct (nearest_scan
              (fun p => norm2 sqrtQ (cv.sub2f (cv.mkPoint2f (inject_Z imageWidth) 0) p))
              points (cv.mkPoint2f (-1) FLT_MAX))
    as (Hin & _ & Hall).
  split; [exact Hin | exact Hall].
Qed.

(** X23: The two points that define the line are at distance zero from it,
    whenever they are apart. *)
Theorem pointToLineDistance_anchors (sqrtQ : Q -> Q) (pLine1 pLine2 : cv.Point2f) :
  ~ (norm2 sqrtQ (cv.sub2f pLine1 pLine2) == 0)%Q ->
  (pointToLineDistance sqrtQ pLine1 pLine1 pLine2 == 0)%Q
  /\ (pointToLineDistance sqrtQ pLine2 pLine1 pLine2 == 0)%Q.
Proof.
  intros Hn. unfold pointToLineDistance. cbv zeta.
  destruct pLine1 as [x1 y1], pLine2 as [x2 y2]. cbn [cv.x cv.y] in *.
  assert (E1 : ((y2 - y1) * x1 - (x2 - x1) * y1 + x2 * y1 - y2 * x1 == 0)%Q) by ring.
  assert (E2 : ((y2 - y1) * x2 - (x2 - x1) * y2 + x2 * y1 - y2 * x1 == 0)%Q) by ring.
  rewrite E1, E2. change (Qabs 0) with 0%Q.
  split; field; exact Hn.
Qed.

Lemma pointToLineDistance_anchors_witness :
  (pointToLineDistance Qsqrt (cv.mkPoint2f 1 2) (cv.mkPoint2f 1 2) (cv.mkPoint2f 4 6)
   == 0)%Q
  /\ (pointToLineDistance Qsqrt (cv.mkPoint2f 4 6) (cv.mkPoint2f 1 2) (cv.mkPoint2f 4 6)
      == 0)%Q.
Proof.
  apply (pointToLineDistance_anchors Qsqrt (cv.mkPoint2f 1 2) (cv.mkPoint2f 4 6)).
  vm_compute. discriminate.
Defined.

(** ** Chart detection *)

Lemma truncToInt_floor (q : Q) : (0 <= q)%Q -> truncToInt q = Qfloor q.
Proof.
  destruct q as [n d]. unfold Qle, truncToInt, Qfloor. cbn. intros H.
  apply Z.quot_div_nonneg; lia.
Qed.

Lemma float_of_int_exact (n : Z) :
  0 <= n < 2 ^ 24 -> (float_of_int n == inject_Z n)%Q.
Proof. intros H. apply roundTo_inject_Z; [lia | exact H]. Qed.

Lemma float_of_int_mono (n m : Z) :
  0 <= n <= m -> (float_of_int n <= float_of_int m)%Q.
Proof.
  intros H. apply roundTo_mono; [lia | |].
  - change 0%Q with (inject_Z 0). rewrite <- Zle_Qle. lia.
  - rewrite <- Zle_Qle. lia.
Qed.

(** [1.0f * n] for an [int] of at most 24 bits. *)
Lemma fmul_one_int (n : Z) :
  0 <= n < 2 ^ 24 -> (fmul 1 (float_of_int n) == inject_Z n)%Q.
Proof.
  intros H. pose proof (float_of_int_exact n H) as E.
  assert (H0 : (0 <= inject_Z n)%Q).
  { change 0%Q with (inject_Z 0). rewrite <- Zle_Qle. lia. }
  unfold fmul, fl32.
  rewrite (roundTo_comp 24 (1 * float_of_int n) (inject_Z n)).
  - apply roundTo_inject_Z; [lia | exact H].
  - rewrite E. lra.
  - rewrite E. ring.
Qed.

(** The quotient of two [int]s taken in [float] and stored in an [int],
    then compared with [1.2f]: for sides of at most [2^23] the test fails
    exactly when the longer side is less than twice the shorter. *)
Lemma aspect_ratio_test (w h : Z) :
  0 < Z.min w h -> Z.max w h <= 2 ^ 23 ->
  Qltb kMaxAspectRatio
       (float_of_int
          (truncToInt (fdiv (fmul 1 (float_of_int (Z.max w h)))
                            (fmul 1 (float_of_int (Z.min w h)))))) = false
  <-> Z.max w h < 2 * Z.min w h.
Proof.
  intros Hmin Hmax.
  set (a := Z.max w h) in *. set (b := Z.min w h) in *.
  assert (Hab : b <= a) by (unfold a, b; lia).
  pose proof (fmul_one_int a ltac:(lia)) as Ea.
  pose proof (fmul_one_int b ltac:(lia)) as Eb.
  assert (HA : (1 <= inject_Z a)%Q).
  { change 1%Q with (inject_Z 1). rewrite <- Zle_Qle. lia. }
  assert (HB : (1 <= inject_Z b)%Q).
  { change 1%Q with (inject_Z 1). rewrite <- Zle_Qle. lia. }
  assert (HB' : (inject_Z b <= 8388608)%Q).
  { change 8388608%Q with (inject_Z (2 ^ 23)). rewrite <- Zle_Qle. lia. }
  assert (HAB : (inject_Z b <= inject_Z a)%Q) by (rewrite <- Zle_Qle; exact Hab).
  set (q := (inject_Z a / inject_Z b)%Q).
  assert (Hq1 : (1 <= q)%Q) by (apply Qle_shift_div_l; lra).
  assert (Ev : (fdiv (fmul 1 (float_of_int a)) (fmul 1 (float_of_int b)) == fl32 q)%Q).
  { unfold fdiv, fl32. apply roundTo_comp.
    - rewrite Ea, Eb. fold q. lra.
    - rewrite Ea, Eb. reflexivity. }
  set (v := fdiv (fmul 1 (float_of_int a)) (fmul 1 (float_of_int b))) in *.
  assert (E1 : (fl32 1 == 1)%Q) by (vm_compute; reflexivity).
  assert (Hv1 : (1 <= v)%Q).
  { rewrite Ev, <- E1. apply roundTo_mono; [lia | lra | exact Hq1]. }
  rewrite (truncToInt_floor v) by lra.
  pose proof (Qfloor_le v) as Hfl. pose proof (Qlt_floor v) as Hfu.
  destruct (Z.lt_ge_cases a (2 * b)) as [Hlt | Hge].
  - split; [intros _; exact Hlt | intros _].
    assert (Hq2 : (q <= 2 - (1 # 8388608))%Q).
    { apply Qle_shift_div_r; [lra |].
      assert (H : (inject_Z a <= inject_Z (2 * b - 1))%Q) by (rewrite <- Zle_Qle; lia).
      unfold Z.sub in H. rewrite inject_Z_plus, inject_Z_mult in H.
      change (inject_Z 2) with 2%Q in H. change (inject_Z (- (1))) with (- 1)%Q in H.
      lra. }
    assert (E2 : (fl32 (2 - (1 # 8388608)) == 2 - (1 # 8388608))%Q)
      by (vm_compute; reflexivity).
    assert (Hv2 : (v < 2)%Q).
    { assert (H : (v <= 2 - (1 # 8388608))%Q).
      { rewrite Ev, <- E2. apply roundTo_mono; [lia | lra | exact Hq2]. }
      lra. }
    assert (Hf : Qfloor v = 1).
    { assert (H1 : (inject_Z (Qfloor v) < inject_Z 2)%Q)
        by (change (inject_Z 2) with 2%Q; lra).
      assert (H2 : (inject_Z 1 < inject_Z (Qfloor v + 1))%Q)
        by (change (inject_Z 1) with 1%Q; lra).
      rewrite <- Zlt_Qlt in H1, H2. lia. }
    rewrite Hf. vm_compute. reflexivity.
  - split; [| intros H; lia]. intros H. exfalso.
    assert (Hq2 : (2 <= q)%Q).
    { apply Qle_shift_div_l; [lra |].
      assert (H' : (inject_Z (2 * b) <= inject_Z a)%Q) by (rewrite <- Zle_Qle; lia).
      rewrite inject_Z_mult in H'. change (inject_Z 2) with 2%Q in H'. lra. }
    assert (E2 : (fl32 2 == 2)%Q) by (vm_compute; reflexivity).
    assert (Hv2 : (2 <= v)%Q).
    { rewrite Ev, <- E2. apply roundTo_mono; [lia | lra | exact Hq2]. }
    assert (Hf : 2 <= Qfloor v).
    { assert (H1 : (inject_Z 2 < inject_Z (Qfloor v + 1))%Q)
        by (change (inject_Z 2) with 2%Q; lra).
      rewrite <- Zlt_Qlt in H1. lia. }
    pose proof (float_of_int_mono 2 (Qfloor v) ltac:(lia)) as Hm.
    assert (E3 : (float_of_int 2 == 2)%Q) by (vm_compute; reflexivity).
    apply Qltb_ge in H.
    assert (Hk : (kMaxAspectRatio < 2)%Q) by (vm_compute; reflexivity).
    lra.
Qed.

(** What the contour loop has checked of a contour it keeps. *)
Lemma patchOfContour_Some (ocv : OpenCV) (bw : cv.Mat Z) (cont : Contour)
    (colorPatch : ColorPatch) :
  patchOfContour ocv bw cont = Ok (Some colorPatch) ->
  Z.of_nat (length cont) = kNumEdges
  /\ isContourConvex ocv cont = true
  /\ colorPatch
     = mkColorPatch (center (minAreaRect ocv cont))
                    (cv.setRect (cv.filled (cv.rows bw) (cv.cols bw) 0)
                                (boundingRect ocv cont) 255)
                    zero3.
Proof.
  unfold patchOfContour. cbv zeta.
  destruct (Z.min _ _ =? 0); [discriminate |].
  match goal with |- (if ?c then _ else _) = _ -> _ => destruct c eqn:E end;
    [discriminate |].
  intros [= <-].
  apply orb_false_elim in E as [E Hconvex].
  apply orb_false_elim in E as [E _].
  apply orb_false_elim in E as [_ Hedges].
  apply negb_false_iff in Hconvex, Hedges.
  split; [apply Z.eqb_eq; exact Hedges |]. split; [exact Hconvex | reflexivity].
Qed.

Lemma patchesOfContours_loop (ocv : OpenCV) (bw : cv.Mat Z) (contours : list Contour) :
  forall acc colorPatchList,
    foldlM (fun colorPatchList cont =>
              o ← patchOfContour ocv bw cont;
              Ok (match o with
                  | Some colorPatch => colorPatchList ++ [colorPatch]
                  | None => colorPatchList
                  end))
           contours acc = Ok colorPatchList ->
    (length colorPatchList <= length acc + length contours)%nat
    /\ forall p, p ∈ colorPatchList ->
         p ∈ acc
         \/ exists cont, cont ∈ contours /\ patchOfContour ocv bw cont = Ok (Some p).
Proof.
  induction contours as [| cont contours IH]; intros acc l H; cbn [foldlM] in H.
  - injection H as <-. split; [cbn; lia | auto].
  - destruct (patchOfContour ocv bw cont) as [o | | |] eqn:E;
      cbn [mbind result_bind] in H; try discriminate.
    apply IH in H as [Hlen Hmem]. split.
    + destruct o; [rewrite length_app in Hlen |]; cbn [length] in *; lia.
    + intros p Hp. destruct (Hmem p Hp) as [Hacc | (c & Hc & Hpc)].
      * destruct o as [q |]; [| left; exact Hacc].
        apply elem_of_app in Hacc as [Hacc | Hq]; [left; exact Hacc |].
        apply list_elem_of_singleton in Hq as ->.
        right. exists cont. split; [apply elem_of_cons; left; reflexivity | exact E].
      * right. exists c. split; [apply elem_of_cons; right; exact Hc | exact Hpc].
Qed.

Lemma sortPatches_members (sqrtQ : Q -> Q) (colorPatchList sorted : list ColorPatch)
    (numSquaresW imageWidth : Z) :
  sortPatches sqrtQ colorPatchList numSquaresW imageWidth = Ok sorted ->
  (length sorted <= length colorPatchList)%nat
  /\ forall p, p ∈ sorted -> p ∈ colorPatchList.
Proof.
  intros Hs. apply sortPatches_Ok in Hs as (cs & _ & Hperm & ->). split.
  - rewrite <- (length_map centroid colorPatchList), <- (Permutation_length Hperm).
    clear Hperm. induction cs as [| c cs IH]; cbn; [lia |].
    destruct (List.find _ colorPatchList); cbn; lia.
  - intros p Hp. apply list_elem_of_omap in Hp as (c & _ & Hfind).
    apply find_some in Hfind as [Hin _]. apply list_elem_of_In. exact Hin.
Qed.

(** X24: Every patch [detectColorChart] returns was built from a contour of the
    label it accepted as the chart: a contour of four vertices that OpenCV
    reports convex, with the centre of its minimum-area rectangle as
    centroid, its bounding rectangle as mask and a zero median; and it
    returns no more patches than that label has contours. *)
Theorem detectColorChart_patches_from_contours
    (ocv : OpenCV) (sqrtQ : Q -> Q) (image : cv.Mat Z) (numSquaresW numSquaresH : Z)
    (patches : list ColorPatch) :
  detectColorChart ocv sqrtQ image numSquaresW numSquaresH = Ok patches ->
  let bw := binarize ocv image in
  let labels := fst (connectedComponentsWithStats ocv bw 8) in
  let stats := snd (connectedComponentsWithStats ocv bw 8) in
  exists contours,
    findChart ocv bw labels numSquaresW numSquaresH 1 (drop 1 stats) = Some contours
    /\ (length patches <= length contours)%nat
    /\ forall p, p ∈ patches ->
         exists cont,
           cont ∈ contours
           /\ length cont = 4%nat
           /\ isContourConvex ocv cont = true
           /\ centroid p = center (minAreaRect ocv cont)
           /\ mask p = cv.setRect (cv.filled (cv.rows bw) (cv.cols bw) 0)
                                  (boundingRect ocv cont) 255
           /\ rgbMedian p = zero3.
Proof.
  unfold detectColorChart. cbv zeta.
  destruct (connectedComponentsWithStats ocv (binarize ocv image) 8)
    as [labels stats]. cbn [fst snd].
  set (bw := binarize ocv image).
  destruct (findChart ocv bw labels numSquaresW numSquaresH 1 (drop 1 stats))
    as [contours |]; [| discriminate].
  intros H. exists contours. split; [reflexivity |].
  destruct (patchesOfContours ocv bw contours) as [l | | |] eqn:El;
    cbn [mbind result_bind] in H; try discriminate.
  apply patchesOfContours_loop in El as [Hlen Hmem]. cbn [length] in Hlen.
  assert (Hsub : (length patches <= length l)%nat
                 /\ forall p, p ∈ patches -> p ∈ l).
  { destruct (length l =? 0)%nat; [injection H as <-; auto |].
    destruct (removeContourOutliers sqrtQ l) as [clean | | |] eqn:Ec;
      cbn [mbind result_bind] in H; try discriminate.
    apply sortPatches_members in H as [Hlen' Hmem'].
    apply removeContourOutliers_Ok in Ec as (median & _ & ->).
    pose proof (kept_sublist (fun pd => Qltb (snd pd) (2 * median)) l
                             (minDistancesOf sqrtQ l)) as Hs.
    split.
    - apply sublist_length in Hs. lia.
    - intros p Hp. apply Hmem' in Hp.
      eapply sublist_subseteq in Hs. apply Hs. exact Hp. }
  destruct Hsub as [Hlen' Hsub]. split; [lia |].
  intros p Hp. apply Hsub in Hp.
  destruct (Hmem p Hp) as [Hnil | (cont & Hc & Hpc)];
    [apply elem_of_nil in Hnil; contradiction |].
  apply patchOfContour_Some in Hpc as (Hedges & Hconvex & ->).
  exists cont. unfold kNumEdges in Hedges.
  repeat split; try assumption; try reflexivity. lia.
Qed.

Lemma detectColorChart_patches_from_contours_witness :
  exists patches,
    detectColorChart threeSquaresOcv Qsqrt chartImage 2 2 = Ok patches
    /\ let bw := binarize threeSquaresOcv chartImage in
       let labels := fst (connectedComponentsWithStats threeSquaresOcv bw 8) in
       let stats := snd (connectedComponentsWithStats threeSquaresOcv bw 8) in
       exists contours,
         findChart threeSquaresOcv bw labels 2 2 1 (drop 1 stats) = Some contours
         /\ (length patches <= length contours)%nat
         /\ forall p, p ∈ patches ->
              exists cont,
                cont ∈ contours
                /\ length cont = 4%nat
                /\ isContourConvex threeSquaresOcv cont = true
                /\ centroid p = center (minAreaRect threeSquaresOcv cont)
                /\ mask p = cv.setRect (cv.filled (cv.rows bw) (cv.cols bw) 0)
                                       (boundingRect threeSquaresOcv cont) 255
                /\ rgbMedian p = zero3.
Proof.
  destruct (detectColorChart threeSquaresOcv Qsqrt chartImage 2 2)
    as [patches | | |] eqn:E; try (vm_compute in E; discriminate).
  exists patches. split; [reflexivity |].
  apply (detectColorChart_patches_from_contours threeSquaresOcv Qsqrt chartImage 2 2
                                                patches).
  exact E.
Defined.

(** X25: The aspect ratio of the patch filter is an [int]: a contour whose
    rectangle has sides between 1 and [2^23] is kept exactly when its area
    is within the two bounds the code computes in [float], it has four
    vertices, OpenCV reports it convex, and the longer side of its
    rectangle is less than twice the shorter one. *)
Theorem patchOfContour_aspect_ratio_in_integers
    (ocv : OpenCV) (bw : cv.Mat Z) (cont : Contour) :
  0 < Z.min (boxWidth ocv cont) (boxHeight ocv cont) ->
  Z.max (boxWidth ocv cont) (boxHeight ocv cont) <= 2 ^ 23 ->
  (exists colorPatch, patchOfContour ocv bw cont = Ok (Some colorPatch))
  <-> ((patchMinArea bw <= float_of_int (momentArea ocv cont))%Q
       /\ (float_of_int (momentArea ocv cont) <= patchMaxArea bw)%Q
       /\ length cont = 4%nat
       /\ Z.max (boxWidth ocv cont) (boxHeight ocv cont)
          < 2 * Z.min (boxWidth ocv cont) (boxHeight ocv cont)
       /\ isContourConvex ocv cont = true).
Proof.
  unfold boxWidth, boxHeight, momentArea. intros Hmin Hmax.
  unfold patchOfContour. cbv zeta.
  set (w := truncToInt (size_width (minAreaRect ocv cont))) in *.
  set (h := truncToInt (size_height (minAreaRect ocv cont))) in *.
  set (area := float_of_int (truncToInt (moments_m00 ocv cont))).
  set (minArea := patchMinArea bw). set (maxArea := patchMaxArea bw).
  destruct (Z.eqb_spec (Z.min w h) 0) as [E0 | _]; [lia |].
  pose proof (aspect_ratio_test w h Hmin Hmax) as Hratio.
  destruct (Qltb kMaxAspectRatio _) eqn:Er.
  - rewrite !orb_true_r. cbn [orb]. split.
    + intros [p Hp]. discriminate.
    + intros (_ & _ & _ & Hlt & _). apply Hratio in Hlt. discriminate.
  - rewrite orb_false_r.
    assert (Hlt : Z.max w h < 2 * Z.min w h) by (apply Hratio; reflexivity).
    destruct (Qltb area minArea) eqn:E1; cbn [orb].
    { split; [intros [p Hp]; discriminate |].
      intros (H & _). apply Qltb_lt in E1. lra. }
    destruct (Qltb maxArea area) eqn:E2; cbn [orb].
    { split; [intros [p Hp]; discriminate |].
      intros (_ & H & _). apply Qltb_lt in E2. lra. }
    apply Qltb_ge in E1, E2. unfold kNumEdges.
    destruct (Z.eqb_spec (Z.of_nat (length cont)) 4) as [E3 | E3]; cbn [negb orb].
    2: { split; [intros [p Hp]; discriminate |]. intros (_ & _ & H & _). lia. }
    destruct (isContourConvex ocv cont) eqn:E4; cbn [negb].
    + split; [| eauto]. intros _. repeat split; try assumption. lia.
    + split; [intros [p Hp]; discriminate |]. intros (_ & _ & _ & _ & H).
      discriminate.
Qed.

(** On a 100x100 image the upper bound [0.45f / 100.0f * imSize] is below
    45: a convex 5x9 rectangle, of area 45 and aspect ratio 1.8, passes the
    aspect test and is discarded for its area. *)
Lemma patchOfContour_aspect_ratio_in_integers_witness :
  ((exists colorPatch,
      patchOfContour (boxOcv [] []) blankImage (rectAt 10 10 5 9)
      = Ok (Some colorPatch))
   <-> ((patchMinArea blankImage
         <= float_of_int (momentArea (boxOcv [] []) (rectAt 10 10 5 9)))%Q
        /\ (float_of_int (momentArea (boxOcv [] []) (rectAt 10 10 5 9))
            <= patchMaxArea blankImage)%Q
        /\ length (rectAt 10 10 5 9) = 4%nat
        /\ Z.max (boxWidth (boxOcv [] []) (rectAt 10 10 5 9))
                 (boxHeight (boxOcv [] []) (rectAt 10 10 5 9))
           < 2 * Z.min (boxWidth (boxOcv [] []) (rectAt 10 10 5 9))
                       (boxHeight (boxOcv [] []) (rectAt 10 10 5 9))
        /\ isContourConvex (boxOcv [] []) (rectAt 10 10 5 9) = true))
  /\ momentArea (boxOcv [] []) (rectAt 10 10 5 9) = 45
  /\ (patchMaxArea blankImage < 45)%Q
  /\ patchOfContour (boxOcv [] []) blankImage (rectAt 10 10 5 9) = Ok None
  /\ (exists colorPatch,
        patchOfContour (boxOcv [] []) blankImage (rectAt 10 10 4 7)
        = Ok (Some colorPatch)).
Proof.
  split; [| split; [| split; [| split]]].
  - apply (patchOfContour_aspect_ratio_in_integers
             (boxOcv [] []) blankImage (rectAt 10 10 5 9));
      vm_compute; [reflexivity | discriminate].
  - vm_compute. reflexivity.
  - vm_compute. reflexivity.
  - vm_compute. reflexivity.
  - apply (patchOfContour_aspect_ratio_in_integers
             (boxOcv [] []) blankImage (rectAt 10 10 4 7)).
    + vm_compute. reflexivity.
    + vm_compute. discriminate.
    + repeat split; vm_compute; try reflexivity; discriminate.
Defined.

(** ** Small objects *)

Lemma imap_unchanged {A} (f : nat -> A -> A) (l : list A) :
  (forall i a, l !! i = Some a -> f i a = a) -> imap f l = l.
Proof.
  revert f. induction l as [| a l IH]; intros f H; [reflexivity |].
  cbn [imap]. f_equal.
  - apply (H 0%nat a). reflexivity.
  - apply IH. intros i b Hi. apply (H (S i) b). exact Hi.
Qed.

Lemma truncToInt_small (q : Q) : (0 <= q)%Q -> (q < 1)%Q -> truncToInt q = 0.
Proof.
  destruct q as [n d]. unfold Qle, Qlt, truncToInt. cbn.
  intros H0 H1. apply Z.quot_small. lia.
Qed.

(** X26: [removeSmallObjects] keeps the shape of the image and only clears
    pixels: every pixel of the result is the pixel of the input or 0. *)
Theorem removeSmallObjects_only_clears (ocv : OpenCV) (imageBwIn : cv.Mat Z) :
  length (removeSmallObjects ocv imageBwIn) = length imageBwIn
  /\ forall y x v,
       pixel (removeSmallObjects ocv imageBwIn) y x = Some v ->
       pixel imageBwIn y x = Some v \/ (v = 0 /\ is_Some (pixel imageBwIn y x)).
Proof.
  unfold removeSmallObjects.
  destruct (connectedComponentsWithStats ocv imageBwIn 8) as [labels stats].
  cbv beta iota zeta.
  split; [apply length_imap |].
  intros y x v. unfold pixel, cv.Mat in *. rewrite list_lookup_imap.
  destruct (imageBwIn !! y) as [row |]; cbn; [| discriminate].
  rewrite list_lookup_imap.
  destruct (row !! x) as [v0 |]; cbn; [| discriminate].
  destruct (existsb _ _); intros [= <-]; [right | left]; eauto.
Qed.

Lemma Qmult_le_compat_l_nonneg (x y z : Q) : (0 <= z -> x <= y -> z * x <= z * y)%Q.
Proof.
  intros Hz H. rewrite (Qmult_comm z x), (Qmult_comm z y).
  apply Qmult_le_compat_r; assumption.
Qed.

Lemma rounded_product_below_one (k C R fc fr a v u : Q) :
  (0 <= k -> 0 <= C -> 0 <= R -> 1 <= u ->
   0 <= fc -> fc <= C * u -> 0 <= fr -> fr <= R * u ->
   0 <= a -> a <= k * fc * u -> v <= a * fr * u ->
   C * R <= 9999 -> k * 9999 * (u * u * u * u) < 1 ->
   v < 1)%Q.
Proof.
  intros Hk HC HR Hu Hfc0 Hfc Hfr0 Hfr Ha0 Ha Hv HCR Hlt.
  assert (H1 : (k * fc <= k * (C * u))%Q) by (apply Qmult_le_compat_l_nonneg; assumption).
  assert (H2 : (k * fc * u <= k * (C * u) * u)%Q).
  { apply Qmult_le_compat_r; [exact H1 | lra]. }
  assert (H3 : (a * fr <= k * (C * u) * u * fr)%Q).
  { apply Qmult_le_compat_r; [lra | exact Hfr0]. }
  assert (H4 : (0 <= k * (C * u) * u)%Q).
  { repeat apply Qmult_le_0_compat; lra. }
  assert (H5 : (k * (C * u) * u * fr <= k * (C * u) * u * (R * u))%Q).
  { apply Qmult_le_compat_l_nonneg; assumption. }
  assert (H6 : (a * fr * u <= k * (C * u) * u * (R * u) * u)%Q).
  { apply Qmult_le_compat_r; lra. }
  assert (H7 : (k * (C * u) * u * (R * u) * u == k * (u * u * u * u) * (C * R))%Q) by ring.
  assert (H8 : (0 <= k * (u * u * u * u))%Q).
  { repeat apply Qmult_le_0_compat; lra. }
  assert (H9 : (k * (u * u * u * u) * (C * R) <= k * (u * u * u * u) * 9999)%Q).
  { apply Qmult_le_compat_l_nonneg; assumption. }
  lra.
Qed.

(** On an image of fewer than 10000 pixels the area threshold, computed
    in [float] and converted to [int], is 0. *)
Lemma smallObjectArea_small_image (imageBwIn : cv.Mat Z) :
  cv.cols imageBwIn * cv.rows imageBwIn < 10000 -> smallObjectArea imageBwIn = 0.
Proof.
  intros Hsize. unfold smallObjectArea.
  assert (Hc : 0 <= cv.cols imageBwIn).
  { unfold cv.cols. destruct imageBwIn; lia. }
  assert (Hr : 0 <= cv.rows imageBwIn) by (unfold cv.rows; lia).
  set (c := cv.cols imageBwIn) in *. set (r := cv.rows imageBwIn) in *.
  assert (HC : (0 <= inject_Z c)%Q).
  { change 0%Q with (inject_Z 0). rewrite <- Zle_Qle. exact Hc. }
  assert (HR : (0 <= inject_Z r)%Q).
  { change 0%Q with (inject_Z 0). rewrite <- Zle_Qle. exact Hr. }
  assert (HCR : (inject_Z c * inject_Z r <= 9999)%Q).
  { rewrite <- inject_Z_mult. change 9999%Q with (inject_Z 9999).
    rewrite <- Zle_Qle. lia. }
  assert (Hu : (1 <= 1 + 2 ^ (- 24))%Q) by (vm_compute; discriminate).
  assert (Hk0 : (0 <= kMinAreaFrac)%Q) by (vm_compute; discriminate).
  assert (Hk : (kMinAreaFrac * 9999
                * ((1 + 2 ^ (- 24)) * (1 + 2 ^ (- 24)) * (1 + 2 ^ (- 24))
                   * (1 + 2 ^ (- 24))) < 1)%Q)
    by (vm_compute; reflexivity).
  pose proof (roundTo_nonneg 24 (inject_Z c) ltac:(lia) HC) as Hfc0.
  pose proof (roundTo_upper 24 (inject_Z c) ltac:(lia) HC) as Hfc.
  pose proof (roundTo_nonneg 24 (inject_Z r) ltac:(lia) HR) as Hfr0.
  pose proof (roundTo_upper 24 (inject_Z r) ltac:(lia) HR) as Hfr.
  assert (Ha0 : (0 <= kMinAreaFrac * float_of_int c)%Q).
  { apply Qmult_le_0_compat; [exact Hk0 | exact Hfc0]. }
  pose proof (roundTo_nonneg 24 _ ltac:(lia) Ha0) as Hfa0.
  pose proof (roundTo_upper 24 _ ltac:(lia) Ha0) as Hfa.
  assert (Hv0 : (0 <= fmul kMinAreaFrac (float_of_int c) * float_of_int r)%Q).
  { apply Qmult_le_0_compat; [exact Hfa0 | exact Hfr0]. }
  pose proof (roundTo_nonneg 24 _ ltac:(lia) Hv0) as Hfv0.
  pose proof (roundTo_upper 24 _ ltac:(lia) Hv0) as Hfv.
  apply truncToInt_small; [exact Hfv0 |].
  exact (rounded_product_below_one
           kMinAreaFrac (inject_Z c) (inject_Z r) (float_of_int c) (float_of_int r)
           (fmul kMinAreaFrac (float_of_int c)) _ (1 + 2 ^ (- 24))
           Hk0 HC HR Hu Hfc0 Hfc Hfr0 Hfr Hfa0 Hfa Hfv HCR Hk).
Qed.

(** X27: On an image of fewer than 10000 pixels the area threshold is 0: when
    no component has a negative area, [removeSmallObjects] returns the
    image as it is. *)
Theorem removeSmallObjects_small_image (ocv : OpenCV) (imageBwIn : cv.Mat Z) :
  cv.cols imageBwIn * cv.rows imageBwIn < 10000 ->
  Forall (fun st => 0 <= CC_STAT_AREA st)
         (snd (connectedComponentsWithStats ocv imageBwIn 8)) ->
  removeSmallObjects ocv imageBwIn = imageBwIn.
Proof.
  intros Hsize Hareas. unfold removeSmallObjects.
  destruct (connectedComponentsWithStats ocv imageBwIn 8) as [labels stats].
  cbn [snd] in Hareas. cbv beta iota zeta.
  rewrite (smallObjectArea_small_image imageBwIn Hsize).
  assert (Hnone : omap (fun '(label, st) =>
                          if CC_STAT_AREA st <? 0 then Some (Z.of_nat label) else None)
                       (imap (fun label st => (label, st)) stats) = []).
  { assert (G : forall (g : nat -> nat),
               omap (fun '(label, st) =>
                       if CC_STAT_AREA st <? 0 then Some (Z.of_nat label) else None)
                    (imap (fun label st => (g label, st)) stats) = []).
    { induction Hareas as [| st stats Hst _ IH]; intros g; [reflexivity |].
      cbn. destruct (Z.ltb_spec (CC_STAT_AREA st) 0) as [? | _]; [lia |].
      apply (IH (fun n => g (S n))). }
    apply (G (fun n => n)). }
  rewrite Hnone. cbn [existsb].
  apply imap_unchanged. intros y row _.
  apply imap_unchanged. reflexivity.
Qed.

(** A lit pixel that OpenCV reports as a component of area 1 stays lit on
    a 3x3 image; on a 200x200 image, where the threshold is 4, the same
    component is cleared. *)
Lemma removeSmallObjects_small_image_witness :
  removeSmallObjects dotOcv dotImage = dotImage
  /\ pixel (removeSmallObjects dotOcv dotImage) 1 1 = Some 255
  /\ smallObjectArea litImage = 4
  /\ pixel (removeSmallObjects dotOcv litImage) 1 1 = Some 0.
Proof.
  assert (H : removeSmallObjects dotOcv dotImage = dotImage).
  { apply (removeSmallObjects_small_image dotOcv dotImage).
    - vm_compute. reflexivity.
    - repeat constructor; vm_compute; discriminate. }
  split; [exact H |]. split; [rewrite H; reflexivity |].
  split; vm_compute; reflexivity.
Defined.

(** ** The label loop *)

(** X28: The label loop stops at the first plausible label with at least
    [numSquaresW * numSquaresH] contours, and hands on the contours of that
    label; plausible labels before it all had fewer contours. *)
Theorem findChart_first_accepted_label (ocv : OpenCV) (bw : cv.Mat Z)
    (labels : Z -> Z -> Z) (numSquaresW numSquaresH : Z) (stats : list CCStats)
    (label : nat) (contours : list Contour) :
  findChart ocv bw labels numSquaresW numSquaresH label stats = Some contours
  <-> exists i st,
        stats !! i = Some st
        /\ labelPlausible bw st = true
        /\ contours = contoursOfLabel ocv bw labels (label + i)
        /\ toSizeT (numSquaresW * numSquaresH) <= Z.of_nat (length contours)
        /\ forall j st',
             (j < i)%nat -> stats !! j = Some st' -> labelPlausible bw st' = true ->
             Z.of_nat (length (contoursOfLabel ocv bw labels (label + j)))
             < toSizeT (numSquaresW * numSquaresH).
Proof.
  revert label. induction stats as [| st stats IH]; intros label; cbn [findChart].
  - split; [discriminate | intros (i & st & H & _); discriminate H].
  - assert (Hnext : findChart ocv bw labels numSquaresW numSquaresH (S label) stats
                    = Some contours
                    -> (labelPlausible bw st = true ->
                        Z.of_nat (length (contoursOfLabel ocv bw labels label))
                        < toSizeT (numSquaresW * numSquaresH))
                    -> exists i st0,
                         (st :: stats) !! i = Some st0
                         /\ labelPlausible bw st0 = true
                         /\ contours = contoursOfLabel ocv bw labels (label + i)
                         /\ toSizeT (numSquaresW * numSquaresH)
                            <= Z.of_nat (length contours)
                         /\ forall j st',
                              (j < i)%nat -> (st :: stats) !! j = Some st' ->
                              labelPlausible bw st' = true ->
                              Z.of_nat (length (contoursOfLabel ocv bw labels (label + j)))
                              < toSizeT (numSquaresW * numSquaresH)).
    { intros H Hhere. apply IH in H as (i & st0 & Hi & Hp & Hc & Hge & Hbefore).
      exists (S i), st0. split; [exact Hi |]. split; [exact Hp |].
      replace (label + S i)%nat with (S label + i)%nat by lia.
      split; [exact Hc |]. split; [exact Hge |].
      intros [| j] st' Hj Hst' Hp'.
      - injection Hst' as <-. rewrite Nat.add_0_r. apply Hhere, Hp'.
      - replace (label + S j)%nat with (S label + j)%nat by lia.
        apply (Hbefore j st'); [lia | exact Hst' | exact Hp']. }
    assert (Hback : forall i st0,
               (st :: stats) !! S i = Some st0 ->
               labelPlausible bw st0 = true ->
               contours = contoursOfLabel ocv bw labels (label + S i) ->
               toSizeT (numSquaresW * numSquaresH) <= Z.of_nat (length contours) ->
               (forall j st',
                  (j < S i)%nat -> (st :: stats) !! j = Some st' ->
                  labelPlausible bw st' = true ->
                  Z.of_nat (length (contoursOfLabel ocv bw labels (label + j)))
                  < toSizeT (numSquaresW * numSquaresH)) ->
               findChart ocv bw labels numSquaresW numSquaresH (S label) stats
               = Some contours).
    { intros i st0 Hi Hp Hc Hge Hbefore. apply IH. exists i, st0.
      split; [exact Hi |]. split; [exact Hp |].
      replace (S label + i)%nat with (label + S i)%nat by lia.
      split; [exact Hc |]. split; [exact Hge |].
      intros j st' Hj Hst' Hp'.
      replace (S label + j)%nat with (label + S j)%nat by lia.
      apply (Hbefore (S j) st'); [lia | exact Hst' | exact Hp']. }
    destruct (labelPlausible bw st) eqn:Ep.
    + destruct (Z.leb_spec (toSizeT (numSquaresW * numSquaresH))
                  (Z.of_nat (length (contoursOfLabel ocv bw labels label))))
        as [Hge | Hlt].
      * split.
        -- intros [= <-]. exists 0%nat, st. rewrite Nat.add_0_r.
           split; [reflexivity |]. split; [exact Ep |]. split; [reflexivity |].
           split; [exact Hge |]. intros j st' Hj. lia.
        -- intros (i & st0 & Hi & Hp & Hc & Hge' & Hbefore).
           destruct i as [| i].
           ++ rewrite Nat.add_0_r in Hc. rewrite Hc. reflexivity.
           ++ exfalso. specialize (Hbefore 0%nat st ltac:(lia) eq_refl Ep).
              rewrite Nat.add_0_r in Hbefore. lia.
      * split; [intros H; apply Hnext; [exact H | intros _; exact Hlt] |].
        intros (i & st0 & Hi & Hp & Hc & Hge' & Hbefore).
        destruct i as [| i]; [| eapply Hback; eassumption].
        exfalso. rewrite Nat.add_0_r in Hc. subst contours. lia.
    + split; [intros H; apply Hnext; [exact H | intros H'; discriminate H'] |].
      intros (i & st0 & Hi & Hp & Hc & Hge' & Hbefore).
      destruct i as [| i]; [| eapply Hback; eassumption].
      exfalso. injection Hi as <-. congruence.
Qed.

(** X29: The number of contours is compared with [numSquaresW * numSquaresH]
    as a [size_t].  A negative product becomes a count no label reaches, and
    [detectColorChart] throws. *)
Theorem detectColorChart_negative_chart_size
    (ocv : OpenCV) (sqrtQ : Q -> Q) (image : cv.Mat Z) (numSquaresW numSquaresH : Z) :
  - 2 ^ 31 <= numSquaresW * numSquaresH < 0 ->
  (forall label,
     Z.of_nat (length (contoursOfLabel ocv (binarize ocv image)
                         (fst (connectedComponentsWithStats ocv (binarize ocv image) 8))
                         label))
     < 2 ^ 64 - 2 ^ 31) ->
  detectColorChart ocv sqrtQ image numSquaresW numSquaresH = Throw "No chart found".
Proof.
  intros Hneg Hlen. unfold detectColorChart.
  destruct (connectedComponentsWithStats ocv (binarize ocv image) 8)
    as [labels stats]. cbn [fst] in Hlen.
  assert (Hnone : findChart ocv (binarize ocv image) labels numSquaresW numSquaresH 1
                            (drop 1 stats) = None).
  { apply findChart_None. intros i st _ _.
    specialize (Hlen (1 + i)%nat).
    assert (Hsz : 2 ^ 64 - 2 ^ 31 <= toSizeT (numSquaresW * numSquaresH)).
    { unfold toSizeT.
      rewrite <- (Z.mod_add _ 1) by lia.
      rewrite Z.mod_small by lia. lia. }
    lia. }
  rewrite Hnone. reflexivity.
Qed.

Lemma detectColorChart_negative_chart_size_witness :
  detectColorChart threeSquaresOcv Qsqrt chartImage (-2) 2 = Throw "No chart found".
Proof.
  apply (detectColorChart_negative_chart_size threeSquaresOcv Qsqrt chartImage (-2) 2).
  - lia.
  - intros label. vm_compute. reflexivity.
Defined.

(** ** Clamped pixels *)

Lemma lookup_map {A B} (f : A -> B) (l : list A) (i : nat) :
  map f l !! i = f <$> l !! i.
Proof.
  revert i. induction l as [| a l IH]; intros [| i]; cbn; try reflexivity.
  apply IH.
Qed.

(** X30: [findClampedPixels] keeps the shape of the image and leaves three
    levels: a pixel of the result is 0 or 255 exactly where the input is,
    and 128 elsewhere; applied to its own result it changes nothing. *)
Theorem findClampedPixels_levels (image8 : cv.Mat Z) :
  (forall y x,
     pixel (findClampedPixels image8) y x
     = (fun v => if decide (v = 0 \/ v = 255) then v else 128) <$> pixel image8 y x)
  /\ (forall y x v,
        pixel (findClampedPixels image8) y x = Some v -> v = 0 \/ v = 128 \/ v = 255)
  /\ findClampedPixels (findClampedPixels image8) = findClampedPixels image8.
Proof.
  assert (Hpix : forall y x,
             pixel (findClampedPixels image8) y x
             = (fun v => if decide (v = 0 \/ v = 255) then v else 128)
                 <$> pixel image8 y x).
  { intros y x. unfold pixel, findClampedPixels, cv.mapMat, cv.Mat in *.
    rewrite lookup_map.
    destruct (image8 !! y) as [row |]; cbn; [| reflexivity].
    rewrite lookup_map.
    destruct (row !! x) as [v |]; cbn; [| reflexivity].
    f_equal. destruct (Z.eqb_spec v 0), (Z.eqb_spec v 255), (decide _); cbn;
      try reflexivity; lia. }
  split; [exact Hpix |]. split.
  - intros y x v. rewrite Hpix.
    destruct (pixel image8 y x) as [v0 |]; cbn; [| discriminate].
    intros [= <-]. destruct (decide _); lia.
  - unfold findClampedPixels, cv.mapMat.
    rewrite map_map. apply map_ext. intros row.
    rewrite map_map. apply map_ext. intros v.
    destruct (Z.eqb_spec v 0) as [-> | ?]; [reflexivity |].
    destruct (Z.eqb_spec v 255) as [-> | ?]; reflexivity.
Qed.
